(** * raftwal: the file-backed Raft write-ahead log (storage.go)

    A shallow embedding of [raftwal/storage.go]: the 32-byte index slot
    codec, the memory-mapped entry files, the entry log built from them,
    the meta file and the [DiskStorage] facade, followed by the properties
    of the storage contract that hold on this code and the inputs on which
    it departs from them. *)

From Stdlib Require Import ZArith Lia Ascii Sorted.
From stdpp Require Import base list strings gmap pretty.

Local Open Scope Z_scope.

(** ** Machine integers

    Go's [uint64], [int] (64 bits) and [int32] are carried as [Z]
    with the wrap-around of each operation written out. *)

Definition u64 (x : Z) : Z := x mod 2 ^ 64.

(** Conversion of a 64-bit pattern to the signed [int]. *)
Definition int64 (x : Z) : Z :=
  let r := x mod 2 ^ 64 in if r <? 2 ^ 63 then r else r - 2 ^ 64.

(** Conversion of a 64-bit pattern to the signed [int32] (the underlying
    type of [raftpb.EntryType]). *)
Definition int32 (x : Z) : Z :=
  let r := x mod 2 ^ 32 in if r <? 2 ^ 31 then r else r - 2 ^ 32.

Definition is_u64 (x : Z) : Prop := 0 <= x < 2 ^ 64.
Definition is_int32 (x : Z) : Prop := - 2 ^ 31 <= x < 2 ^ 31.

(** A byte is a [Z] in [0, 256); [byte(x)] keeps the low eight bits. *)
Definition is_byte (b : Z) : Prop := 0 <= b < 256.
Definition byte_of (x : Z) : Z := Z.land x 255.

(** ** encoding/binary, big endian *)

(** [binary.BigEndian.PutUint64(b, v)]: the eight bytes written. *)
Definition PutUint64 (v : Z) : list Z :=
  [ byte_of (Z.shiftr v 56); byte_of (Z.shiftr v 48);
    byte_of (Z.shiftr v 40); byte_of (Z.shiftr v 32);
    byte_of (Z.shiftr v 24); byte_of (Z.shiftr v 16);
    byte_of (Z.shiftr v 8);  byte_of v ].

(** [binary.BigEndian.Uint64(b)] reads [b[0..8)]; a shorter slice panics
    in Go (the callers below always pass at least eight bytes), modelled
    here by reading the missing bytes as zero. *)
Definition Uint64 (b : list Z) : Z :=
  let at_ (i : nat) := nth i b 0 in
  Z.lor (at_ 7%nat)
    (Z.lor (Z.shiftl (at_ 6%nat) 8)
      (Z.lor (Z.shiftl (at_ 5%nat) 16)
        (Z.lor (Z.shiftl (at_ 4%nat) 24)
          (Z.lor (Z.shiftl (at_ 3%nat) 32)
            (Z.lor (Z.shiftl (at_ 2%nat) 40)
              (Z.lor (Z.shiftl (at_ 1%nat) 48)
                (Z.shiftl (at_ 0%nat) 56))))))).

(** ** Constants *)

Definition metaFileSize : Z := 4096.
Definition raftIdOffset : Z := 0.
Definition checkpointOffset : Z := 8.
Definition hardStateOffset : Z := 512.
Definition snapshotOffset : Z := 1024.
Definition maxNumEntries : Z := 30000.
Definition entrySize : Z := 32.
Definition entryFileOffset : Z := Z.shiftl 1 20.
Definition entryFileSize : Z := 4 * entryFileOffset.
Definition entryFileMaxSize : Z := Z.shiftl 1 30.

(** ** Errors and outcomes

    A Go function returns its values together with an [error]; a panic
    (index out of range, failed assertion, nil dereference) aborts it. *)

Inductive error : Type :=
  | ErrCompacted
  | ErrUnavailable
  | ErrSnapOutOfDate
  | ErrKeyNotFound
  | ErrOther (msg : string).

Inductive outcome (A : Type) : Type :=
  | Ret (a : A)
  | Panicked.
Arguments Ret {A} a.
Arguments Panicked {A}.

#[global] Instance outcome_ret : MRet outcome := fun _ a => Ret a.
#[global] Instance outcome_bind : MBind outcome := fun _ _ k m =>
  match m with
  | Ret a => k a
  | Panicked => Panicked
  end.

(** [y.AssertTrue] and [x.AssertTrue]: panic when the condition fails. *)
Definition AssertTrue (b : bool) : outcome unit :=
  if b then Ret tt else Panicked.

(** ** The index slot *)

(** [type entry struct]; [Type_] is the [raftpb.EntryType] field. *)
Record entry : Type := mkEntry {
  Term : Z;
  Index : Z;
  DataOffset : Z;
  Type_ : Z
}.

Definition wf_entry (e : entry) : Prop :=
  is_u64 (Term e) /\ is_u64 (Index e) /\ is_u64 (DataOffset e) /\
  is_int32 (Type_ e).

(** [func (e *entry) Bytes() []byte]; [None] is the nil receiver. *)
Definition Bytes (e : option entry) : list Z :=
  match e with
  | None => []
  | Some e =>
      PutUint64 (Term e) ++ PutUint64 (Index e) ++
      PutUint64 (DataOffset e) ++ PutUint64 (u64 (Type_ e))
  end.

(** [func entryFromBytes(b []byte)], returning the entry pointer and the
    error. *)
Definition entryFromBytes (b : list Z) : option entry * option error :=
  if (Z.of_nat (length b) =? 0) || (Z.of_nat (length b) <? entrySize)
  then (None, Some (ErrOther "invalid byte array size"))
  else
    (Some {| Term := Uint64 b;
             Index := Uint64 (drop 8 b);
             DataOffset := Uint64 (drop 16 b);
             Type_ := int32 (Uint64 (drop 24 b)) |},
     None).

(** ** Strings, paths and number formatting (Go standard library) *)

(** [strings.HasSuffix]. *)
Definition HasSuffix (s suffix : string) : bool :=
  let n := String.length s in
  let m := String.length suffix in
  bool_decide (m ≤ n)%nat && String.eqb (String.substring (n - m) m s) suffix.

(** [strings.Split(s, sep)]. With an empty separator the string is
    exploded into its characters; otherwise it is cut around every
    occurrence of [sep], [skip] counting the characters of an occurrence
    still to be dropped and [cur] holding the piece being read. *)
Fixpoint explode (s : string) : list string :=
  match s with
  | EmptyString => []
  | String c s' => String c EmptyString :: explode s'
  end.

Fixpoint Split_go (sep s : string) (skip : nat) (cur : string) : list string :=
  match s with
  | EmptyString => [cur]
  | String c s' =>
      match skip with
      | S k => Split_go sep s' k cur
      | O =>
          if String.prefix sep s
          then cur :: Split_go sep s' (String.length sep - 1) EmptyString
          else Split_go sep s' O (cur +:+ String c EmptyString)
      end
  end.

Definition Split (s sep : string) : list string :=
  if String.eqb sep EmptyString then explode s
  else Split_go sep s O EmptyString.

(** [strconv.ParseUint(s, 10, bitSize)]: the value and the error. An empty
    string or a character that is not a decimal digit is a syntax error
    with value 0; a value of [2 ^ bitSize] or more is a range error with
    the maximum value. *)
Definition digit_of (c : ascii) : option Z :=
  let n := Z.of_N (N_of_ascii c) in
  if (48 <=? n) && (n <=? 57) then Some (n - 48) else None.

Fixpoint ParseUint_go (s : string) (acc : Z) : option Z :=
  match s with
  | EmptyString => Some acc
  | String c s' =>
      match digit_of c with
      | Some dg => ParseUint_go s' (acc * 10 + dg)
      | None => None
      end
  end.

Definition ParseUint (s : string) (bitSize : Z) : Z * option error :=
  if String.eqb s EmptyString then (0, Some (ErrOther "invalid syntax"))
  else
    match ParseUint_go s 0 with
    | None => (0, Some (ErrOther "invalid syntax"))
    | Some n =>
        if n <? 2 ^ bitSize then (n, None)
        else (2 ^ bitSize - 1, Some (ErrOther "value out of range"))
    end.

(** [fmt.Sprintf("%d", n)]. *)
Definition Sprintf_d (n : Z) : string := pretty n.

(** [filepath.Join(dir, name)]: the non-empty elements, separated by a
    slash (the clean-up of redundant separators and dots is not modelled;
    the paths built below contain none). *)
Definition Join (dir name : string) : string :=
  if String.eqb dir EmptyString then name
  else if String.eqb name EmptyString then dir
  else dir +:+ "/" +:+ name.

(** ** Memory-mapped files *)

(** Modelled from the spec: the memory-mapped region ([z.Buffer] and
    [z.Mmap] of the ristretto library, which is not under src/). A file
    is zero-initialised and mapped up to its maximum size; a buffer is a
    cursor over a mapping, reads and writes are bounded by the mapping,
    and appended bytes are placed at the cursor (the payload high-water
    mark), which starts at the offset given at creation. *)
Record MmapFile : Type := mkMmapFile {
  fbytes : Z -> Z;
  fsize : Z
}.

(** The directory tree: the mapped files by handle, and the handle of each
    path, in creation order. *)
Record Disk : Type := mkDisk {
  mapped : list MmapFile;
  names : list (string * nat)
}.

Definition emptyDisk : Disk := {| mapped := []; names := [] |}.

Record Buffer : Type := mkBuffer {
  bfile : nat;
  boff : Z
}.

Definition lookup_name (d : Disk) (path : string) : option nat :=
  match list_find (fun p => fst p = path) (names d) with
  | Some (_, (_, h)) => Some h
  | None => None
  end.

Definition file_size (d : Disk) (h : nat) : Z :=
  match mapped d !! h with
  | Some f => fsize f
  | None => 0
  end.

Definition byte_at (d : Disk) (h : nat) (i : Z) : Z :=
  match mapped d !! h with
  | Some f => fbytes f i
  | None => 0
  end.

(** The bytes [off, off + n) of a mapping. *)
Definition disk_read (d : Disk) (h : nat) (off n : Z) : list Z :=
  byte_at d h <$> seqZ off n.

(** [copy] into a mapping at [off]. *)
Definition write_bytes (f : Z -> Z) (off : Z) (bs : list Z) : Z -> Z :=
  fun i =>
    if (off <=? i) && (i <? off + Z.of_nat (length bs))
    then nth (Z.to_nat (i - off)) bs 0
    else f i.

Definition disk_write (d : Disk) (h : nat) (off : Z) (bs : list Z) : Disk :=
  {| mapped := alter (fun f => {| fbytes := write_bytes (fbytes f) off bs;
                                  fsize := fsize f |}) h (mapped d);
     names := names d |}.

(** [copy] of [n] zero bytes into a mapping at [off]. *)
Definition disk_fill (d : Disk) (h : nat) (off n : Z) : Disk :=
  {| mapped := alter (fun f => {| fbytes := fun i =>
                                    if (off <=? i) && (i <? off + n) then 0
                                    else fbytes f i;
                                  fsize := fsize f |}) h (mapped d);
     names := names d |}.

(** Modelled from the spec: [z.NewMmapFile(sz, maxSz, offset, path)] opens
    or creates the file at [path] (a new file is zero-filled), maps it up
    to [maxSz] and returns a buffer whose cursor is at [offset]. *)
Definition NewMmapFile (sz maxSz offset : Z) (path : string) (d : Disk)
  : Buffer * Disk :=
  match lookup_name d path with
  | Some h => ({| bfile := h; boff := offset |}, d)
  | None =>
      let h := length (mapped d) in
      ({| bfile := h; boff := offset |},
       {| mapped := mapped d ++ [{| fbytes := fun _ => 0; fsize := maxSz |}];
          names := names d ++ [(path, h)] |})
  end.

(** Modelled from the spec: [Buffer.ReadAt(n, offset)], the [n] bytes of
    the mapping at byte offset [offset] ([read_at(offset, len)]); it fails
    when the range leaves the mapping. The result aliases the mapping and
    is represented by its start. *)
Definition Buffer_ReadAt (d : Disk) (b : Buffer) (n offset : Z)
  : Z * option error :=
  if (offset <? 0) || (file_size d (bfile b) <? offset + n)
  then (0, Some (ErrOther "read out of range"))
  else (offset, None).

(** Modelled from the spec: [Buffer.First(n)], the first [n] bytes of the
    mapping. *)
Definition Buffer_First (d : Disk) (b : Buffer) (n : Z) : option error :=
  if file_size d (bfile b) <? n
  then Some (ErrOther "first out of range") else None.

(** Modelled from the spec: [Buffer.SliceAllocateOffset(n)] reserves [n]
    bytes at the cursor ([append_bytes]) and returns their offset; going
    beyond the maximum size cannot be reported through the Go signature
    and aborts. *)
Definition Buffer_SliceAllocateOffset (d : Disk) (b : Buffer) (n : Z)
  : outcome (Z * Buffer) :=
  if file_size d (bfile b) <? boff b + n then Panicked
  else Ret (boff b, {| bfile := bfile b; boff := boff b + n |}).

(** Modelled from the spec: [Buffer.Len()], the cursor. *)
Definition Buffer_Len (b : Buffer) : Z := boff b.

(** A Go slice expression [m[lo:hi]] on a mapping (or on the nil slice,
    [None]): it panics unless [0 <= lo <= hi <= cap(m)]. The slice is a
    view and is represented by its bounds. *)
Definition slice_ok (d : Disk) (m : option nat) (lo hi : Z) : bool :=
  let cap := match m with Some h => file_size d h | None => 0 end in
  (0 <=? lo) && (lo <=? hi) && (hi <=? cap).

(** ** Entry files *)

(** [type entryFile struct]; [mmap] is the handle of the mapping the byte
    slice views, [None] for the nil slice. The file descriptor is not
    modelled. *)
Record entryFile : Type := mkEntryFile {
  firstIndex : Z;
  path : string;
  mmap : option nat
}.

(** [func (ef *entryFile) getEntry(idx int)]. *)
Definition entryFile_getEntry (d : Disk) (ef : entryFile) (idx : Z)
  : outcome (option entry * option error) :=
  let offset := int64 (idx * entrySize) in
  if slice_ok d (mmap ef) offset (int64 (offset + entrySize)) then
    match mmap ef with
    | Some h => Ret (entryFromBytes (disk_read d h offset entrySize))
    | None => Panicked
    end
  else Panicked.

(** [getEntryFile(path)]: map the file and read its first slot. *)
Definition getEntryFile (d : Disk) (p : string)
  : outcome (option entryFile * option error) :=
  match lookup_name d p with
  | None => Ret (None, Some (ErrOther "open: no such file"))
  | Some h =>
      match entryFromBytes (disk_read d h 0 entrySize) with
      | (Some e, None) =>
          Ret (Some {| firstIndex := Index e; path := p; mmap := Some h |},
               None)
      | (_, _) => Ret (None, Some (ErrOther "cannot parse first entry in file"))
      end
  end.

(** [sort.Slice(files, less)] with [less] comparing first indices. *)
Fixpoint insert_sorted (f : entryFile) (fs : list entryFile) : list entryFile :=
  match fs with
  | [] => [f]
  | g :: fs' =>
      if firstIndex f <? firstIndex g then f :: fs
      else g :: insert_sorted f fs'
  end.

Definition sort_files (fs : list entryFile) : list entryFile :=
  foldr insert_sorted [] fs.

(** Modelled from the spec: [x.WalkPathFunc(dir, f)] of the repository's
    package x, which is not under src/: the paths of the files below [dir]
    that [f] accepts. *)
Definition WalkPathFunc (d : Disk) (dir : string) (f : string -> bool -> bool)
  : list string :=
  filter (fun p => String.prefix (dir +:+ "/") p && f p false = true)
         (fst <$> names d).

(** [getEntryFiles(dir)]. *)
Fixpoint getEntryFiles_loop (d : Disk) (paths : list string)
    (files : list entryFile) : outcome (list entryFile * option error) :=
  match paths with
  | [] => Ret (sort_files files, None)
  | p :: paths' =>
      '(f, err) ← getEntryFile d p;
      match f, err with
      | Some f, None => getEntryFiles_loop d paths' (files ++ [f])
      | _, Some e => Ret ([], Some e)
      | None, None => Panicked
      end
  end.

Definition getEntryFiles (d : Disk) (dir : string)
  : outcome (list entryFile * option error) :=
  let entryFiles :=
    WalkPathFunc d dir (fun p isDir =>
      if isDir then false else if HasSuffix p ".ent" then true else false) in
  getEntryFiles_loop d entryFiles [].

(** ** The entry log *)

(** [type entryLog struct]. *)
Record entryLog : Type := mkEntryLog {
  files : list entryFile;
  currentFid : Z;
  current : option Buffer;
  entryIndex : Z;
  lastIndex : Z;
  dir : string
}.

(** [l.files[i]] for an [int] index. *)
Definition files_at (l : entryLog) (i : Z) : outcome entryFile :=
  if i <? 0 then Panicked
  else match files l !! Z.to_nat i with
       | Some f => Ret f
       | None => Panicked
       end.

Definition len_files (l : entryLog) : Z := Z.of_nat (length (files l)).

(** [func (l *entryLog) lastFile()]. *)
Definition lastFile (l : entryLog) : outcome entryFile :=
  files_at l (len_files l - 1).

(** [func (l *entryLog) getEntry(n int)], the nth slot of the current
    file. *)
Definition entryLog_getEntry (d : Disk) (l : entryLog) (n : Z)
  : outcome (option entry * option error) :=
  if n >=? maxNumEntries
  then Ret (None, Some (ErrOther "there cannot be more than 30000 in a single file"))
  else
    let start := int64 (n * entrySize) in
    ef ← lastFile l;
    if slice_ok d (mmap ef) start (int64 (start + entrySize)) then
      match mmap ef with
      | Some h => Ret (entryFromBytes (disk_read d h start entrySize))
      | None => Panicked
      end
    else Panicked.

(** [func (l *entryLog) firstEmpty()]: the loop over the slots, [n] slots
    from [i] on being left to visit. *)
Fixpoint firstEmpty_loop (d : Disk) (l : entryLog) (n : nat) (i : Z)
  : outcome (Z * option error) :=
  match n with
  | O => Ret (maxNumEntries, None)
  | S n' =>
      '(e, err) ← entryLog_getEntry d l i;
      match e, err with
      | _, Some er => Ret (0, Some er)
      | Some e, None =>
          if Index e =? 0 then Ret (i, None)
          else firstEmpty_loop d l n' (i + 1)
      | None, None => Panicked
      end
  end.

Definition firstEmpty (d : Disk) (l : entryLog) : outcome (Z * option error) :=
  firstEmpty_loop d l (Z.to_nat maxNumEntries) 0.

(** [func (l *entryLog) zeroOut(from int)]. *)
Definition zeroOut (l : entryLog) (from : Z) (d : Disk)
  : outcome (option error * Disk) :=
  if from >=? maxNumEntries then Ret (None, d)
  else
    match current l with
    | None => Ret (Some (ErrOther "uninitialized buffer"), d)
    | Some cur =>
        let bufSize := entrySize * maxNumEntries in
        match Buffer_First d cur (entrySize * maxNumEntries) with
        | Some er => Ret (Some er, d)
        | None =>
            let fromByte := int64 (from * entrySize) in
            if (bufSize - fromByte <? 0) || (fromByte <? 0) then Panicked
            else Ret (None, disk_fill d (bfile cur) fromByte (bufSize - fromByte))
        end
    end.

(** [func (l *entryLog) rotate(firstIndex uint64)]. *)
Definition rotate (l : entryLog) (firstIndex : Z) (d : Disk)
  : outcome (entryLog * option error * Disk) :=
  let path := Join (dir l) (Sprintf_d firstIndex) in
  let '(buf, d) := NewMmapFile entryFileSize entryFileMaxSize entryFileOffset path d in
  let l := {| files := files l ++ [{| firstIndex := firstIndex; path := path;
                                      mmap := None |}];
              currentFid := currentFid l;
              current := Some buf;
              entryIndex := 0;
              lastIndex := lastIndex l;
              dir := dir l |} in
  '(err, d) ← zeroOut l (entryIndex l) d;
  Ret (l, err, d).

(** [func (l *entryLog) numEntries()]. *)
Definition numEntries (l : entryLog) : Z :=
  if len_files l =? 0 then 0
  else
    let total := if len_files l >=? 1 then (len_files l - 1) * maxNumEntries else 0 in
    total + entryIndex l.

(** [func (l *entryLog) FirstIndex()]; [None] is the nil receiver. *)
Definition entryLog_FirstIndex (l : option entryLog) : Z :=
  match l with
  | None => 0
  | Some l =>
      match files l with
      | [] => 0
      | f :: _ => firstIndex f
      end
  end.

(** [func (l *entryLog) LastIndex()]. *)
Definition entryLog_LastIndex (l : entryLog) : Z := lastIndex l.

(** [func (l *entryLog) DiscardFiles(snapshotIndex uint64)]. *)
Definition DiscardFiles (l : entryLog) (snapshotIndex : Z) (d : Disk)
  : entryLog * option error * Disk :=
  (l, None, d).

(** [sort.Search(n, f)]: binary search for the least index in [0, n) at
    which [f] holds, [n] when there is none; [fuel] bounds the halvings. *)
Fixpoint Search_loop (fuel : nat) (f : Z -> bool) (i j : Z) : Z :=
  match fuel with
  | O => i
  | S fuel' =>
      if i <? j then
        let h := Z.shiftr (u64 (i + j)) 1 in
        if negb (f h) then Search_loop fuel' f (h + 1) j
        else Search_loop fuel' f i h
      else i
  end.

Definition Search (n : Z) (f : Z -> bool) : Z :=
  Search_loop (Z.to_nat n) f 0 n.

(** The closure [func(i int) bool { return l.files[i].firstIndex >= idx }];
    [sort.Search] only calls it inside [0, len(l.files)). *)
Definition firstIndex_ge (l : entryLog) (idx : Z) (i : Z) : bool :=
  match files l !! Z.to_nat i with
  | Some f => firstIndex f >=? idx
  | None => false
  end.

(** [func (l *entryLog) Term(idx uint64)]. *)
Definition entryLog_Term (d : Disk) (l : entryLog) (idx : Z)
  : outcome (Z * option error) :=
  let fileIdx := Search (len_files l) (firstIndex_ge l idx) in
  f ← files_at l fileIdx;
  if firstIndex f =? idx then
    '(e, err) ← entryFile_getEntry d f 0;
    match e, err with
    | _, Some er => Ret (0, Some er)
    | Some e, None => Ret (Term e, None)
    | None, None => Panicked
    end
  else
    ef ← files_at l (fileIdx - 1);
    let diff := u64 (idx - firstIndex ef) in
    '(e, err) ← entryFile_getEntry d ef (int64 diff);
    match e, err with
    | _, Some er => Ret (0, None)
    | Some e, None => Ret (Term e, None)
    | None, None => Panicked
    end.
(** ** Raft records (package raftpb) *)

(** A Go byte slice held by a Raft entry: nil, bytes of its own, or a view
    [m[lo:hi]] of a mapping, which aliases the file. *)
Inductive data : Type :=
  | DNil
  | DBytes (bs : list Z)
  | DView (h : nat) (lo hi : Z).

Definition data_len (dt : data) : Z :=
  match dt with
  | DNil => 0
  | DBytes bs => Z.of_nat (length bs)
  | DView _ lo hi => hi - lo
  end.

Definition data_bytes (d : Disk) (dt : data) : list Z :=
  match dt with
  | DNil => []
  | DBytes bs => bs
  | DView h lo hi => disk_read d h lo (hi - lo)
  end.

(** [raftpb.Entry]. *)
Record raftEntry : Type := mkRaftEntry {
  reTerm : Z;
  reIndex : Z;
  reType : Z;
  reData : data
}.

(** [sovRaft(x)], the length of the varint of [x]:
    [(bits.Len64(x|1) + 6) / 7]. *)
Definition sovRaft (x : Z) : Z := (Z.log2 (Z.lor x 1) + 1 + 6) / 7.

(** [func (m *Entry) Size()] as generated for raftpb. *)
Definition raftEntry_Size (m : raftEntry) : Z :=
  1 + sovRaft (u64 (reType m)) + (1 + sovRaft (reTerm m)) +
  (1 + sovRaft (reIndex m)) +
  match reData m with
  | DNil => 0
  | dt => 1 + data_len dt + sovRaft (data_len dt)
  end.

(** [raftpb.HardState] and [raft.IsEmptyHardState]. *)
Record HardState : Type := mkHardState {
  hsTerm : Z;
  hsVote : Z;
  hsCommit : Z
}.

Definition emptyHardState : HardState :=
  {| hsTerm := 0; hsVote := 0; hsCommit := 0 |}.

Definition IsEmptyHardState (st : HardState) : bool :=
  (hsTerm st =? 0) && (hsVote st =? 0) && (hsCommit st =? 0).

(** [raftpb.Snapshot] with its metadata flattened; the configuration
    state is the list of its node identifiers. [raft.IsEmptySnap]. *)
Record Snapshot : Type := mkSnapshot {
  snapData : list Z;
  snapConfState : list Z;
  snapIndex : Z;
  snapTerm : Z
}.

Definition emptySnapshot : Snapshot :=
  {| snapData := []; snapConfState := []; snapIndex := 0; snapTerm := 0 |}.

Definition IsEmptySnap (sp : Snapshot) : bool := snapIndex sp =? 0.

(** ** Reading a range from the entry log *)

(** The slice [file.mmap[lo:hi]] as entry data. *)
Definition mmap_slice (d : Disk) (ef : entryFile) (lo hi : Z) : outcome data :=
  if slice_ok d (mmap ef) lo hi then
    match mmap ef with
    | Some h => Ret (DView h lo hi)
    | None => Ret DNil
    end
  else Panicked.

(** The body shared by the two places of [allEntries] that build an entry
    from slot [diff] of [file]: the data runs to [dataEnd], or to the next
    slot's payload offset when [diff] is not zero. The [error] of a failed
    slot read is handed back. *)
Definition read_entry (d : Disk) (file : entryFile) (diff dataEnd : Z)
  : outcome (option raftEntry * option error) :=
  '(e, err) ← entryFile_getEntry d file (int64 diff);
  match e, err with
  | _, Some er => Ret (None, Some er)
  | None, None => Panicked
  | Some e, None =>
      dt ← mmap_slice d file (DataOffset e) dataEnd;
      let re := {| reTerm := Term e; reIndex := Index e; reType := Type_ e;
                   reData := dt |} in
      if diff =? 0 then Ret (Some re, None)
      else
        '(ne, err) ← entryFile_getEntry d file (int64 (u64 (diff + 1)));
        match ne, err with
        | _, Some er => Ret (None, Some er)
        | None, None => Panicked
        | Some ne, None =>
            dt ← mmap_slice d file (DataOffset e) (DataOffset ne);
            Ret (Some {| reTerm := Term e; reIndex := Index e;
                         reType := Type_ e; reData := dt |}, None)
        end
  end.

(** The [for lo < hi && fileID < len(l.files)] loop of [allEntries];
    [None] when [fuel] runs out. *)
Fixpoint allEntries_loop (fuel : nat) (d : Disk) (l : entryLog)
    (hi maxSize lo fileID sz : Z) (es : list raftEntry)
  : option (outcome (list raftEntry * option error)) :=
  match fuel with
  | O => None
  | S fuel' =>
      if (lo <? hi) && (fileID <? len_files l) then
        match files_at l fileID with
        | Panicked => Some Panicked
        | Ret file =>
            if u64 (lo - firstIndex file) =? maxNumEntries then
              allEntries_loop fuel' d l hi maxSize lo (fileID + 1) sz es
            else
              let diff := u64 (lo - firstIndex file) in
              if diff >? lastIndex l then Some (Ret (es, None))
              else
                match current l with
                | None => Some Panicked
                | Some cur =>
                    match read_entry d file diff
                            (Buffer_Len cur - entryFileOffset) with
                    | Panicked => Some Panicked
                    | Ret (_, Some er) => Some (Ret (es, Some er))
                    | Ret (None, None) => Some Panicked
                    | Ret (Some rEntry, None) =>
                        let sz := u64 (sz + raftEntry_Size rEntry) in
                        if sz >? maxSize then Some (Ret (es, None))
                        else allEntries_loop fuel' d l hi maxSize
                               (u64 (lo + 1)) fileID sz (es ++ [rEntry])
                    end
                end
        end
      else Some (Ret (es, None))
  end.

(** Every turn of the loop that goes on advances [lo] towards [hi] or
    [fileID] towards [len(l.files)]. *)
Definition allEntries_fuel (l : entryLog) (lo hi fileID : Z) : nat :=
  S (Z.to_nat (hi - lo) + Z.to_nat (len_files l - fileID)).

(** [func (l *entryLog) allEntries(lo, hi, maxSize uint64)]. *)
Definition entryLog_allEntries (d : Disk) (l : entryLog) (lo hi maxSize : Z)
  : outcome (list raftEntry * option error) :=
  if lo <? entryLog_FirstIndex (Some l)
  then Ret ([], Some (ErrOther "low less then firstIndex"))
  else
    let fileID := Search (len_files l) (firstIndex_ge l lo) in
    file ← files_at l fileID;
    '(es, err, lo, fileID, sz) ←
      (if negb (firstIndex file =? lo) then
         _ ← AssertTrue (negb (fileID =? 0));
         let fileID := fileID - 1 in
         file ← files_at l fileID;
         let diff := u64 (lo - firstIndex file) in
         '(e, err) ← entryFile_getEntry d file (int64 diff);
         match e, err with
         | _, Some er => Ret ([], Some er, lo, fileID, 0)
         | None, None => Panicked
         | Some e, None =>
             _ ← AssertTrue (Index e =? lo);
             dt ← mmap_slice d file (DataOffset e)
                    (match mmap file with
                     | Some h => file_size d h
                     | None => 0
                     end);
             let re := {| reTerm := Term e; reIndex := Index e;
                          reType := Type_ e; reData := dt |} in
             if diff =? 0 then
               Ret ([re], None, u64 (lo + 1), fileID, raftEntry_Size re)
             else
               '(ne, err) ← entryFile_getEntry d file (int64 (u64 (diff + 1)));
               match ne, err with
               | _, Some er => Ret ([], Some er, lo, fileID, 0)
               | None, None => Panicked
               | Some ne, None =>
                   dt ← mmap_slice d file (DataOffset e) (DataOffset ne);
                   let re := {| reTerm := Term e; reIndex := Index e;
                                reType := Type_ e; reData := dt |} in
                   Ret ([re], None, u64 (lo + 1), fileID, raftEntry_Size re)
               end
         end
       else Ret ([], None, lo, fileID, 0));
    match err with
    | Some er => Ret (es, Some er)
    | None =>
        if sz >? maxSize then Ret (es, None)
        else
          match allEntries_loop (allEntries_fuel l lo hi fileID) d l hi maxSize
                  lo fileID sz es with
          | Some r => r
          | None => Panicked
          end
    end.

(** ** Appending *)

(** One turn of the [for _, re := range entries] loop of [AddEntries]. The
    slot is copied to [l.current.ReadAt(entrySize, l.entryIndex)], the
    offset handed over being the slot number as the source has it. *)
Definition AddEntries_step (l : entryLog) (re : raftEntry) (d : Disk)
  : outcome (entryLog * option error * Disk) :=
  '(l, err, d) ←
    (if entryIndex l >=? maxNumEntries then rotate l (reIndex re) d
     else Ret (l, None, d));
  match err with
  | Some er => Ret (l, Some er, d)
  | None =>
      match current l with
      | None => Panicked
      | Some cur =>
          let bs := data_bytes d (reData re) in
          '(dataOffset, cur, d) ←
            (if Z.of_nat (length bs) >? 0 then
               '(offset, cur) ←
                 Buffer_SliceAllocateOffset d cur (Z.of_nat (length bs));
               Ret (u64 offset, cur, disk_write d (bfile cur) offset bs)
             else Ret (0, cur, d));
          let e := {| Term := reTerm re; Index := reIndex re;
                      DataOffset := dataOffset; Type_ := reType re |} in
          let entryBuf := Bytes (Some e) in
          let l := {| files := files l; currentFid := currentFid l;
                      current := Some cur; entryIndex := entryIndex l;
                      lastIndex := lastIndex l; dir := dir l |} in
          match Buffer_ReadAt d cur entrySize (entryIndex l) with
          | (_, Some er) => Ret (l, Some er, d)
          | (destBuf, None) =>
              let d := disk_write d (bfile cur) destBuf entryBuf in
              Ret ({| files := files l; currentFid := currentFid l;
                      current := current l;
                      entryIndex := entryIndex l + 1;
                      lastIndex := Index e; dir := dir l |}, None, d)
          end
      end
  end.

(** [func (l *entryLog) AddEntries(entries []raftpb.Entry)]. *)
Fixpoint entryLog_AddEntries (l : entryLog) (entries : list raftEntry)
    (d : Disk) : outcome (entryLog * option error * Disk) :=
  match entries with
  | [] => Ret (l, None, d)
  | re :: entries' =>
      '(l, err, d) ← AddEntries_step l re d;
      match err with
      | Some er => Ret (l, Some er, d)
      | None => entryLog_AddEntries l entries' d
      end
  end.

(** ** Opening *)

(** [strings.Split(".ent", path)[0]]. *)
Definition Split_first (s sep : string) : outcome string :=
  match Split s sep with
  | x :: _ => Ret x
  | [] => Panicked
  end.

(** [func openEntryLog(dir string)]. In the branch for existing files
    the local [path] still holds the empty string when it is handed to
    [strings.Split] as the separator. *)
Definition openEntryLog (dirName : string) (d : Disk)
  : outcome (option entryLog * option error * Disk) :=
  '(fls, err) ← getEntryFiles d dirName;
  match err with
  | Some er => Ret (None, Some er, d)
  | None =>
      let e := {| files := fls; currentFid := 0; current := None;
                  entryIndex := 0; lastIndex := 0; dir := dirName |} in
      let pth := EmptyString in
      '(pth, fullPath, e, err) ←
        (if len_files e =? 0 then
           let pth := Sprintf_d 1 +:+ ".ent" in
           Ret (pth, Join dirName pth,
                {| files := fls; currentFid := 1; current := None;
                   entryIndex := 0; lastIndex := 0; dir := dirName |}, None)
         else
           lf ← lastFile e;
           let fullPath := Join dirName (path lf) in
           s ← Split_first ".ent" pth;
           match ParseUint s 32 with
           | (_, Some er) => Ret (pth, fullPath, e, Some er)
           | (fid, None) =>
               Ret (pth, fullPath,
                    {| files := fls; currentFid := fid; current := None;
                       entryIndex := 0; lastIndex := 0; dir := dirName |},
                    None)
           end);
      match err with
      | Some er => Ret (None, Some er, d)
      | None =>
          let '(buf, d) :=
            NewMmapFile entryFileSize entryFileMaxSize entryFileOffset fullPath d in
          let e := {| files := files e; currentFid := currentFid e;
                      current := Some buf; entryIndex := 0;
                      lastIndex := 0; dir := dirName |} in
          '(e, err) ←
            (if negb (Z.of_nat (length fls) =? 0) then
               '(i, err) ← firstEmpty d e;
               match err with
               | Some er => Ret (e, Some er)
               | None =>
                   Ret ({| files := files e; currentFid := currentFid e;
                           current := current e; entryIndex := i;
                           lastIndex := 0; dir := dirName |}, None)
               end
             else
               Ret ({| files := files e ++
                                [{| firstIndex := 0; path := pth;
                                    mmap := Some (bfile buf) |}];
                       currentFid := currentFid e; current := current e;
                       entryIndex := 0; lastIndex := 0; dir := dirName |},
                    None));
          match err with
          | Some er => Ret (None, Some er, d)
          | None =>
              '(err, d) ← zeroOut e (entryIndex e) d;
              match err with
              | Some er => Ret (None, Some er, d)
              | None => Ret (Some e, None, d)
              end
          end
      end
  end.
(** ** The meta file *)

(** Modelled from the spec: the length-prefixed records of the meta page
    ([Buffer.WriteSliceAt] and [Buffer.Slice] of the ristretto library,
    which is not under src/): a 4-byte little-endian length followed by
    the payload, the length being written after the payload. A write that
    leaves the mapping fails; a read outside the mapping gives the nil
    slice, [None]. *)
Definition le32 (n : Z) : list Z :=
  [ byte_of n; byte_of (Z.shiftr n 8); byte_of (Z.shiftr n 16);
    byte_of (Z.shiftr n 24) ].

Definition unle32 (b : list Z) : Z :=
  nth 0 b 0 + nth 1 b 0 * 2 ^ 8 + nth 2 b 0 * 2 ^ 16 + nth 3 b 0 * 2 ^ 24.

Definition Buffer_WriteSliceAt (d : Disk) (b : Buffer) (bs : list Z)
    (offset : Z) : option error * Disk :=
  let n := Z.of_nat (length bs) in
  if (offset <? 0) || (file_size d (bfile b) <? offset + 4 + n)
  then (Some (ErrOther "out of space"), d)
  else
    let d := disk_write d (bfile b) (offset + 4) bs in
    (None, disk_write d (bfile b) offset (le32 n)).

Definition Buffer_Slice (d : Disk) (b : Buffer) (offset : Z)
  : option (list Z) :=
  if (offset <? 0) || (file_size d (bfile b) <? offset + 4) then None
  else
    let n := unle32 (disk_read d (bfile b) offset 4) in
    if file_size d (bfile b) <? offset + 4 + n then None
    else Some (disk_read d (bfile b) (offset + 4) n).

(** Modelled from the spec: the serialization of the hard state and of the
    snapshot is fixed by the Raft collaborator (generated code of raftpb,
    not under src/) and opaque to this layer. The stand-in used here
    writes every integer as a big-endian [uint64]; unmarshalling fails on
    input that is too short. *)
Definition HardState_Marshal (hs : HardState) : list Z :=
  PutUint64 (hsTerm hs) ++ PutUint64 (hsVote hs) ++ PutUint64 (hsCommit hs).

Definition HardState_Unmarshal (b : list Z) : option HardState :=
  if Z.of_nat (length b) <? 24 then None
  else Some {| hsTerm := Uint64 b; hsVote := Uint64 (drop 8 b);
               hsCommit := Uint64 (drop 16 b) |}.

Fixpoint take_u64s (n : nat) (b : list Z) : list Z :=
  match n with
  | O => []
  | S n' => Uint64 b :: take_u64s n' (drop 8 b)
  end.

Definition Snapshot_Marshal (s : Snapshot) : list Z :=
  PutUint64 (snapIndex s) ++ PutUint64 (snapTerm s) ++
  PutUint64 (Z.of_nat (length (snapConfState s))) ++
  concat (PutUint64 <$> snapConfState s) ++ snapData s.

Definition Snapshot_Unmarshal (b : list Z) : option Snapshot :=
  if Z.of_nat (length b) <? 24 then None
  else
    let n := Uint64 (drop 16 b) in
    if Z.of_nat (length b) <? 24 + 8 * n then None
    else Some {| snapData := drop (Z.to_nat (24 + 8 * n)) b;
                 snapConfState := take_u64s (Z.to_nat n) (drop 24 b);
                 snapIndex := Uint64 b;
                 snapTerm := Uint64 (drop 8 b) |}.

Definition wf_HardState (hs : HardState) : Prop :=
  is_u64 (hsTerm hs) /\ is_u64 (hsVote hs) /\ is_u64 (hsCommit hs).

(** [type metaFile struct]. *)
Record metaFile : Type := mkMetaFile {
  buf : Buffer
}.

(** [func newMetaFile(dir string)]. *)
Definition newMetaFile (dirName : string) (d : Disk) : metaFile * Disk :=
  let '(b, d) :=
    NewMmapFile metaFileSize metaFileSize 0 (Join dirName "wal.meta") d in
  ({| buf := b |}, d).

(** [func (m *metaFile) StoreHardState(hs *raftpb.HardState)]; [None] is
    the nil pointer. *)
Definition metaFile_StoreHardState (m : metaFile) (hs : option HardState)
    (d : Disk) : option error * Disk :=
  match hs with
  | None => (None, d)
  | Some hs =>
      if IsEmptyHardState hs then (None, d)
      else Buffer_WriteSliceAt d (buf m) (HardState_Marshal hs) hardStateOffset
  end.

(** [func (m *metaFile) HardState()]. *)
Definition metaFile_HardState (m : metaFile) (d : Disk)
  : HardState * option error :=
  match Buffer_Slice d (buf m) hardStateOffset with
  | None => (emptyHardState, Some (ErrOther "cannot read hard state"))
  | Some val =>
      if Z.of_nat (length val) =? 0 then (emptyHardState, None)
      else
        match HardState_Unmarshal val with
        | None => (emptyHardState, Some (ErrOther "cannot parse hardState"))
        | Some hs => (hs, None)
        end
  end.

(** [func (m *metaFile) StoreSnapshot(snap *raftpb.Snapshot)]. *)
Definition metaFile_StoreSnapshot (m : metaFile) (snap : option Snapshot)
    (d : Disk) : option error * Disk :=
  match snap with
  | None => (None, d)
  | Some s =>
      if IsEmptySnap s then (None, d)
      else Buffer_WriteSliceAt d (buf m) (Snapshot_Marshal s) snapshotOffset
  end.

(** [func (m *metaFile) Snapshot()]. *)
Definition metaFile_Snapshot (m : metaFile) (d : Disk)
  : Snapshot * option error :=
  match Buffer_Slice d (buf m) snapshotOffset with
  | None => (emptySnapshot, Some (ErrOther "cannot read snapshot"))
  | Some val =>
      if Z.of_nat (length val) =? 0 then (emptySnapshot, None)
      else
        match Snapshot_Unmarshal val with
        | None => (emptySnapshot, Some (ErrOther "cannot parse snapshot"))
        | Some s => (s, None)
        end
  end.

(** ** The store *)

(** The view of the embedded key-value store (badger, an external
    collaborator) that the store uses: the entries under the store's key
    prefix, in key order. A key [EntryKey(idx)] is carried as [idx]: under
    one prefix the byte order of the keys is the order of the indices. *)
Definition DB : Type := list (Z * raftEntry).

Fixpoint db_get (t : DB) (k : Z) : option raftEntry :=
  match t with
  | [] => None
  | (k', v) :: t' => if k' =? k then Some v else db_get t' k
  end.

Fixpoint db_set (t : DB) (k : Z) (v : raftEntry) : DB :=
  match t with
  | [] => [(k, v)]
  | (k', v') :: t' =>
      if k <? k' then (k, v) :: t
      else if k =? k' then (k, v) :: t'
      else (k', v') :: db_set t' k v
  end.

(** [itr.Seek(start)]: the items from the first key not below [start]. *)
Fixpoint db_seek (t : DB) (start : Z) : DB :=
  match t with
  | [] => []
  | (k, v) :: t' => if k <? start then db_seek t' start else t
  end.

(** A write batch: the pending sets, in the order they were made. *)
Definition WriteBatch : Type := list (Z * raftEntry).

(** What the pending sets of a batch make of the store once they are
    committed. *)
Definition batch_apply (t : DB) (b : WriteBatch) : DB :=
  foldl (fun t kv => db_set t (fst kv) (snd kv)) t b.

(** [batch.Flush()] of a batch made by [NewWriteBatchAt(commitTs)], which
    commits at [commitTs]. With nothing pending it returns at once and the
    store is as it was. With a write pending, the commit at timestamp 0 is
    refused by the key-value store before it is sent, and the refusal is
    handed to the batch's callback under the lock that [Flush] holds: the
    call never returns, [None]. At any other timestamp the pending writes
    are applied. *)
Definition batch_Flush (commitTs : Z) (t : DB) (b : WriteBatch) : option DB :=
  match b with
  | [] => Some t
  | _ :: _ => if commitTs =? 0 then None else Some (batch_apply t b)
  end.

(** The outcomes of a call that flushes a write batch: those of any call,
    and [Blocked] for the call that never returns. *)
Inductive result (A : Type) : Type :=
  | Done (o : outcome A)
  | Blocked.
Arguments Done {A} o.
Arguments Blocked {A}.

Coercion Done : outcome >-> result.

(** The values held by the [sync.Map] cache. *)
Inductive cacheVal : Type :=
  | CSnapshot (s : Snapshot)
  | CUint64 (v : Z).

Definition snapshotKey : string := "snapshot".
Definition firstKey : string := "first".
Definition lastKey : string := "last".

(** [type indexRange struct]. *)
Record indexRange : Type := mkIndexRange {
  from : Z;
  until : Z
}.

(** [type DiskStorage struct]; a [None] field is a nil pointer. The trace
    log and the closer are not modelled; the channel is the queue of the
    ranges sent and not yet received. *)
Record DiskStorage : Type := mkDiskStorage {
  db : option DB;
  wdir : string;
  commitTs : Z;
  wid : Z;
  wgid : Z;
  meta : option metaFile;
  entries : option entryLog;
  cache : gmap string cacheVal;
  indexRangeChan : list indexRange
}.

Definition set_entries (w : DiskStorage) (l : entryLog) : DiskStorage :=
  {| db := db w; wdir := wdir w; commitTs := commitTs w; wid := wid w;
     wgid := wgid w; meta := meta w; entries := Some l; cache := cache w;
     indexRangeChan := indexRangeChan w |}.

Definition set_cache (w : DiskStorage) (c : gmap string cacheVal)
  : DiskStorage :=
  {| db := db w; wdir := wdir w; commitTs := commitTs w; wid := wid w;
     wgid := wgid w; meta := meta w; entries := entries w; cache := c;
     indexRangeChan := indexRangeChan w |}.

Definition set_db (w : DiskStorage) (t : DB) : DiskStorage :=
  {| db := Some t; wdir := wdir w; commitTs := commitTs w; wid := wid w;
     wgid := wgid w; meta := meta w; entries := entries w; cache := cache w;
     indexRangeChan := indexRangeChan w |}.

Definition set_commitTs (w : DiskStorage) (ts : Z) : DiskStorage :=
  {| db := db w; wdir := wdir w; commitTs := ts; wid := wid w;
     wgid := wgid w; meta := meta w; entries := entries w; cache := cache w;
     indexRangeChan := indexRangeChan w |}.

(** [func (w *DiskStorage) Term(i uint64)]. *)
Definition DiskStorage_Term (d : Disk) (w : DiskStorage) (i : Z)
  : outcome (Z * option error) :=
  match entries w with
  | None => Panicked
  | Some l => entryLog_Term d l i
  end.

(** The [processSingleRange] closure of [processIndexRange]: nothing is
    deleted for a range. *)
Definition processSingleRange (st : DiskStorage * Disk) (r : indexRange)
  : DiskStorage * Disk :=
  if from r =? until r then st else st.

(** [func (w *DiskStorage) processIndexRange()] once the closer has been
    signalled: the channel is closed and the ranges left in it are
    processed in order. *)
Definition processIndexRange (w : DiskStorage) (d : Disk)
  : DiskStorage * Disk :=
  foldl processSingleRange
    ({| db := db w; wdir := wdir w; commitTs := commitTs w; wid := wid w;
        wgid := wgid w; meta := meta w; entries := entries w;
        cache := cache w; indexRangeChan := [] |}, d)
    (indexRangeChan w).

(** [func (w *DiskStorage) LastIndex()]. *)
Definition DiskStorage_LastIndex (w : DiskStorage) : outcome (Z * option error) :=
  match entries w with
  | None => Panicked
  | Some l => Ret (entryLog_LastIndex l, None)
  end.

(** [func (w *DiskStorage) Snapshot()]. *)
Definition DiskStorage_Snapshot (d : Disk) (w : DiskStorage)
  : outcome (Snapshot * option error) :=
  match cache w !! snapshotKey with
  | Some (CSnapshot snap) =>
      if negb (IsEmptySnap snap) then Ret (snap, None)
      else match meta w with
           | None => Panicked
           | Some m => Ret (metaFile_Snapshot m d)
           end
  | _ =>
      match meta w with
      | None => Panicked
      | Some m => Ret (metaFile_Snapshot m d)
      end
  end.

(** [func (w *DiskStorage) FirstIndex()]. *)
Definition DiskStorage_FirstIndex (d : Disk) (w : DiskStorage)
  : outcome (Z * option error) :=
  '(snap, err) ← DiskStorage_Snapshot d w;
  match err with
  | None =>
      if negb (IsEmptySnap snap) then Ret (u64 (snapIndex snap + 1), None)
      else Ret (entryLog_FirstIndex (entries w), None)
  | Some _ => Ret (entryLog_FirstIndex (entries w), None)
  end.

(** [func (w *DiskStorage) setSnapshot(batch, s)]. *)
Definition setSnapshot (w : DiskStorage) (batch : WriteBatch)
    (s : option Snapshot) (d : Disk)
  : outcome (DiskStorage * WriteBatch * option error * Disk) :=
  match s with
  | None => Ret (w, batch, None, d)
  | Some s =>
      if IsEmptySnap s then Ret (w, batch, None, d)
      else
        match meta w with
        | None => Panicked
        | Some m =>
            match metaFile_StoreSnapshot m (Some s) d with
            | (Some er, d) => Ret (w, batch, Some er, d)
            | (None, d) =>
                let e := {| reTerm := snapTerm s; reIndex := snapIndex s;
                            reType := 0; reData := DNil |} in
                let batch := batch ++ [(reIndex e, e)] in
                c ← match cache w !! lastKey with
                    | Some (CUint64 le) =>
                        if le <? reIndex e
                        then Ret (<[lastKey := CUint64 (reIndex e)]> (cache w))
                        else Ret (cache w)
                    | Some (CSnapshot _) => Panicked
                    | None => Ret (cache w)
                    end;
                Ret (set_cache w (<[snapshotKey := CSnapshot s]> c), batch,
                     None, d)
            end
        end
  end.

(** [func (w *DiskStorage) HardState()]. *)
Definition DiskStorage_HardState (d : Disk) (w : DiskStorage)
  : HardState * option error :=
  match meta w with
  | None => (emptyHardState, Some (ErrOther "uninitialized meta file"))
  | Some m => metaFile_HardState m d
  end.

(** The iteration of [DiskStorage.allEntries] from [itr.Seek(start)] on. *)
Fixpoint DiskStorage_allEntries_loop (items : DB) (lo hi maxSize : Z)
    (size lastIdx : Z) (first : bool) (es : list raftEntry)
  : outcome (list raftEntry) :=
  match items with
  | [] => Ret es
  | (k, e) :: items' =>
      _ ← AssertTrue ((reIndex e >? lastIdx) && (reIndex e >=? lo));
      if k >=? hi then Ret es
      else
        let size := u64 (size + raftEntry_Size e) in
        if (size >? maxSize) && negb first then Ret es
        else DiskStorage_allEntries_loop items' lo hi maxSize size (reIndex e)
               false (es ++ [e])
  end.

(** [func (w *DiskStorage) allEntries(lo, hi, maxSize uint64)]. *)
Definition DiskStorage_allEntries (w : DiskStorage) (lo hi maxSize : Z)
  : outcome (list raftEntry * option error) :=
  match db w with
  | None => Panicked
  | Some t =>
      if u64 (hi - lo) =? 1 then
        match db_get t lo with
        | None => Ret ([], Some ErrKeyNotFound)
        | Some e => Ret ([e], None)
        end
      else
        es ← DiskStorage_allEntries_loop (db_seek t lo) lo hi maxSize 0 0
               true [];
        Ret (es, None)
  end.

(** [func (w *DiskStorage) Entries(lo, hi, maxSize uint64)]. *)
Definition DiskStorage_Entries (w : DiskStorage) (lo hi maxSize : Z)
  : outcome (list raftEntry * option error) :=
  let first := entryLog_FirstIndex (entries w) in
  if lo <? first then Ret ([], Some ErrCompacted)
  else
    match entries w with
    | None => Panicked
    | Some l =>
        let last := entryLog_LastIndex l in
        if hi >? u64 (last + 1) then Ret ([], Some ErrUnavailable)
        else DiskStorage_allEntries w lo hi maxSize
    end.

(** [w.entries.AddEntries(es)] on the entry log pointer of the store: on
    a nil pointer the loop over an empty [es] touches nothing, any other
    call dereferences it. *)
Definition store_AddEntries (w : DiskStorage) (es : list raftEntry) (d : Disk)
  : outcome (DiskStorage * option error * Disk) :=
  match entries w, es with
  | None, [] => Ret (w, None, d)
  | None, _ :: _ => Panicked
  | Some l, _ =>
      '(l, err, d) ← entryLog_AddEntries l es d;
      Ret (set_entries w l, err, d)
  end.

(** [w.meta.StoreHardState(h)] on the meta file pointer of the store: a
    nil or empty hard state returns before the pointer is used. *)
Definition store_StoreHardState (w : DiskStorage) (h : option HardState)
    (d : Disk) : outcome (option error * Disk) :=
  match meta w with
  | Some m => Ret (metaFile_StoreHardState m h d)
  | None =>
      match h with
      | None => Ret (None, d)
      | Some hs => if IsEmptyHardState hs then Ret (None, d) else Panicked
      end
  end.

(** [func (w *DiskStorage) Save(h, es, snap)]: the entries, the hard
    state and the snapshot in that order, each error returned at once,
    then the flush of the batch the snapshot may have written to. *)
Definition Save (w : DiskStorage) (h : option HardState)
    (es : list raftEntry) (snap : option Snapshot) (d : Disk)
  : result (DiskStorage * option error * Disk) :=
  match db w with
  | None => Done Panicked
  | Some t =>
      let batch : WriteBatch := [] in
      match
        ('(w, err, d) ← store_AddEntries w es d;
         match err with
         | Some er => Ret (w, batch, Some er, d)
         | None =>
             '(err, d) ← store_StoreHardState w h d;
             match err with
             | Some er => Ret (w, batch, Some er, d)
             | None => setSnapshot w batch snap d
             end
         end)
      with
      | Panicked => Done Panicked
      | Ret (w, _, Some er, d) => Done (Ret (w, Some er, d))
      | Ret (w, batch, None, d) =>
          match batch_Flush (commitTs w) t batch with
          | Some t' => Done (Ret (set_db w t', None, d))
          | None => Blocked
          end
      end
  end.

(** Modelled from the spec: [Buffer.WriteAt(b, offset)], the bytes [b]
    written at byte offset [offset] ([write_at(offset, bytes)]). *)
Definition Buffer_WriteAt (d : Disk) (b : Buffer) (bs : list Z) (offset : Z)
  : option error * Disk :=
  if (offset <? 0) || (file_size d (bfile b) <? offset + Z.of_nat (length bs))
  then (Some (ErrOther "write out of range"), d)
  else (None, disk_write d (bfile b) offset bs).

(** [func (m *metaFile) RaftId()]. *)
Definition metaFile_RaftId (m : metaFile) (d : Disk) : Z * option error :=
  match Buffer_ReadAt d (buf m) 8 raftIdOffset with
  | (_, Some er) => (0, Some er)
  | (off, None) => (Uint64 (disk_read d (bfile (buf m)) off 8), None)
  end.

(** [func (m *metaFile) StoreRaftId(id uint64)]. *)
Definition metaFile_StoreRaftId (m : metaFile) (id0 : Z) (d : Disk)
  : option error * Disk :=
  Buffer_WriteAt d (buf m) (PutUint64 id0) raftIdOffset.

(** [func Init(dir string, id uint64, gid uint32)]. A failed [x.Check]
    ends the process and is carried as an abort. The [db] field is not
    assigned; the discard worker started here is [processIndexRange]. *)
Definition Init (dirName : string) (id0 gid0 : Z) (d : Disk)
  : outcome (DiskStorage * Disk) :=
  let '(m, d) := newMetaFile dirName d in
  '(l, err, d) ← openEntryLog dirName d;
  match l, err with
  | Some l, None =>
      let w := {| db := None; wdir := dirName; commitTs := 0; wid := id0;
                  wgid := gid0; meta := Some m; entries := Some l;
                  cache := ∅; indexRangeChan := [] |} in
      d ← (let '(prev, err) := metaFile_RaftId m d in
           if bool_decide (err ≠ None) || negb (prev =? id0) || (prev =? 0)
           then match metaFile_StoreRaftId m id0 d with
                | (Some _, _) => Panicked
                | (None, d) => Ret d
                end
           else Ret d);
      match metaFile_Snapshot m d with
      | (_, Some _) => Panicked
      | (snap, None) =>
          if negb (IsEmptySnap snap) then Ret (w, d)
          else
            '(first, err) ← DiskStorage_FirstIndex d w;
            match err with
            | Some _ => Panicked
            | None =>
                Ret ({| db := db w; wdir := wdir w; commitTs := commitTs w;
                        wid := wid w; wgid := wgid w; meta := meta w;
                        entries := entries w; cache := cache w;
                        indexRangeChan :=
                          indexRangeChan w ++
                          [{| from := 0; until := u64 (first - 1) |}] |}, d)
            end
      end
  | _, _ => Panicked
  end.
(** ** Runs of the log and of the store

    The states used below are reached by running the operations above from
    an empty directory. A run is [None] when a step aborts or returns an
    error. *)

Definition walDir : string := "wal".

Definition maxUint64 : Z := 2 ^ 64 - 1.

(** An entry of type [EntryNormal] with the given payload. *)
Definition normalEntry (index term : Z) (payload : list Z) : raftEntry :=
  {| reTerm := term; reIndex := index; reType := 0;
     reData := match payload with [] => DNil | _ => DBytes payload end |}.

(** Whether a run reached its end. *)
Definition ran {A : Type} (st : option A) : bool :=
  match st with Some _ => true | None => false end.

Definition logState : Type := entryLog * Disk.
Definition storeState : Type := DiskStorage * Disk.

Definition opened (dirName : string) (d : Disk) : option logState :=
  match openEntryLog dirName d with
  | Ret (Some l, None, d) => Some (l, d)
  | _ => None
  end.

Definition added (st : option logState) (es : list raftEntry)
  : option logState :=
  match st with
  | Some (l, d) =>
      match entryLog_AddEntries l es d with
      | Ret (l, None, d) => Some (l, d)
      | _ => None
      end
  | None => None
  end.

Definition emptyLog : entryLog :=
  {| files := []; currentFid := 0; current := None; entryIndex := 0;
     lastIndex := 0; dir := EmptyString |}.

Definition theLog (st : option logState) : entryLog :=
  match st with Some (l, _) => l | None => emptyLog end.

Definition theDisk (st : option logState) : Disk :=
  match st with Some (_, d) => d | None => emptyDisk end.

(** The log opened on an empty directory. *)
Definition freshLog : option logState := opened walDir emptyDisk.

(** One entry appended: index 1, term 1, no payload. *)
Definition logOne : option logState :=
  added freshLog [normalEntry 1 1 []].

(** Two entries appended: index 1 with payload "a", index 2 with "bb". *)
Definition logAB : option logState :=
  added freshLog [normalEntry 1 1 [97]; normalEntry 2 1 [98; 98]].

(** The log over the file of [logOne] as the directory scan of a reopening
    reads it: the file carries the index of its slot 0 as first index. *)
Definition logScanned : logState :=
  ({| files := [{| firstIndex := 1; path := "wal/1.ent"; mmap := Some 0%nat |}];
      currentFid := 1;
      current := Some {| bfile := 0; boff := entryFileOffset |};
      entryIndex := 1; lastIndex := 1; dir := walDir |},
   theDisk logOne).

(** The store opened by [Init] on an empty directory, with raft id 7 and
    group 1, the same store once its [db] field holds an empty key-value
    store, and a store with its commit timestamp set. [Init] assigns
    neither field: [db] stays nil and [commitTs] 0. *)
Definition initStore : option storeState :=
  match Init walDir 7 1 emptyDisk with
  | Ret st => Some st
  | Panicked => None
  end.

Definition withDB (st : option storeState) : option storeState :=
  match st with
  | Some (w, d) => Some (set_db w [], d)
  | None => None
  end.

Definition atCommitTs (st : option storeState) (ts : Z)
  : option storeState :=
  match st with
  | Some (w, d) => Some (set_commitTs w ts, d)
  | None => None
  end.

Definition saved (st : option storeState) (h : option HardState)
    (es : list raftEntry) (snap : option Snapshot) : option storeState :=
  match st with
  | Some (w, d) =>
      match Save w h es snap d with
      | Done (Ret (w, None, d)) => Some (w, d)
      | _ => None
      end
  | None => None
  end.

Definition emptyStore : DiskStorage :=
  {| db := None; wdir := EmptyString; commitTs := 0; wid := 0; wgid := 0;
     meta := None; entries := None; cache := ∅; indexRangeChan := [] |}.

Definition theStore (st : option storeState) : DiskStorage :=
  match st with Some (w, _) => w | None => emptyStore end.

Definition storeDisk (st : option storeState) : Disk :=
  match st with Some (_, d) => d | None => emptyDisk end.

(** The entry log of a store. *)
Definition storeLog (st : option storeState) : entryLog :=
  default emptyLog (entries (theStore st)).

(** Entries 1 to 5 of term 1 saved, then an entry of index 3 and term 2
    with payload "x". *)
Definition storeFive : option storeState :=
  saved (withDB initStore) None
    ((fun i => normalEntry i 1 []) <$> seqZ 1 5) None.

Definition storeOverwritten : option storeState :=
  saved storeFive None [normalEntry 3 2 [120]] None.

(** Entries 1 to 30001 of term 1 without payload saved: one more than an
    entry file holds. *)
Definition storeRotated : option storeState :=
  saved (withDB initStore) None
    ((fun i => normalEntry i 1 []) <$> seqZ 1 30001) None.

(** One save of entry 1 of term 1 and nothing else. *)
Definition storeOne : option storeState :=
  saved (withDB initStore) None [normalEntry 1 1 []] None.

(** The snapshot at index 1 and term 1 used below. *)
Definition snap1 : Snapshot :=
  {| snapData := []; snapConfState := [7]; snapIndex := 1; snapTerm := 1 |}.

(** One save at commit timestamp 1: entry 1 of term 1, hard state
    (1, 0, 1) and a snapshot at index 1. The save writes the entry kept
    for the snapshot to the key-value store, which at the commit timestamp
    0 that [Init] leaves does not return. *)
Definition storeSnap1 : option storeState :=
  saved (atCommitTs (withDB initStore) 1)
    (Some {| hsTerm := 1; hsVote := 0; hsCommit := 1 |})
    [normalEntry 1 1 []]
    (Some {| snapData := []; snapConfState := [7]; snapIndex := 1;
             snapTerm := 1 |}).

(** The same save at the commit timestamp 0 that [Init] leaves. *)
Definition saveSnap1_at0 : result (DiskStorage * option error * Disk) :=
  Save (theStore (withDB initStore))
    (Some {| hsTerm := 1; hsVote := 0; hsCommit := 1 |})
    [normalEntry 1 1 []] (Some snap1) (storeDisk (withDB initStore)).

(** The store with an empty key-value store after [StoreSnapshot] alone
    has put the snapshot at index 1 on its meta page: no save, no write to
    the key-value store. *)
Definition storeMetaSnap1 : option storeState :=
  match withDB initStore with
  | Some (w, d) =>
      match meta w with
      | Some m =>
          match metaFile_StoreSnapshot m (Some snap1) d with
          | (None, d') => Some (w, d')
          | (Some _, _) => None
          end
      | None => None
      end
  | None => None
  end.

(** Two saves of a hard state: term 5, then term 3. *)
Definition storeTerm5 : option storeState :=
  saved (withDB initStore)
    (Some {| hsTerm := 5; hsVote := 7; hsCommit := 0 |}) [] None.

Definition storeTerm3 : option storeState :=
  saved storeTerm5 (Some {| hsTerm := 3; hsVote := 7; hsCommit := 0 |}) [] None.

(** The discard of everything below [snapshotIndex]: [DiscardFiles] on the
    entry log, the range sent to the worker, and the worker drained. *)
Definition discarded (st : option storeState) (snapshotIndex : Z)
  : option storeState :=
  match st with
  | Some (w, d) =>
      match entries w with
      | None => None
      | Some l =>
          let '(l, _, d) := DiscardFiles l snapshotIndex d in
          let w := set_entries w l in
          Some (processIndexRange
                  {| db := db w; wdir := wdir w; commitTs := commitTs w;
                     wid := wid w; wgid := wgid w; meta := meta w;
                     entries := entries w; cache := cache w;
                     indexRangeChan :=
                       indexRangeChan w ++
                       [{| from := 0; until := snapshotIndex |}] |} d)
      end
  | None => None
  end.

(** What is observed of a store: the first indices and the paths of the
    files of its entry log, and the paths in its directory. *)
Definition observed (st : option storeState)
  : list Z * list string * list string :=
  (firstIndex <$> files (storeLog st), path <$> files (storeLog st),
   fst <$> names (storeDisk st)).

(** The reopening of the directory of a store: the paths the scan finds
    with its error, and whether [openEntryLog] gives a log, with its
    error. *)
Definition rescanned (st : option storeState)
  : outcome (list string * option error) :=
  match getEntryFiles (storeDisk st) walDir with
  | Ret (fs, err) => Ret (path <$> fs, err)
  | Panicked => Panicked
  end.

Definition reopened (st : option storeState)
  : outcome (bool * option error) :=
  match openEntryLog walDir (storeDisk st) with
  | Ret (l, err, _) => Ret (ran l, err)
  | Panicked => Panicked
  end.


(** ** Keys of the key-value store *)

(** [binary.BigEndian.PutUint32(b, v)]: the four bytes written. *)
Definition PutUint32 (v : Z) : list Z :=
  [ byte_of (Z.shiftr v 24); byte_of (Z.shiftr v 16);
    byte_of (Z.shiftr v 8); byte_of v ].

(** [func (w *DiskStorage) EntryKey(idx uint64)]. *)
Definition EntryKey (w : DiskStorage) (idx : Z) : list Z :=
  PutUint64 (wid w) ++ PutUint32 (wgid w) ++ PutUint64 idx.

(** [func (w *DiskStorage) parseIndex(key []byte)]. *)
Definition parseIndex (key : list Z) : outcome Z :=
  _ ← AssertTrue (Z.of_nat (length key) =? 20);
  Ret (Uint64 (take 8 (drop 12 key))).

(** [func (w *DiskStorage) entryPrefix()]. *)
Definition entryPrefix (w : DiskStorage) : list Z :=
  PutUint64 (wid w) ++ PutUint32 (wgid w).

(** [bytes.Compare(a, b)]: the lexicographic order of byte slices, as -1,
    0 or 1. *)
Fixpoint bytes_Compare (a b : list Z) : Z :=
  match a, b with
  | [], [] => 0
  | [], _ :: _ => -1
  | _ :: _, [] => 1
  | x :: a', y :: b' =>
      if x <? y then -1
      else if y <? x then 1
      else bytes_Compare a' b'
  end.

(** ** Deleting from the key-value store *)

(** A write batch that also deletes: the operations in the order they
    were recorded. The batch of [Save] above only sets. *)
Inductive batchOp : Type :=
  | OpSet (k : Z) (v : raftEntry)
  | OpDelete (k : Z).

Fixpoint db_delete (t : DB) (k : Z) : DB :=
  match t with
  | [] => []
  | (k', v) :: t' => if k' =? k then db_delete t' k else (k', v) :: db_delete t' k
  end.

Definition apply_op (t : DB) (op : batchOp) : DB :=
  match op with
  | OpSet k v => db_set t k v
  | OpDelete k => db_delete t k
  end.

(** What the operations of a batch make of the store once they are
    committed. *)
Definition ops_Flush (t : DB) (b : list batchOp) : DB := foldl apply_op t b.

(** [func (w *DiskStorage) deleteKeys(batch, keys)]. *)
Definition deleteKeys (batch : list batchOp) (keys : list Z) : list batchOp :=
  if Z.of_nat (length keys) =? 0 then batch
  else batch ++ (OpDelete <$> keys).

(** [func (w *DiskStorage) deleteFrom(batch, from)]: every key from
    [itr.Seek(EntryKey(from))] to the end is collected and deleted. *)
Definition deleteFrom (w : DiskStorage) (batch : list batchOp) (from : Z)
  : outcome (list batchOp * option error) :=
  match db w with
  | None => Panicked
  | Some t => Ret (deleteKeys batch (fst <$> db_seek t from), None)
  end.

(** The iteration of [deleteRange]: the keys collected, or the Compacted
    error when the first key met is not below [until]. *)
Fixpoint deleteRange_loop (items : DB) (until : Z) (first : bool)
    (keys : list Z) : list Z * option error :=
  match items with
  | [] => (keys, None)
  | (index, _) :: items' =>
      if first && (until <=? index) then (keys, Some ErrCompacted)
      else if index >=? until then (keys, None)
      else deleteRange_loop items' until false (keys ++ [index])
  end.

(** [func (w *DiskStorage) deleteRange(batch, from, until)]. *)
Definition deleteRange (w : DiskStorage) (batch : list batchOp)
    (from until : Z) : outcome (list batchOp * option error) :=
  match db w with
  | None => Panicked
  | Some t =>
      match deleteRange_loop (db_seek t from) until true [] with
      | (_, Some er) => Ret (batch, Some er)
      | (keys, None) => Ret (deleteKeys batch keys, None)
      end
  end.

(** [batch.Flush()] of a batch that also deletes, made by
    [NewWriteBatchAt(commitTs)]: as [batch_Flush], it returns at once with
    nothing pending, never returns with a write pending at timestamp 0,
    and applies the operations otherwise. *)
Definition ops_Commit (commitTs : Z) (t : DB) (b : list batchOp) : option DB :=
  match b with
  | [] => Some t
  | _ :: _ => if commitTs =? 0 then None else Some (ops_Flush t b)
  end.

(** [func (w *DiskStorage) reset(es []raftpb.Entry)]. *)
Definition reset (w : DiskStorage) (es : list raftEntry)
  : result (DiskStorage * option error) :=
  let w := set_cache w ∅ in
  match db w with
  | None => Done Panicked
  | Some t =>
      match deleteFrom w [] 0 with
      | Panicked => Done Panicked
      | Ret (_, Some er) => Done (Ret (w, Some er))
      | Ret (batch, None) =>
          let batch := batch ++ ((fun e => OpSet (reIndex e) e) <$> es) in
          match ops_Commit (commitTs w) t batch with
          | Some t' => Done (Ret (set_db w t', None))
          | None => Blocked
          end
      end
  end.

(** [func (w *DiskStorage) addEntries(batch, entries)], the append of the
    key-value layout. *)
Definition addEntries (d : Disk) (w : DiskStorage) (batch : list batchOp)
    (ents : list raftEntry)
  : outcome (DiskStorage * list batchOp * option error) :=
  match ents with
  | [] => Ret (w, batch, None)
  | e0 :: _ =>
      '(first, err) ← DiskStorage_FirstIndex d w;
      match err with
      | Some er => Ret (w, batch, Some er)
      | None =>
          let firste := reIndex e0 in
          if u64 (u64 (firste + Z.of_nat (length ents)) - 1) <? first
          then Ret (w, batch, None)
          else
            ents ← (if first >? firste then
                      let cut := u64 (first - firste) in
                      if Z.of_nat (length ents) <? cut then Panicked
                      else Ret (drop (Z.to_nat cut) ents)
                    else Ret ents);
            match entries w with
            | None => Panicked
            | Some l =>
                let lastI := entryLog_LastIndex l in
                let batch := batch ++ ((fun e => OpSet (reIndex e) e) <$> ents) in
                match last ents with
                | None => Panicked
                | Some le =>
                    let laste := reIndex le in
                    let w := set_cache w (<[lastKey := CUint64 laste]> (cache w)) in
                    if laste <? lastI then
                      '(batch, err) ← deleteFrom w batch (u64 (laste + 1));
                      Ret (w, batch, err)
                    else Ret (w, batch, None)
                end
            end
      end
  end.

(** ** The remaining readers of the store *)

(** [func (w *DiskStorage) InitialState()]: the hard state, the
    configuration state of the snapshot and the error. *)
Definition InitialState (d : Disk) (w : DiskStorage)
  : outcome (HardState * list Z * option error) :=
  match meta w with
  | None => Panicked
  | Some m =>
      match metaFile_HardState m d with
      | (hs, Some er) => Ret (hs, [], Some er)
      | (hs, None) =>
          '(snap, err) ← DiskStorage_Snapshot d w;
          match err with
          | Some er => Ret (hs, [], Some er)
          | None => Ret (hs, snapConfState snap, None)
          end
      end
  end.

(** [func (w *DiskStorage) NumEntries()]. *)
Definition DiskStorage_NumEntries (w : DiskStorage) : outcome (Z * option error) :=
  match entries w with
  | None => Panicked
  | Some l => Ret (numEntries l, None)
  end.

(** [func (w *DiskStorage) allEntriesNew(lo, hi, maxSize)]. *)
Definition allEntriesNew (d : Disk) (w : DiskStorage) (lo hi maxSize : Z)
  : outcome (list raftEntry * option error) :=
  match entries w with
  | None => Panicked
  | Some l =>
      '(ents, err) ← entryLog_allEntries d l lo hi maxSize;
      match err with
      | Some er => Ret ([], Some er)
      | None => Ret ([], None)
      end
  end.

(** Well-formed views of the key-value store: every value is stored under
    the key of its index, and the keys ascend strictly. *)
Fixpoint db_sorted (t : DB) : Prop :=
  match t with
  | [] => True
  | (k, _) :: t' =>
      match t' with
      | [] => True
      | (k', _) :: _ => k < k' /\ db_sorted t'
      end
  end.

Definition db_keyed (t : DB) : Prop := Forall (fun kv => reIndex (snd kv) = fst kv) t.

(** The entry an all-zero slot decodes to. *)
Definition emptyEntry : entry :=
  {| Term := 0; Index := 0; DataOffset := 0; Type_ := 0 |}.

(** The order [getEntryFiles] sorts by. *)
Definition firstIndex_le (f g : entryFile) : Prop := firstIndex f <= firstIndex g.

(** What [getEntryFile] gives for a path: the file mapped under that path,
    carrying the index of its slot 0 as first index. *)
Definition scanned_from (d : Disk) (f : entryFile) : Prop :=
  exists h e,
    lookup_name d (path f) = Some h /\ mmap f = Some h /\
    entryFromBytes (disk_read d h 0 entrySize) = (Some e, None) /\
    firstIndex f = Index e.

(** The files of a log in strictly ascending order of first index. *)
Definition files_ascending (l : entryLog) : Prop :=
  forall (i j : nat) (f g : entryFile),
    (i < j)%nat -> files l !! i = Some f -> files l !! j = Some g ->
    firstIndex f < firstIndex g.

(** What the lookups do with slot [n] of file [f]: they return the term
    found in the slot when the slot lies inside the mapping of the file,
    and panic otherwise. *)
Definition reads_term_of_slot (d : Disk) (f : entryFile) (n : Z)
    (r : outcome (Z * option error)) : Prop :=
  match mmap f with
  | None => r = Panicked
  | Some h =>
      if n * entrySize + entrySize <=? file_size d h
      then exists e,
             entryFromBytes (disk_read d h (n * entrySize) entrySize) =
               (Some e, None) /\
             r = Ret (Term e, None)
      else r = Panicked
  end.

(** Snapshots whose integers fit their Go types. *)
Definition wf_Snapshot (s : Snapshot) : Prop :=
  is_u64 (snapIndex s) /\ is_u64 (snapTerm s) /\
  Forall is_u64 (snapConfState s).

(** The entry [setSnapshot] keeps at the snapshot index. *)
Definition snapshotEntry (s : Snapshot) : raftEntry :=
  {| reTerm := snapTerm s; reIndex := snapIndex s; reType := 0;
     reData := DNil |}.
(** * Properties *)

(** Closed statements about the runs are settled by evaluation. *)
Ltac by_evaluation := repeat split; vm_compute; reflexivity.

(** Reduce the bind of a call that has just been destructed. *)
Ltac run_bind := cbn [mbind outcome_bind].

(** ** Big-endian round trip *)

Lemma lor_disjoint_add (a y k : Z) :
  0 <= k -> 0 <= a < 2 ^ k -> (2 ^ k | y) -> Z.lor a y = a + y.
Proof.
  intros Hk Ha [c ->].
  assert (Hland : Z.land a (c * 2 ^ k) = 0).
  { apply Z.bits_inj'; intros n Hn. rewrite Z.land_spec, Z.bits_0.
    destruct (Z.lt_ge_cases n k) as [Hlt|Hge].
    - rewrite Z.mul_pow2_bits_low by lia. apply andb_false_r.
    - destruct (Z.eq_dec a 0) as [->|Hne]; [now rewrite Z.bits_0|].
      rewrite (Z.bits_above_log2 a n); [reflexivity|lia|].
      apply Z.lt_le_trans with k; [|lia].
      apply Z.log2_lt_pow2; lia. }
  rewrite <- Z.lxor_lor by exact Hland.
  symmetry. now apply Z.add_nocarry_lxor.
Qed.

Lemma byte_of_spec (x : Z) : byte_of x = x mod 256.
Proof. unfold byte_of. change 255 with (Z.ones 8). now rewrite Z.land_ones. Qed.

(** The value [Uint64] assembles from eight bytes, as a sum. *)
Lemma Uint64_sum (b0 b1 b2 b3 b4 b5 b6 b7 : Z) (rest : list Z) :
  is_byte b0 -> is_byte b1 -> is_byte b2 -> is_byte b3 ->
  is_byte b4 -> is_byte b5 -> is_byte b6 -> is_byte b7 ->
  Uint64 (b0 :: b1 :: b2 :: b3 :: b4 :: b5 :: b6 :: b7 :: rest) =
  b7 + b6 * 2 ^ 8 + b5 * 2 ^ 16 + b4 * 2 ^ 24 + b3 * 2 ^ 32 +
  b2 * 2 ^ 40 + b1 * 2 ^ 48 + b0 * 2 ^ 56.
Proof.
  unfold is_byte, Uint64. intros H0 H1 H2 H3 H4 H5 H6 H7. cbn [nth].
  rewrite !Z.shiftl_mul_pow2 by lia.
  rewrite (lor_disjoint_add (b1 * 2 ^ 48) _ 56);
    [| lia | lia | exists b0; lia].
  rewrite (lor_disjoint_add (b2 * 2 ^ 40) _ 48);
    [| lia | lia | exists (b1 + b0 * 2 ^ 8); lia].
  rewrite (lor_disjoint_add (b3 * 2 ^ 32) _ 40);
    [| lia | lia | exists (b2 + b1 * 2 ^ 8 + b0 * 2 ^ 16); lia].
  rewrite (lor_disjoint_add (b4 * 2 ^ 24) _ 32);
    [| lia | lia | exists (b3 + b2 * 2 ^ 8 + b1 * 2 ^ 16 + b0 * 2 ^ 24); lia].
  rewrite (lor_disjoint_add (b5 * 2 ^ 16) _ 24);
    [| lia | lia
     | exists (b4 + b3 * 2 ^ 8 + b2 * 2 ^ 16 + b1 * 2 ^ 24 + b0 * 2 ^ 32); lia].
  rewrite (lor_disjoint_add (b6 * 2 ^ 8) _ 16);
    [| lia | lia
     | exists (b5 + b4 * 2 ^ 8 + b3 * 2 ^ 16 + b2 * 2 ^ 24 + b1 * 2 ^ 32 +
               b0 * 2 ^ 40); lia].
  rewrite (lor_disjoint_add b7 _ 8);
    [| lia | lia
     | exists (b6 + b5 * 2 ^ 8 + b4 * 2 ^ 16 + b3 * 2 ^ 24 + b2 * 2 ^ 32 +
               b1 * 2 ^ 40 + b0 * 2 ^ 48); lia].
  lia.
Qed.

Lemma Uint64_PutUint64 (v : Z) (rest : list Z) :
  is_u64 v -> Uint64 (PutUint64 v ++ rest) = v.
Proof.
  intros Hv. unfold is_u64 in Hv. unfold PutUint64. cbn [app].
  rewrite !byte_of_spec, !Z.shiftr_div_pow2 by lia.
  rewrite Uint64_sum; unfold is_byte; try (apply Z.mod_pos_bound; lia).
  Z.div_mod_to_equations. lia.
Qed.

Lemma length_PutUint64 (v : Z) : length (PutUint64 v) = 8%nat.
Proof. reflexivity. Qed.

Lemma int32_u64 (t : Z) : is_int32 t -> int32 (u64 t) = t.
Proof.
  unfold is_int32, int32, u64. intros Ht.
  destruct (Z.ltb_spec ((t mod 2 ^ 64) mod 2 ^ 32) (2 ^ 31));
    Z.div_mod_to_equations; lia.
Qed.

Lemma u64_range (x : Z) : is_u64 (u64 x).
Proof. unfold is_u64, u64. apply Z.mod_pos_bound. lia. Qed.

(** ** The index slot codec *)

Lemma drop_PutUint64 (v : Z) (rest : list Z) :
  drop 8 (PutUint64 v ++ rest) = rest.
Proof. reflexivity. Qed.

Lemma entryFromBytes_Bytes (e : entry) :
  wf_entry e -> entryFromBytes (Bytes (Some e)) = (Some e, None).
Proof.
  intros (Ht & Hi & Hd & Hty). destruct e as [t i o ty].
  cbn [Term Index DataOffset Type_] in *.
  unfold entryFromBytes, Bytes. cbn [Term Index DataOffset Type_].
  replace (length _) with 32%nat by reflexivity. cbn [Z.of_nat orb Z.eqb Z.ltb].
  change (drop 16 ?l) with (drop 8 (drop 8 l)).
  change (drop 24 ?l) with (drop 8 (drop 8 (drop 8 l))).
  rewrite !drop_PutUint64.
  rewrite <- (app_nil_r (PutUint64 (u64 ty))).
  rewrite !Uint64_PutUint64 by (assumption || apply u64_range).
  rewrite int32_u64 by assumption. reflexivity.
Qed.

(** Serialization is injective on well-formed entries. *)
Lemma Bytes_inj (e1 e2 : entry) :
  wf_entry e1 -> wf_entry e2 ->
  Bytes (Some e1) = Bytes (Some e2) -> e1 = e2.
Proof.
  intros H1 H2 Heq.
  apply entryFromBytes_Bytes in H1. apply entryFromBytes_Bytes in H2.
  rewrite Heq in H1. congruence.
Qed.

(** C9. For every entry whose fields fit their Go types, [Bytes] produces
    exactly 32 bytes laid out as the big-endian [uint64] encodings of the
    term in [0..8), the index in [8..16), the payload offset in [16..24)
    and the type in [24..32), and [entryFromBytes] on those bytes gives
    the entry back. *)
Theorem entry_slot_roundtrip (e : entry) (H : wf_entry e) :
  length (Bytes (Some e)) = 32%nat /\
  take 8 (Bytes (Some e)) = PutUint64 (Term e) /\
  take 8 (drop 8 (Bytes (Some e))) = PutUint64 (Index e) /\
  take 8 (drop 16 (Bytes (Some e))) = PutUint64 (DataOffset e) /\
  drop 24 (Bytes (Some e)) = PutUint64 (u64 (Type_ e)) /\
  Uint64 (Bytes (Some e)) = Term e /\
  Uint64 (drop 8 (Bytes (Some e))) = Index e /\
  Uint64 (drop 16 (Bytes (Some e))) = DataOffset e /\
  int32 (Uint64 (drop 24 (Bytes (Some e)))) = Type_ e /\
  entryFromBytes (Bytes (Some e)) = (Some e, None).
Proof.
  pose proof (entryFromBytes_Bytes e H) as Hrt.
  repeat split; try reflexivity; try exact Hrt.
  all: unfold entryFromBytes in Hrt; simpl in Hrt.
  all: injection Hrt as Hrt; rewrite <- Hrt at 2; reflexivity.
Qed.

(** The theorem at the first slot of a rotated file. *)
Lemma entry_slot_roundtrip_witness :
  let e := {| Term := 2; Index := 30001; DataOffset := 1048576; Type_ := 1 |} in
  wf_entry e /\
  entryFromBytes (Bytes (Some e)) = (Some e, None).
Proof.
  intros e.
  assert (H : wf_entry e) by (unfold wf_entry, is_u64, is_int32; simpl; lia).
  split; [exact H|].
  apply (entry_slot_roundtrip e H).
Defined.

(** ** Reads and writes of a mapping *)

Lemma file_size_disk_write (d : Disk) (h h' : nat) (off : Z) (bs : list Z) :
  file_size (disk_write d h off bs) h' = file_size d h'.
Proof.
  unfold file_size, disk_write; cbn [mapped].
  destruct (decide (h = h')) as [->|Hne].
  - rewrite list_lookup_alter_eq. now destruct (mapped d !! h').
  - now rewrite list_lookup_alter_ne.
Qed.

Lemma byte_at_disk_write_in (d : Disk) (h : nat) (off : Z) (bs : list Z) (i : Z) :
  0 < file_size d h ->
  off <= i < off + Z.of_nat (length bs) ->
  byte_at (disk_write d h off bs) h i = nth (Z.to_nat (i - off)) bs 0.
Proof.
  unfold file_size, byte_at, disk_write; cbn [mapped]. intros Hsz Hi.
  rewrite list_lookup_alter_eq. destruct (mapped d !! h); [|lia].
  cbn [fmap option_fmap option_map fbytes]. unfold write_bytes.
  destruct (Z.leb_spec off i); [|lia].
  destruct (Z.ltb_spec i (off + Z.of_nat (length bs))); [reflexivity|lia].
Qed.

Lemma byte_at_disk_write_out (d : Disk) (h h' : nat) (off : Z) (bs : list Z)
    (i : Z) :
  h' <> h \/ i < off \/ off + Z.of_nat (length bs) <= i ->
  byte_at (disk_write d h off bs) h' i = byte_at d h' i.
Proof.
  unfold byte_at, disk_write; cbn [mapped]. intros Hi.
  destruct (decide (h = h')) as [->|Hne].
  - rewrite list_lookup_alter_eq. destruct (mapped d !! h'); [|reflexivity].
    cbn [fmap option_fmap option_map fbytes]. unfold write_bytes.
    destruct (Z.leb_spec off i); [|reflexivity].
    destruct (Z.ltb_spec i (off + Z.of_nat (length bs))); [|reflexivity].
    destruct Hi as [Hi|Hi]; [congruence|lia].
  - now rewrite list_lookup_alter_ne.
Qed.

Lemma disk_read_write_same (d : Disk) (h : nat) (off : Z) (bs : list Z) :
  0 < file_size d h ->
  disk_read (disk_write d h off bs) h off (Z.of_nat (length bs)) = bs.
Proof.
  intros Hsz. unfold disk_read. apply list_eq. intros i.
  rewrite list_lookup_fmap.
  destruct (decide (i < length bs)%nat) as [Hlt|Hge].
  - rewrite lookup_seqZ_lt by lia. cbn [fmap option_fmap option_map].
    rewrite byte_at_disk_write_in by lia.
    replace (Z.to_nat (off + Z.of_nat i - off)) with i by lia.
    destruct (lookup_lt_is_Some_2 bs i Hlt) as [x Hx].
    now rewrite Hx, (nth_lookup_Some _ _ _ _ Hx).
  - rewrite lookup_seqZ_ge by lia. symmetry. apply lookup_ge_None. lia.
Qed.

Lemma disk_read_write_other (d : Disk) (h h' : nat) (off off' n : Z)
    (bs : list Z) :
  h' <> h \/ off' + n <= off \/ off + Z.of_nat (length bs) <= off' ->
  disk_read (disk_write d h off bs) h' off' n = disk_read d h' off' n.
Proof.
  intros Hd. unfold disk_read. apply list_eq. intros i.
  rewrite !list_lookup_fmap.
  destruct (decide (Z.of_nat i < n)) as [Hlt|Hge].
  - rewrite lookup_seqZ_lt by lia. cbn [fmap option_fmap option_map].
    rewrite byte_at_disk_write_out; [reflexivity|lia].
  - now rewrite lookup_seqZ_ge by lia.
Qed.

Lemma length_disk_read (d : Disk) (h : nat) (off n : Z) :
  length (disk_read d h off n) = Z.to_nat n.
Proof. unfold disk_read. now rewrite length_fmap, length_seqZ. Qed.

Lemma unle32_le32 (n : Z) : 0 <= n < 2 ^ 32 -> unle32 (le32 n) = n.
Proof.
  intros Hn. unfold unle32, le32. cbn [nth].
  rewrite !byte_of_spec, !Z.shiftr_div_pow2 by lia.
  Z.div_mod_to_equations. lia.
Qed.

(** ** The length-prefixed records of the meta page *)

Lemma Slice_WriteSliceAt (d d' : Disk) (b : Buffer) (bs : list Z) (off : Z) :
  Z.of_nat (length bs) < 2 ^ 32 ->
  Buffer_WriteSliceAt d b bs off = (None, d') ->
  Buffer_Slice d' b off = Some bs.
Proof.
  intros Hlen. unfold Buffer_WriteSliceAt, Buffer_Slice.
  destruct (Z.ltb_spec off 0) as [|Hoff]; [discriminate|].
  destruct (Z.ltb_spec (file_size d (bfile b)) (off + 4 + Z.of_nat (length bs)))
    as [|Hfit]; [discriminate|].
  cbn [orb]. intros [= <-].
  rewrite !file_size_disk_write.
  destruct (Z.ltb_spec (file_size d (bfile b)) (off + 4)); [lia|].
  assert (Hrd : disk_read
            (disk_write (disk_write d (bfile b) (off + 4) bs) (bfile b) off
               (le32 (Z.of_nat (length bs)))) (bfile b) off 4 =
          le32 (Z.of_nat (length bs))).
  { apply (disk_read_write_same _ _ _ (le32 _)).
    rewrite file_size_disk_write. lia. }
  rewrite Hrd, unle32_le32 by lia.
  destruct (Z.ltb_spec (file_size d (bfile b)) (off + 4 + Z.of_nat (length bs)));
    [lia|].
  rewrite disk_read_write_other by (cbn [length le32]; lia).
  rewrite disk_read_write_same by lia. reflexivity.
Qed.

Lemma HardState_Unmarshal_Marshal (hs : HardState) :
  is_u64 (hsTerm hs) -> is_u64 (hsVote hs) -> is_u64 (hsCommit hs) ->
  HardState_Unmarshal (HardState_Marshal hs) = Some hs.
Proof.
  intros Ht Hv Hc. destruct hs as [t v c]. cbn [hsTerm hsVote hsCommit] in *.
  unfold HardState_Unmarshal, HardState_Marshal. cbn [hsTerm hsVote hsCommit].
  replace (length _) with 24%nat by reflexivity.
  cbn [Z.of_nat Z.ltb Z.compare Pos.of_succ_nat Pos.succ Pos.compare
       Pos.compare_cont].
  change (drop 16 ?l) with (drop 8 (drop 8 l)).
  rewrite !drop_PutUint64.
  rewrite <- (app_nil_r (PutUint64 c)).
  now rewrite !Uint64_PutUint64 by assumption.
Qed.

Lemma length_HardState_Marshal (hs : HardState) :
  length (HardState_Marshal hs) = 24%nat.
Proof. reflexivity. Qed.

(** C6, as amended. [StoreHardState] does not look at the persisted hard
    state: a non-empty hard state written to a meta page of 4096 bytes
    replaces the persisted one whatever its term, so that the hard state
    read back is the one just written; an empty or absent hard state
    leaves the page as it is. The persisted term is therefore as monotone
    as the terms the caller passes, and no more. *)
Theorem StoreHardState_replaces (m : metaFile) (d : Disk) (hs : HardState)
    (Hsize : file_size d (bfile (buf m)) = metaFileSize)
    (Hwf : wf_HardState hs) :
  (IsEmptyHardState hs = false ->
   exists d',
     metaFile_StoreHardState m (Some hs) d = (None, d') /\
     metaFile_HardState m d' = (hs, None) /\
     file_size d' (bfile (buf m)) = metaFileSize) /\
  (IsEmptyHardState hs = true ->
   metaFile_StoreHardState m (Some hs) d = (None, d)) /\
  metaFile_StoreHardState m None d = (None, d).
Proof.
  destruct Hwf as (Ht & Hv & Hc).
  split; [|split]; [| |reflexivity].
  - intros Hne. unfold metaFile_StoreHardState. rewrite Hne.
    destruct (Buffer_WriteSliceAt d (buf m) (HardState_Marshal hs)
                hardStateOffset) as [err d'] eqn:Hw.
    assert (Hfit : err = None /\ file_size d' (bfile (buf m)) = metaFileSize).
    { revert Hw. unfold Buffer_WriteSliceAt.
      rewrite Hsize, length_HardState_Marshal.
      change (_ || _) with false. cbv iota.
      intros [= <- <-]. now rewrite !file_size_disk_write. }
    destruct Hfit as [-> Hsize'].
    exists d'. split; [reflexivity|]. split; [|exact Hsize'].
    unfold metaFile_HardState.
    rewrite (Slice_WriteSliceAt d d' (buf m) (HardState_Marshal hs)
               hardStateOffset); [| |exact Hw].
    + rewrite length_HardState_Marshal. change (_ =? _) with false. cbv iota.
      now rewrite HardState_Unmarshal_Marshal.
    + rewrite length_HardState_Marshal. reflexivity.
  - intros He. unfold metaFile_StoreHardState. now rewrite He.
Qed.

(** The theorem at the meta page of the store that saved term 5, given a
    hard state of term 3. *)
Lemma StoreHardState_replaces_witness :
  let m := {| buf := {| bfile := 0; boff := 0 |} |} in
  let d := storeDisk storeTerm5 in
  let hs := {| hsTerm := 3; hsVote := 7; hsCommit := 0 |} in
  file_size d (bfile (buf m)) = metaFileSize /\
  wf_HardState hs /\
  exists d',
    metaFile_StoreHardState m (Some hs) d = (None, d') /\
    metaFile_HardState m d' = (hs, None) /\
    file_size d' (bfile (buf m)) = metaFileSize.
Proof.
  intros m d hs.
  assert (Hsize : file_size d (bfile (buf m)) = metaFileSize)
    by (vm_compute; reflexivity).
  assert (Hwf : wf_HardState hs)
    by (unfold wf_HardState, is_u64; simpl; lia).
  split; [exact Hsize|]. split; [exact Hwf|].
  apply (proj1 (StoreHardState_replaces m d hs Hsize Hwf)). reflexivity.
Defined.

(** C6, the claim as stated fails: a store that has saved a hard state of
    term 5 and is then given a hard state of term 3 persists term 3. *)
Lemma hard_state_term_decreases :
  ran storeTerm5 = true /\
  fst (DiskStorage_HardState (storeDisk storeTerm5) (theStore storeTerm5)) =
    {| hsTerm := 5; hsVote := 7; hsCommit := 0 |} /\
  saved storeTerm5 (Some {| hsTerm := 3; hsVote := 7; hsCommit := 0 |}) [] None
    = storeTerm3 /\
  ran storeTerm3 = true /\
  fst (DiskStorage_HardState (storeDisk storeTerm3) (theStore storeTerm3)) =
    {| hsTerm := 3; hsVote := 7; hsCommit := 0 |} /\
  hsTerm (fst (DiskStorage_HardState (storeDisk storeTerm3)
                 (theStore storeTerm3))) <
  hsTerm (fst (DiskStorage_HardState (storeDisk storeTerm5)
                 (theStore storeTerm5))).
Proof. by_evaluation. Qed.

(** ** The first index of the store *)

Lemma entryLog_FirstIndex_files (l : entryLog) :
  entryLog_FirstIndex (Some l) =
  match files l with [] => 0 | f :: _ => firstIndex f end.
Proof. reflexivity. Qed.

(** [setSnapshot] caches the snapshot it stores, and [Snapshot] answers
    from the cache. *)
Lemma Snapshot_after_setSnapshot (w w' : DiskStorage) (batch batch' : WriteBatch)
    (s : Snapshot) (d d' : Disk) :
  IsEmptySnap s = false ->
  setSnapshot w batch (Some s) d = Ret (w', batch', None, d') ->
  DiskStorage_Snapshot d' w' = Ret (s, None).
Proof.
  intros Hne. unfold setSnapshot. rewrite Hne.
  destruct (meta w) as [m|]; [|discriminate].
  destruct (metaFile_StoreSnapshot m (Some s) d) as [[er|] d1]; [discriminate|].
  cbn [reIndex].
  destruct (cache w !! lastKey) as [[s0|le]|]; [discriminate| |].
  - destruct (le <? snapIndex s); run_bind;
      intros [= <- _ <-];
      unfold DiskStorage_Snapshot; cbn [cache set_cache];
      rewrite lookup_insert_eq, Hne; reflexivity.
  - run_bind. intros [= <- _ <-].
    unfold DiskStorage_Snapshot; cbn [cache set_cache].
    rewrite lookup_insert_eq, Hne; reflexivity.
Qed.

(** C7. The code departs from the claim: the file that [openEntryLog]
    creates keeps the first index 0 it was made with, whatever is written
    to it. After one save of entry 1 no snapshot is stored, slot 0 of the
    only file holds index 1 and a scan of the directory reads 1 as the
    first index of that file, yet [FirstIndex] returns 0. *)
Theorem FirstIndex_stale_after_save :
  ran storeOne = true /\
  DiskStorage_Snapshot (storeDisk storeOne) (theStore storeOne) =
    Ret (emptySnapshot, None) /\
  entryLog_getEntry (storeDisk storeOne) (storeLog storeOne) 0 =
    Ret (Some {| Term := 1; Index := 1; DataOffset := 0; Type_ := 0 |},
         None) /\
  getEntryFiles (storeDisk storeOne) walDir =
    Ret ([{| firstIndex := 1; path := "wal/1.ent"; mmap := Some 1%nat |}],
         None) /\
  firstIndex <$> files (storeLog storeOne) = [0] /\
  DiskStorage_FirstIndex (storeDisk storeOne) (theStore storeOne) =
    Ret (0, None).
Proof. by_evaluation. Qed.


(** ** The bounds check of [Entries] *)

(** The key-value reader returns no error other than a missing key. *)
Lemma DiskStorage_allEntries_error (w : DiskStorage) (lo hi maxSize : Z)
    (es : list raftEntry) (e : error) :
  DiskStorage_allEntries w lo hi maxSize = Ret (es, Some e) ->
  e = ErrKeyNotFound.
Proof.
  unfold DiskStorage_allEntries.
  destruct (db w) as [t|]; [|discriminate].
  destruct (u64 (hi - lo) =? 1).
  - destruct (db_get t lo); congruence.
  - destruct (DiskStorage_allEntries_loop _ _ _ _ _ _ _ _); cbn; congruence.
Qed.

(** What [Entries] checks, for every store with an entry log: its bounds
    against the entry log alone, without the snapshot. The result is the
    Compacted error exactly when [lo] is below the entry log's first
    index, the Unavailable error exactly when it is not and [hi] exceeds
    the last index plus one (in [uint64] arithmetic), and in the remaining
    case the call is handed to the store's [allEntries]. *)
Lemma Entries_bounds_check (w : DiskStorage) (l : entryLog)
    (lo hi maxSize : Z) (Hl : entries w = Some l) :
  let first := entryLog_FirstIndex (Some l) in
  let last := entryLog_LastIndex l in
  (lo < first ->
   DiskStorage_Entries w lo hi maxSize = Ret ([], Some ErrCompacted)) /\
  (first <= lo -> u64 (last + 1) < hi ->
   DiskStorage_Entries w lo hi maxSize = Ret ([], Some ErrUnavailable)) /\
  (first <= lo -> hi <= u64 (last + 1) ->
   DiskStorage_Entries w lo hi maxSize = DiskStorage_allEntries w lo hi maxSize) /\
  ((exists es, DiskStorage_Entries w lo hi maxSize = Ret (es, Some ErrCompacted))
   <-> lo < first) /\
  ((exists es, DiskStorage_Entries w lo hi maxSize = Ret (es, Some ErrUnavailable))
   <-> first <= lo /\ u64 (last + 1) < hi).
Proof.
  intros first last.
  assert (HE : DiskStorage_Entries w lo hi maxSize =
               if lo <? first then Ret ([], Some ErrCompacted)
               else if hi >? u64 (last + 1) then Ret ([], Some ErrUnavailable)
               else DiskStorage_allEntries w lo hi maxSize).
  { unfold DiskStorage_Entries. rewrite Hl. reflexivity. }
  rewrite HE. clear HE.
  destruct (Z.ltb_spec lo first) as [Hlo|Hlo];
    [|destruct (Z.gtb_spec hi (u64 (last + 1))) as [Hhi|Hhi]].
  - split; [reflexivity|]. split; [lia|]. split; [lia|]. split; split.
    + intros _. exact Hlo.
    + intros _. now exists [].
    + intros [es [=]].
    + lia.
  - split; [lia|]. split; [reflexivity|]. split; [lia|]. split; split.
    + intros [es [=]].
    + lia.
    + intros _. lia.
    + intros _. now exists [].
  - split; [lia|]. split; [lia|]. split; [reflexivity|]. split; split.
    + intros [es He]. now apply DiskStorage_allEntries_error in He.
    + lia.
    + intros [es He]. now apply DiskStorage_allEntries_error in He.
    + lia.
Qed.

(** C4. The code departs from the claim: [Entries] compares [lo] with the
    first index of the entry log, not with the first index of the store.
    In the store that saved entry 1 with a snapshot at index 1 (at commit
    timestamp 1) [FirstIndex] is 2 and the entry log's first index 0, and
    [Entries] from 1 is not refused as compacted: it returns the entry
    kept under index 1. The same on a store that never saved, with the
    snapshot put on the meta page by [StoreSnapshot]: [FirstIndex] is 2
    and [Entries] from 0 goes on to the key-value store. At the commit
    timestamp 0 that [Init] leaves, the save with the snapshot does not
    return. *)
Theorem Entries_ignores_snapshot :
  ran storeSnap1 = true /\
  commitTs (theStore storeSnap1) = 1 /\
  DiskStorage_FirstIndex (storeDisk storeSnap1) (theStore storeSnap1) =
    Ret (2, None) /\
  entryLog_FirstIndex (entries (theStore storeSnap1)) = 0 /\
  DiskStorage_Entries (theStore storeSnap1) 1 2 100 =
    Ret ([{| reTerm := 1; reIndex := 1; reType := 0; reData := DNil |}], None) /\
  ran storeMetaSnap1 = true /\
  commitTs (theStore storeMetaSnap1) = 0 /\
  DiskStorage_FirstIndex (storeDisk storeMetaSnap1) (theStore storeMetaSnap1) =
    Ret (2, None) /\
  DiskStorage_LastIndex (theStore storeMetaSnap1) = Ret (0, None) /\
  DiskStorage_Entries (theStore storeMetaSnap1) 0 1 100 =
    Ret ([], Some ErrKeyNotFound) /\
  saveSnap1_at0 = Blocked.
Proof. by_evaluation. Qed.

(** ** The binary search over the files *)

Section BinarySearch.

Variable f : Z -> bool.

(** With enough fuel for the interval, a predicate that fails everywhere
    sends the search to the upper bound. *)
Lemma Search_loop_none (fuel : nat) (i j : Z) :
  0 <= i <= j -> j < 2 ^ 63 -> j - i <= Z.of_nat fuel ->
  (forall k, i <= k < j -> f k = false) ->
  Search_loop fuel f i j = j.
Proof.
  revert i. induction fuel as [|fuel IH]; intros i Hij Hj Hfuel Hf.
  - cbn. lia.
  - cbn [Search_loop]. destruct (Z.ltb_spec i j) as [Hlt|Hge]; [|lia].
    assert (Hh : Z.shiftr (u64 (i + j)) 1 = (i + j) / 2).
    { unfold u64. rewrite Z.mod_small by lia.
      now rewrite Z.shiftr_div_pow2 by lia. }
    rewrite Hh.
    assert (i <= (i + j) / 2 < j) by (Z.div_mod_to_equations; lia).
    rewrite Hf by lia. cbn [negb].
    apply IH; try lia. intros k Hk. apply Hf. lia.
Qed.

Lemma Search_none (n : Z) :
  0 <= n < 2 ^ 63 -> (forall k, 0 <= k < n -> f k = false) -> Search n f = n.
Proof.
  intros Hn Hf. unfold Search. apply Search_loop_none; try lia. exact Hf.
Qed.

(** The binary search ends inside its bounds at a partition point: the
    predicate fails just below the result and holds at it. *)
Lemma Search_loop_spec (lo hi : Z) (fuel : nat) (i j : Z) :
  0 <= lo -> hi < 2 ^ 63 -> lo <= i <= j -> j <= hi ->
  j - i <= Z.of_nat fuel ->
  (lo < i -> f (i - 1) = false) -> (j < hi -> f j = true) ->
  let r := Search_loop fuel f i j in
  i <= r <= j /\ (lo < r -> f (r - 1) = false) /\ (r < hi -> f r = true).
Proof.
  intros Hlo Hhi. revert i j.
  induction fuel as [|fuel IH]; intros i j Hij Hj Hfuel Hi Hjt.
  - cbn. assert (i = j) as -> by lia. auto with zarith.
  - cbn [Search_loop]. destruct (Z.ltb_spec i j) as [Hlt|Hge].
    + assert (Hh : Z.shiftr (u64 (i + j)) 1 = (i + j) / 2).
      { unfold u64. rewrite Z.mod_small by lia.
        now rewrite Z.shiftr_div_pow2 by lia. }
      rewrite Hh.
      assert (i <= (i + j) / 2 < j) by (Z.div_mod_to_equations; lia).
      destruct (f ((i + j) / 2)) eqn:Hf; cbn [negb].
      * destruct (IH i ((i + j) / 2)) as (Hr & Hb & Ha); try lia; auto.
        cbv zeta in *. repeat split; try lia; auto.
      * destruct (IH ((i + j) / 2 + 1) j) as (Hr & Hb & Ha); try lia; auto.
        { intros _. now replace ((i + j) / 2 + 1 - 1) with ((i + j) / 2) by lia. }
        cbv zeta in *. repeat split; try lia; auto.
    + assert (i = j) as -> by lia. cbv zeta. auto with zarith.
Qed.

Lemma Search_spec (n : Z) :
  0 <= n < 2 ^ 63 ->
  0 <= Search n f <= n /\
  (0 < Search n f -> f (Search n f - 1) = false) /\
  (Search n f < n -> f (Search n f) = true).
Proof.
  intros Hn. unfold Search.
  apply (Search_loop_spec 0 n (Z.to_nat n) 0 n); lia.
Qed.

End BinarySearch.

Lemma files_at_len (l : entryLog) : files_at l (len_files l) = Panicked.
Proof.
  unfold files_at, len_files.
  destruct (Z.ltb_spec (Z.of_nat (length (files l))) 0); [reflexivity|].
  rewrite Nat2Z.id, (proj2 (lookup_ge_None (files l) _)); [reflexivity|lia].
Qed.

Lemma firstIndex_ge_all_below (l : entryLog) (idx : Z) :
  Forall (fun f => firstIndex f < idx) (files l) ->
  forall k, 0 <= k < len_files l -> firstIndex_ge l idx k = false.
Proof.
  intros Hall k Hk. unfold firstIndex_ge.
  destruct (files l !! Z.to_nat k) as [f|] eqn:Hf; [|reflexivity].
  rewrite Forall_lookup in Hall. specialize (Hall _ _ Hf). cbn in Hall.
  destruct (Z.geb_spec (firstIndex f) idx); [lia|reflexivity].
Qed.

(** An index above the first index of every file sends the binary search
    to [len(l.files)], and the lookup indexes the file list there. *)
Lemma Term_beyond_first_indices (d : Disk) (l : entryLog) (idx : Z) :
  len_files l < 2 ^ 63 ->
  Forall (fun f => firstIndex f < idx) (files l) ->
  entryLog_Term d l idx = Panicked.
Proof.
  intros Hlen Hall. unfold entryLog_Term.
  rewrite Search_none.
  - now rewrite files_at_len.
  - unfold len_files in *. lia.
  - now apply firstIndex_ge_all_below.
Qed.

Lemma allEntries_beyond_first_indices (d : Disk) (l : entryLog)
    (lo hi maxSize : Z) :
  len_files l < 2 ^ 63 ->
  Forall (fun f => firstIndex f < lo) (files l) ->
  files l <> [] ->
  entryLog_allEntries d l lo hi maxSize = Panicked.
Proof.
  intros Hlen Hall Hne. unfold entryLog_allEntries.
  rewrite entryLog_FirstIndex_files.
  destruct (files l) as [|f fs] eqn:Hfs; [contradiction|].
  pose proof (Forall_inv Hall) as Hf. cbn in Hf.
  destruct (Z.ltb_spec lo (firstIndex f)); [lia|].
  rewrite Search_none.
  - now rewrite files_at_len.
  - unfold len_files in *. lia.
  - apply firstIndex_ge_all_below. now rewrite Hfs.
Qed.

(** [Term] never reports the Compacted or the Unavailable error. *)
Lemma Term_no_bounds_error (d : Disk) (l : entryLog) (idx v : Z) (e : error) :
  entryLog_Term d l idx = Ret (v, Some e) ->
  e <> ErrCompacted /\ e <> ErrUnavailable.
Proof.
  unfold entryLog_Term. cbv zeta.
  destruct (files_at l (Search (len_files l) (firstIndex_ge l idx))) as [f|];
    run_bind; [|discriminate].
  destruct (firstIndex f =? idx).
  - unfold entryFile_getEntry. cbv zeta.
    destruct (slice_ok _ _ _ _); run_bind; [|discriminate].
    destruct (mmap f); run_bind; [|discriminate].
    unfold entryFromBytes. destruct (_ || _); [|discriminate].
    intros [= _ <-]. split; discriminate.
  - destruct (files_at l _) as [ef|]; run_bind; [|discriminate].
    destruct (entryFile_getEntry d ef _) as [[[e0|] [er|]]|];
      run_bind; discriminate.
Qed.

(** ** What an append does to the log *)

Lemma rotate_spec (l l1 : entryLog) (i : Z) (d d1 : Disk) (err : option error) :
  rotate l i d = Ret (l1, err, d1) ->
  files l1 = files l ++ [{| firstIndex := i;
                            path := Join (dir l) (Sprintf_d i);
                            mmap := None |}] /\
  entryIndex l1 = 0 /\ lastIndex l1 = lastIndex l /\ dir l1 = dir l.
Proof.
  unfold rotate.
  destruct (NewMmapFile _ _ _ _ d) as [b d0].
  destruct (zeroOut _ _ d0) as [[err0 d2]|]; run_bind;
    [|discriminate].
  intros [= <- _ _]. cbn. auto.
Qed.

(** One appended entry: the tail is rotated first when it is full, then
    the entry takes the next free slot, whatever its index. *)
Lemma AddEntries_step_spec (l l' : entryLog) (re : raftEntry) (d d' : Disk) :
  AddEntries_step l re d = Ret (l', None, d') ->
  (if entryIndex l >=? maxNumEntries
   then files l' = files l ++ [{| firstIndex := reIndex re;
                                  path := Join (dir l) (Sprintf_d (reIndex re));
                                  mmap := None |}] /\
        entryIndex l' = 1
   else files l' = files l /\ entryIndex l' = entryIndex l + 1) /\
  lastIndex l' = reIndex re /\ dir l' = dir l.
Proof.
  unfold AddEntries_step.
  destruct (entryIndex l >=? maxNumEntries) eqn:Hfull.
  - destruct (rotate l (reIndex re) d) as [[[l1 err] d1]|] eqn:Hrot;
      run_bind; [|discriminate].
    apply rotate_spec in Hrot. destruct Hrot as (Hf & Hi & Hl & Hd).
    destruct err; [discriminate|].
    destruct (current l1) as [cur|]; [|discriminate].
    destruct (_ >? 0).
    + destruct (Buffer_SliceAllocateOffset _ _ _) as [[off cur']|];
        run_bind; [|discriminate].
      destruct (Buffer_ReadAt _ _ _ _) as [dst [er|]]; [discriminate|].
      intros [= <- _]. cbn. rewrite Hf, Hi, Hd. auto.
    + run_bind.
      destruct (Buffer_ReadAt _ _ _ _) as [dst [er|]]; [discriminate|].
      intros [= <- _]. cbn. rewrite Hf, Hi, Hd. auto.
  - run_bind.
    destruct (current l) as [cur|]; [|discriminate].
    destruct (_ >? 0).
    + destruct (Buffer_SliceAllocateOffset _ _ _) as [[off cur']|];
        run_bind; [|discriminate].
      destruct (Buffer_ReadAt _ _ _ _) as [dst [er|]]; [discriminate|].
      intros [= <- _]. cbn. auto.
    + run_bind.
      destruct (Buffer_ReadAt _ _ _ _) as [dst [er|]]; [discriminate|].
      intros [= <- _]. cbn. auto.
Qed.

(** [AddEntries] only ever adds: when it succeeds the files that were
    there are still there, in place, and the entry count has gone up by
    the number of entries given, whatever their indices; no entry is
    removed by an append. *)
Lemma AddEntries_only_adds (es : list raftEntry) (l l' : entryLog)
    (d d' : Disk) :
  entryLog_AddEntries l es d = Ret (l', None, d') ->
  files l <> [] -> entryIndex l <= maxNumEntries ->
  files l `prefix_of` files l' /\
  entryIndex l' <= maxNumEntries /\
  numEntries l' = numEntries l + Z.of_nat (length es).
Proof.
  revert l d. induction es as [|re es IH]; intros l d.
  - cbn. intros [= <- _] Hne Hidx. split; [reflexivity|]. split; lia.
  - cbn [entryLog_AddEntries].
    destruct (AddEntries_step l re d) as [[[l1 err] d1]|] eqn:Hstep;
      run_bind; [|discriminate].
    destruct err; [discriminate|].
    intros Hrest Hne Hidx.
    apply AddEntries_step_spec in Hstep. destruct Hstep as (Hcase & _ & _).
    assert (H1 : files l `prefix_of` files l1 /\ files l1 <> [] /\
                 entryIndex l1 <= maxNumEntries /\
                 numEntries l1 = numEntries l + 1).
    { unfold numEntries, len_files in *.
      destruct (Z.geb_spec (entryIndex l) maxNumEntries) as [Hfull|Hfree];
        destruct Hcase as [Hf Hi]; rewrite Hf, Hi.
      - split; [now apply prefix_app_r|].
        split; [now destruct (files l)|].
        split; [unfold maxNumEntries; lia|].
        rewrite length_app. cbn [length].
        destruct (files l) as [|f0 fs0]; [contradiction|]. cbn [length].
        destruct (Z.eqb_spec (Z.of_nat (S (length fs0) + 1)) 0); [lia|].
        destruct (Z.eqb_spec (Z.of_nat (S (length fs0))) 0); [lia|].
        destruct (Z.geb_spec (Z.of_nat (S (length fs0) + 1)) 1); [|lia].
        destruct (Z.geb_spec (Z.of_nat (S (length fs0))) 1); [|lia].
        unfold maxNumEntries in *. lia.
      - split; [reflexivity|]. split; [assumption|]. split; [lia|].
        destruct (files l) as [|f0 fs0]; [contradiction|]. cbn [length].
        destruct (Z.eqb_spec (Z.of_nat (S (length fs0))) 0); [lia|].
        destruct (Z.geb_spec (Z.of_nat (S (length fs0))) 1); lia. }
    destruct H1 as (Hp1 & Hne1 & Hidx1 & Hn1).
    destruct (IH _ _ Hrest Hne1 Hidx1) as (Hp & Hi' & Hn).
    split; [now transitivity (files l1)|]. split; [assumption|].
    rewrite Hn, Hn1. cbn [length]. lia.
Qed.

(** ** Reopening a directory *)

(** Opening a directory in which the scan finds an entry file fails: the
    separator handed to [strings.Split] is the empty string, the piece
    taken is ".", and [strconv.ParseUint] rejects it. *)
Lemma openEntryLog_existing_fails (d : Disk) (dirName : string)
    (fs : list entryFile) :
  getEntryFiles d dirName = Ret (fs, None) -> fs <> [] ->
  openEntryLog dirName d = Ret (None, Some (ErrOther "invalid syntax"), d).
Proof.
  intros Hscan Hne. unfold openEntryLog. rewrite Hscan.
  run_bind. cbv zeta.
  unfold len_files, lastFile, files_at, len_files. cbn [files].
  destruct fs as [|f fs'] using rev_ind; [contradiction|]. clear IHfs'.
  rewrite length_app. cbn [length].
  destruct (Z.eqb_spec (Z.of_nat (length fs' + 1)) 0); [lia|].
  destruct (Z.ltb_spec (Z.of_nat (length fs' + 1) - 1) 0); [lia|].
  replace (Z.to_nat (Z.of_nat (length fs' + 1) - 1)) with (length fs') by lia.
  rewrite list_lookup_middle by reflexivity.
  reflexivity.
Qed.

(** ** The key-value reader and the first entry *)

Lemma DiskStorage_allEntries_loop_nonempty (items : DB)
    (lo hi maxSize size lastIdx : Z) (first : bool) (es es' : list raftEntry) :
  es <> [] ->
  DiskStorage_allEntries_loop items lo hi maxSize size lastIdx first es =
    Ret es' ->
  es' <> [].
Proof.
  revert size lastIdx first es.
  induction items as [|[k e] items IH]; intros size lastIdx first es Hne.
  - cbn. congruence.
  - cbn [DiskStorage_allEntries_loop].
    destruct (AssertTrue _); run_bind; [|discriminate].
    destruct (k >=? hi); [congruence|].
    destruct (_ && _); [congruence|].
    apply IH. now destruct es.
Qed.

(** The sibling reader over the key-value store applies the size cut-off
    only after the first entry: when the first item at or after [lo] lies
    below [hi], the result holds it, whatever the size bound. *)
Lemma DiskStorage_allEntries_loop_first (items : DB) (k : Z) (e : raftEntry)
    (lo hi maxSize : Z) (es : list raftEntry) :
  k < hi ->
  DiskStorage_allEntries_loop ((k, e) :: items) lo hi maxSize 0 0 true [] =
    Ret es ->
  es <> [].
Proof.
  intros Hk. cbn [DiskStorage_allEntries_loop].
  destruct (AssertTrue _); run_bind; [|discriminate].
  destruct (Z.geb_spec k hi); [lia|].
  rewrite andb_false_r.
  apply DiskStorage_allEntries_loop_nonempty. discriminate.
Qed.

(** ** The range loop is given enough fuel *)

(** The range loop of [allEntries] never runs out of the fuel it is
    given. *)
Lemma allEntries_loop_fuel (d : Disk) (l : entryLog) (hi maxSize : Z)
    (fuel : nat) (lo fileID sz : Z) (es : list raftEntry) :
  0 <= lo -> hi < 2 ^ 64 ->
  (Z.to_nat (hi - lo) + Z.to_nat (len_files l - fileID) < fuel)%nat ->
  allEntries_loop fuel d l hi maxSize lo fileID sz es <> None.
Proof.
  intros Hlo Hhi. revert lo fileID sz es Hlo.
  induction fuel as [|fuel IH]; intros lo fileID sz es Hlo Hfuel; [lia|].
  cbn [allEntries_loop].
  destruct (Z.ltb_spec lo hi) as [Hlt|]; [|discriminate].
  destruct (Z.ltb_spec fileID (len_files l)) as [Hf|]; [|discriminate].
  cbn [andb].
  destruct (files_at l fileID) as [file|]; [|discriminate].
  destruct (u64 (lo - firstIndex file) =? maxNumEntries).
  - apply IH; [assumption|lia].
  - cbv zeta. destruct (_ >? lastIndex l); [discriminate|].
    destruct (current l) as [cur|]; [|discriminate].
    destruct (read_entry _ _ _ _) as [[[re|] [er|]]|]; try discriminate.
    destruct (_ >? maxSize); [discriminate|].
    assert (Hu : u64 (lo + 1) = lo + 1)
      by (unfold u64; apply Z.mod_small; lia).
    rewrite Hu. apply IH; lia.
Qed.

(** ** Appending over existing entries *)

(** C1. The code departs from the claim: after entries 1 to 5, saving an
    entry of index 3 truncates nothing. The last index becomes 3 as
    claimed, but the entry is written as a sixth entry behind the five
    that were there (the next free slot moves from 5 to 6 and the log
    counts 6 entries, where truncation leaves 3), and reading from index 4
    on does not give the empty list: the store's [Entries] answers
    Unavailable and the entry log's [allEntries] aborts. *)
Theorem AddEntries_overwrite_truncates_nothing :
  ran storeFive = true /\
  lastIndex (storeLog storeFive) = 5 /\
  entryIndex (storeLog storeFive) = 5 /\
  saved storeFive None [normalEntry 3 2 [120]] None = storeOverwritten /\
  ran storeOverwritten = true /\
  lastIndex (storeLog storeOverwritten) = 3 /\
  entryIndex (storeLog storeOverwritten) = 6 /\
  numEntries (storeLog storeOverwritten) = 6 /\
  DiskStorage_Entries (theStore storeOverwritten) 4 maxUint64 maxUint64 =
    Ret ([], Some ErrUnavailable) /\
  entryLog_allEntries (storeDisk storeOverwritten) (storeLog storeOverwritten)
    4 maxUint64 maxUint64 = Panicked.
Proof. by_evaluation. Qed.

(** ** Term lookup *)

(** C2. The code departs from the claim: in a store holding entry 1 and a
    snapshot at index 1, the term lookup below the snapshot index returns
    a term and no error where Compacted is claimed, and the lookup above
    the last index aborts where Unavailable is claimed. *)
Theorem Term_reports_no_bounds_error :
  ran storeSnap1 = true /\
  DiskStorage_Snapshot (storeDisk storeSnap1) (theStore storeSnap1) =
    Ret ({| snapData := []; snapConfState := [7]; snapIndex := 1;
            snapTerm := 1 |}, None) /\
  DiskStorage_LastIndex (theStore storeSnap1) = Ret (1, None) /\
  DiskStorage_Term (storeDisk storeSnap1) (theStore storeSnap1) 0 =
    Ret (1, None) /\
  DiskStorage_Term (storeDisk storeSnap1) (theStore storeSnap1) 2 = Panicked.
Proof. by_evaluation. Qed.

(** C10. The code departs from the claim: with entries 1 and 2 appended to
    a fresh log, index 1 lies between the first index 0 and the last
    index 2, the binary search over the one file yields position 1, the
    length of the file list, and the lookup aborts on the file list
    access. *)
Theorem Term_panics_within_bounds :
  ran logAB = true /\
  entryLog_FirstIndex (Some (theLog logAB)) <= 1 <=
    entryLog_LastIndex (theLog logAB) /\
  len_files (theLog logAB) = 1 /\
  Search (len_files (theLog logAB)) (firstIndex_ge (theLog logAB) 1) = 1 /\
  files_at (theLog logAB) 1 = Panicked /\
  entryLog_Term (theDisk logAB) (theLog logAB) 1 = Panicked.
Proof.
  repeat split; try (vm_compute; reflexivity); vm_compute; discriminate.
Qed.

(** ** Reading a range *)

(** C3. The code departs from the claim. With entries 1 ("a") and 2 ("bb")
    appended to a fresh log, [allEntries(1, 3, 1024)] aborts instead of
    returning them. And on the log as a directory scan reads the file
    holding entry 1 (first index 1), the size cut-off is applied to the
    first entry of the call: with a bound of 0 bytes the result is empty
    although entry 1 is stored, while a bound of 100 returns it. *)
Theorem allEntries_range_divergence :
  ran logAB = true /\
  entryLog_allEntries (theDisk logAB) (theLog logAB) 1 3 1024 = Panicked /\
  ran logOne = true /\
  getEntryFiles (theDisk logOne) walDir = Ret (files (fst logScanned), None) /\
  entryLog_allEntries (snd logScanned) (fst logScanned) 1 2 100 =
    Ret ([{| reTerm := 1; reIndex := 1; reType := 0; reData := DView 0 0 0 |}],
         None) /\
  entryLog_allEntries (snd logScanned) (fst logScanned) 1 2 0 = Ret ([], None).
Proof. by_evaluation. Qed.

(** ** Rotation, reopening and discard *)

(** The store after 30001 entries: its two files, their names, what a
    reopening of its directory finds, and the same store after a discard
    below index 30001. *)
Lemma storeRotated_observed :
  let st := storeRotated in
  ran st = true /\
  observed st =
    ([0; 30001], ["1.ent"; "wal/30001"],
     ["wal/wal.meta"; "wal/1.ent"; "wal/30001"]) /\
  numEntries (storeLog st) = 30001 /\
  rescanned st = Ret (["wal/1.ent"], None) /\
  reopened st = Ret (false, Some (ErrOther "invalid syntax")) /\
  ran (discarded st 30001) = true /\
  observed (discarded st 30001) =
    ([0; 30001], ["1.ent"; "wal/30001"],
     ["wal/wal.meta"; "wal/1.ent"; "wal/30001"]) /\
  DiskStorage_Term (storeDisk st) (theStore st) 30001 = Panicked.
Proof. vm_compute. repeat split. Qed.

(** C8. The code departs from the claim: the file created by the rotation
    at entry 30001 is named "30001", without the suffix ".ent"; the scan
    of a reopening, which keeps the paths ending in ".ent", does not find
    it; and opening a directory that holds an entry file fails on parsing
    the file number, so that no first index is recovered. *)
Theorem rotated_file_lacks_suffix :
  ran storeRotated = true /\
  observed storeRotated =
    ([0; 30001], ["1.ent"; "wal/30001"],
     ["wal/wal.meta"; "wal/1.ent"; "wal/30001"]) /\
  HasSuffix "wal/30001" ".ent" = false /\
  rescanned storeRotated = Ret (["wal/1.ent"], None) /\
  reopened storeRotated = Ret (false, Some (ErrOther "invalid syntax")) /\
  Split ".ent" "" = ["."; "e"; "n"; "t"] /\
  ParseUint "." 32 = (0, Some (ErrOther "invalid syntax")).
Proof.
  destruct storeRotated_observed
    as (Hran & Hobs & Hnum & Hscan & Hopen & Hran' & Hobs' & Ht).
  split; [exact Hran|]. split; [exact Hobs|].
  split; [vm_compute; reflexivity|].
  split; [exact Hscan|]. split; [exact Hopen|].
  split; vm_compute; reflexivity.
Qed.

(** C5. The code departs from the claim: [DiscardFiles] and the worker's
    handling of a range change nothing, whatever the index. The store
    after 30001 entries has a first file that ends at index 30000 and is
    not the tail; after the discard below index 30001 and the drain of the
    worker both files are still in the log and in the directory. The term
    lookup at index 30001 aborts before and after. *)
Theorem discard_removes_no_file :
  (forall l i d, DiscardFiles l i d = (l, None, d)) /\
  (forall st r, processSingleRange st r = st) /\
  ran storeRotated = true /\
  observed storeRotated =
    ([0; 30001], ["1.ent"; "wal/30001"],
     ["wal/wal.meta"; "wal/1.ent"; "wal/30001"]) /\
  ran (discarded storeRotated 30001) = true /\
  observed (discarded storeRotated 30001) =
    ([0; 30001], ["1.ent"; "wal/30001"],
     ["wal/wal.meta"; "wal/1.ent"; "wal/30001"]) /\
  DiskStorage_Term (storeDisk storeRotated) (theStore storeRotated) 30001 =
    Panicked.
Proof.
  destruct storeRotated_observed
    as (Hran & Hobs & Hnum & Hscan & Hopen & Hran' & Hobs' & Ht).
  split; [reflexivity|].
  split; [intros st r; unfold processSingleRange; now destruct (_ =? _)|].
  split; [exact Hran|]. split; [exact Hobs|]. split; [exact Hran'|].
  split; [exact Hobs'|exact Ht].
Qed.

(** * Further properties of the code *)

(** ** Keys of the key-value store *)

Lemma bytes_Compare_app (p a b : list Z) :
  bytes_Compare (p ++ a) (p ++ b) = bytes_Compare a b.
Proof.
  induction p as [|x p IH]; [reflexivity|].
  cbn [app bytes_Compare]. now rewrite Z.ltb_irrefl.
Qed.

Lemma PutUint64_sum (v : Z) :
  is_u64 v ->
  v = (v mod 256) + (v / 2 ^ 8) mod 256 * 2 ^ 8 + (v / 2 ^ 16) mod 256 * 2 ^ 16 +
      (v / 2 ^ 24) mod 256 * 2 ^ 24 + (v / 2 ^ 32) mod 256 * 2 ^ 32 +
      (v / 2 ^ 40) mod 256 * 2 ^ 40 + (v / 2 ^ 48) mod 256 * 2 ^ 48 +
      (v / 2 ^ 56) mod 256 * 2 ^ 56.
Proof. unfold is_u64. intros Hv. Z.div_mod_to_equations. lia. Qed.

Lemma bytes_Compare_8 (x0 x1 x2 x3 x4 x5 x6 x7 y0 y1 y2 y3 y4 y5 y6 y7 : Z) :
  is_byte x0 -> is_byte x1 -> is_byte x2 -> is_byte x3 ->
  is_byte x4 -> is_byte x5 -> is_byte x6 -> is_byte x7 ->
  is_byte y0 -> is_byte y1 -> is_byte y2 -> is_byte y3 ->
  is_byte y4 -> is_byte y5 -> is_byte y6 -> is_byte y7 ->
  let a := x7 + x6 * 2 ^ 8 + x5 * 2 ^ 16 + x4 * 2 ^ 24 + x3 * 2 ^ 32 +
           x2 * 2 ^ 40 + x1 * 2 ^ 48 + x0 * 2 ^ 56 in
  let b := y7 + y6 * 2 ^ 8 + y5 * 2 ^ 16 + y4 * 2 ^ 24 + y3 * 2 ^ 32 +
           y2 * 2 ^ 40 + y1 * 2 ^ 48 + y0 * 2 ^ 56 in
  bytes_Compare [x0; x1; x2; x3; x4; x5; x6; x7]
                [y0; y1; y2; y3; y4; y5; y6; y7] =
  if a <? b then -1 else if b <? a then 1 else 0.
Proof.
  unfold is_byte. intros. cbn [bytes_Compare].
  repeat match goal with
         | |- context [?x <? ?y] =>
             destruct (Z.ltb_spec x y)
         end; try reflexivity; lia.
Qed.

Lemma PutUint64_Compare (a b : Z) :
  is_u64 a -> is_u64 b ->
  bytes_Compare (PutUint64 a) (PutUint64 b) =
  if a <? b then -1 else if b <? a then 1 else 0.
Proof.
  intros Ha Hb. unfold PutUint64.
  rewrite !byte_of_spec, !Z.shiftr_div_pow2 by lia.
  rewrite bytes_Compare_8; unfold is_byte; try (apply Z.mod_pos_bound; lia).
  cbv zeta.
  rewrite <- (PutUint64_sum a Ha), <- (PutUint64_sum b Hb).
  reflexivity.
Qed.

(** X1. A key built by [EntryKey] is 20 bytes long, starts with the
    store's prefix, and [parseIndex] gives back the index it was built
    from. *)
Theorem EntryKey_parseIndex (w : DiskStorage) (idx : Z) (Hidx : is_u64 idx) :
  length (EntryKey w idx) = 20%nat /\
  entryPrefix w `prefix_of` EntryKey w idx /\
  parseIndex (EntryKey w idx) = Ret idx.
Proof.
  split; [reflexivity|]. split.
  - unfold EntryKey, entryPrefix. exists (PutUint64 idx).
    now rewrite <- app_assoc.
  - unfold parseIndex.
    replace (length (EntryKey w idx)) with 20%nat by reflexivity.
    change (AssertTrue _) with (Ret tt : outcome unit). run_bind.
    change (take 8 (drop 12 (EntryKey w idx))) with (PutUint64 idx).
    rewrite <- (app_nil_r (PutUint64 idx)).
    now rewrite Uint64_PutUint64.
Qed.

(** The theorem at index 30001 of the store of raft id 7. *)
Lemma EntryKey_parseIndex_witness :
  is_u64 30001 /\
  parseIndex (EntryKey (theStore initStore) 30001) = Ret 30001.
Proof.
  assert (H : is_u64 30001) by (unfold is_u64; lia).
  split; [exact H|].
  apply (EntryKey_parseIndex (theStore initStore) 30001 H).
Defined.

(** X2. The keys of one store are ordered as their indices:
    [bytes.Compare] on two keys built by [EntryKey] is the comparison of
    the two indices. *)
Theorem EntryKey_order (w : DiskStorage) (a b : Z)
    (Ha : is_u64 a) (Hb : is_u64 b) :
  bytes_Compare (EntryKey w a) (EntryKey w b) =
  if a <? b then -1 else if b <? a then 1 else 0.
Proof.
  unfold EntryKey. rewrite !bytes_Compare_app.
  now apply PutUint64_Compare.
Qed.

(** The theorem at the indices 255 and 256, whose low bytes are ordered
    the other way round. *)
Lemma EntryKey_order_witness :
  is_u64 255 /\ is_u64 256 /\
  bytes_Compare (EntryKey emptyStore 255) (EntryKey emptyStore 256) = -1.
Proof.
  assert (Ha : is_u64 255) by (unfold is_u64; lia).
  assert (Hb : is_u64 256) by (unfold is_u64; lia).
  split; [exact Ha|]. split; [exact Hb|].
  exact (EntryKey_order emptyStore 255 256 Ha Hb).
Defined.

(** ** Decoding a slot *)


Lemma nth_is_byte (b : list Z) (i : nat) : Forall is_byte b -> is_byte (nth i b 0).
Proof.
  intros Hb. rewrite nth_lookup.
  destruct (b !! i) as [x|] eqn:Hx; cbn.
  - rewrite Forall_lookup in Hb. exact (Hb _ _ Hx).
  - unfold is_byte. lia.
Qed.





(** ** Slots of an entry file *)

Lemma int64_small (x : Z) : 0 <= x < 2 ^ 63 -> int64 x = x.
Proof.
  intros Hx. unfold int64. rewrite Z.mod_small by lia.
  destruct (Z.ltb_spec x (2 ^ 63)); [reflexivity|lia].
Qed.

Lemma entryFromBytes_32 (b : list Z) :
  length b = 32%nat -> exists e, entryFromBytes b = (Some e, None).
Proof.
  intros Hlen. unfold entryFromBytes. rewrite Hlen. eexists. reflexivity.
Qed.

Lemma entryFile_getEntry_inside (d : Disk) (ef : entryFile) (h : nat)
    (idx : Z) :
  mmap ef = Some h -> 0 <= idx < 2 ^ 57 ->
  idx * entrySize + entrySize <= file_size d h ->
  exists e,
    entryFile_getEntry d ef idx = Ret (Some e, None) /\
    entryFromBytes (disk_read d h (idx * entrySize) entrySize) = (Some e, None).
Proof.
  intros Hm Hidx Hin.
  unfold entryFile_getEntry, slice_ok, entrySize in *. cbv zeta.
  rewrite (int64_small (idx * 32)) by lia.
  rewrite (int64_small (idx * 32 + 32)) by lia.
  rewrite Hm.
  destruct (Z.leb_spec 0 (idx * 32)); [|lia].
  destruct (Z.leb_spec (idx * 32) (idx * 32 + 32)); [|lia].
  destruct (Z.leb_spec (idx * 32 + 32) (file_size d h)); [|lia]. cbn [andb].
  destruct (entryFromBytes_32 (disk_read d h (idx * 32) 32)) as [e He].
  { now rewrite length_disk_read. }
  exists e. now rewrite He.
Qed.

Lemma entryFile_getEntry_outside (d : Disk) (ef : entryFile) (h : nat)
    (idx : Z) :
  mmap ef = Some h -> 0 <= idx < 2 ^ 57 ->
  file_size d h < idx * entrySize + entrySize ->
  entryFile_getEntry d ef idx = Panicked.
Proof.
  intros Hm Hidx Hout.
  unfold entryFile_getEntry, slice_ok, entrySize in *. cbv zeta.
  rewrite (int64_small (idx * 32)) by lia.
  rewrite (int64_small (idx * 32 + 32)) by lia.
  rewrite Hm.
  destruct (Z.leb_spec (idx * 32 + 32) (file_size d h)); [lia|].
  now rewrite andb_false_r.
Qed.

Lemma entryFile_getEntry_nil (d : Disk) (ef : entryFile) (idx : Z) :
  mmap ef = None -> entryFile_getEntry d ef idx = Panicked.
Proof.
  intros Hm. unfold entryFile_getEntry. cbv zeta. rewrite Hm.
  destruct (slice_ok _ _ _ _); reflexivity.
Qed.

(** X4. [getEntry] reads slot [idx] of a mapped file when the slot lies
    inside the mapping and then returns an entry and no error; it panics
    when the slot reaches beyond the mapping, and always on a file whose
    [mmap] is nil. *)
Theorem entryFile_getEntry_bounds (d : Disk) (ef : entryFile) (idx : Z)
    (Hidx : 0 <= idx < 2 ^ 57) :
  match mmap ef with
  | None => entryFile_getEntry d ef idx = Panicked
  | Some h =>
      if idx * entrySize + entrySize <=? file_size d h
      then exists e,
             entryFile_getEntry d ef idx = Ret (Some e, None) /\
             entryFromBytes (disk_read d h (idx * entrySize) entrySize) =
               (Some e, None)
      else entryFile_getEntry d ef idx = Panicked
  end.
Proof.
  destruct (mmap ef) as [h|] eqn:Hm.
  - destruct (Z.leb_spec (idx * entrySize + entrySize) (file_size d h)).
    + now apply entryFile_getEntry_inside.
    + now apply (entryFile_getEntry_outside d ef h).
  - now apply entryFile_getEntry_nil.
Qed.

(** The theorem at slot 0 of the file of the log holding one entry. *)
Lemma entryFile_getEntry_bounds_witness :
  0 <= 0 < 2 ^ 57 /\
  exists e,
    entryFile_getEntry (snd logScanned)
      {| firstIndex := 1; path := "wal/1.ent"; mmap := Some 0%nat |} 0 =
      Ret (Some e, None) /\
    entryFromBytes (disk_read (snd logScanned) 0 (0 * entrySize) entrySize) =
      (Some e, None).
Proof.
  assert (H : 0 <= 0 < 2 ^ 57) by lia.
  split; [exact H|].
  exact (entryFile_getEntry_bounds (snd logScanned)
           {| firstIndex := 1; path := "wal/1.ent"; mmap := Some 0%nat |} 0 H).
Defined.

(** [getEntry] never returns an error. *)
Lemma entryFile_getEntry_no_error (d : Disk) (ef : entryFile) (idx : Z)
    (e : option entry) (er : error) :
  entryFile_getEntry d ef idx <> Ret (e, Some er).
Proof.
  unfold entryFile_getEntry. cbv zeta.
  destruct (slice_ok _ _ _ _); [|discriminate].
  destruct (mmap ef) as [h|]; [|discriminate].
  destruct (entryFromBytes_32 (disk_read d h (int64 (idx * entrySize)) entrySize))
    as [e0 He]; [now rewrite length_disk_read|].
  rewrite He. discriminate.
Qed.

(** ** Zeroing the index region *)

Lemma file_size_disk_fill (d : Disk) (h h' : nat) (off n : Z) :
  file_size (disk_fill d h off n) h' = file_size d h'.
Proof.
  unfold file_size, disk_fill; cbn [mapped].
  destruct (decide (h = h')) as [->|Hne].
  - rewrite list_lookup_alter_eq. now destruct (mapped d !! h').
  - now rewrite list_lookup_alter_ne.
Qed.

Lemma byte_at_disk_fill_in (d : Disk) (h : nat) (off n i : Z) :
  off <= i < off + n -> byte_at (disk_fill d h off n) h i = 0.
Proof.
  unfold byte_at, disk_fill; cbn [mapped]. intros Hi.
  rewrite list_lookup_alter_eq. destruct (mapped d !! h); [|reflexivity].
  cbn [fmap option_fmap option_map fbytes].
  destruct (Z.leb_spec off i); [|lia].
  destruct (Z.ltb_spec i (off + n)); [reflexivity|lia].
Qed.

Lemma byte_at_disk_fill_out (d : Disk) (h h' : nat) (off n i : Z) :
  h' <> h \/ i < off \/ off + n <= i ->
  byte_at (disk_fill d h off n) h' i = byte_at d h' i.
Proof.
  unfold byte_at, disk_fill; cbn [mapped]. intros Hi.
  destruct (decide (h = h')) as [->|Hne].
  - rewrite list_lookup_alter_eq. destruct (mapped d !! h'); [|reflexivity].
    cbn [fmap option_fmap option_map fbytes].
    destruct (Z.leb_spec off i); [|reflexivity].
    destruct (Z.ltb_spec i (off + n)); [|reflexivity].
    destruct Hi as [Hi|Hi]; [congruence|lia].
  - now rewrite list_lookup_alter_ne.
Qed.

Lemma disk_read_zero (d : Disk) (h : nat) (off n : Z) :
  (forall i, off <= i < off + n -> byte_at d h i = 0) ->
  disk_read d h off n = replicate (Z.to_nat n) 0.
Proof.
  intros Hz. unfold disk_read. apply list_eq. intros i.
  rewrite list_lookup_fmap.
  destruct (decide (Z.of_nat i < n)) as [Hlt|Hge].
  - rewrite lookup_seqZ_lt by lia. cbn [fmap option_fmap option_map].
    rewrite Hz by lia. symmetry. apply lookup_replicate_2. lia.
  - rewrite lookup_seqZ_ge by lia. symmetry.
    apply lookup_replicate_None. lia.
Qed.

Lemma zeroOut_fill (l : entryLog) (cur : Buffer) (d : Disk) (from : Z) :
  current l = Some cur -> 0 <= from < maxNumEntries ->
  entrySize * maxNumEntries <= file_size d (bfile cur) ->
  zeroOut l from d =
    Ret (None, disk_fill d (bfile cur) (from * entrySize)
                 (entrySize * maxNumEntries - from * entrySize)).
Proof.
  intros Hcur Hfrom Hsize.
  unfold zeroOut, Buffer_First, maxNumEntries, entrySize in *. rewrite Hcur.
  destruct (Z.geb_spec from 30000); [lia|].
  destruct (Z.ltb_spec (file_size d (bfile cur)) (32 * 30000)); [lia|].
  cbv zeta. rewrite (int64_small (from * 32)) by lia.
  destruct (Z.ltb_spec (32 * 30000 - from * 32) 0); [lia|].
  destruct (Z.ltb_spec (from * 32) 0); [lia|]. reflexivity.
Qed.

Lemma getEntry_after_fill (d : Disk) (ef : entryFile) (h : nat) (from k : Z) :
  mmap ef = Some h -> 0 <= from -> from <= k < maxNumEntries ->
  entrySize * maxNumEntries <= file_size d h ->
  entryFile_getEntry
    (disk_fill d h (from * entrySize)
       (entrySize * maxNumEntries - from * entrySize)) ef k =
    Ret (Some emptyEntry, None).
Proof.
  intros Hm Hfrom Hk Hsize. unfold maxNumEntries, entrySize in *.
  destruct (entryFile_getEntry_inside
              (disk_fill d h (from * 32) (32 * 30000 - from * 32)) ef h k Hm)
    as (e & Hget & Hdec); [lia| |].
  { rewrite file_size_disk_fill. unfold entrySize. lia. }
  rewrite Hget. unfold entrySize in Hdec.
  rewrite disk_read_zero in Hdec.
  - cbv in Hdec. now injection Hdec as <-.
  - intros i Hi. apply byte_at_disk_fill_in. lia.
Qed.

(** X5. [zeroOut(from)] on a current file whose mapping holds the index
    region clears every slot from [from] on, so that each of them reads
    back as the all-zero entry, and changes no other byte of any file. *)
Theorem zeroOut_clears (l : entryLog) (cur : Buffer) (d : Disk) (from : Z)
    (Hcur : current l = Some cur)
    (Hfrom : 0 <= from < maxNumEntries)
    (Hsize : entrySize * maxNumEntries <= file_size d (bfile cur)) :
  exists d',
    zeroOut l from d = Ret (None, d') /\
    (forall ef k, mmap ef = Some (bfile cur) -> from <= k < maxNumEntries ->
       entryFile_getEntry d' ef k = Ret (Some emptyEntry, None)) /\
    (forall h i, h <> bfile cur \/ i < from * entrySize \/
                 entrySize * maxNumEntries <= i ->
       byte_at d' h i = byte_at d h i) /\
    (forall h, file_size d' h = file_size d h) /\
    names d' = names d.
Proof.
  eexists. split; [now apply (zeroOut_fill l cur)|].
  split; [|split; [|split]].
  - intros ef k Hm Hk. apply getEntry_after_fill; (assumption || lia).
  - intros h i Hi. apply byte_at_disk_fill_out. lia.
  - intros h. apply file_size_disk_fill.
  - reflexivity.
Qed.

(** The theorem at the fresh log, cleared from slot 0. *)
Lemma zeroOut_clears_witness :
  let l := theLog freshLog in
  let cur := {| bfile := 0; boff := entryFileOffset |} in
  current l = Some cur /\ 0 <= 0 < maxNumEntries /\
  entrySize * maxNumEntries <= file_size (theDisk freshLog) (bfile cur) /\
  exists d', zeroOut l 0 (theDisk freshLog) = Ret (None, d').
Proof.
  intros l cur.
  assert (Hcur : current l = Some cur) by (vm_compute; reflexivity).
  assert (Hfrom : 0 <= 0 < maxNumEntries) by (unfold maxNumEntries; lia).
  assert (Hsize : entrySize * maxNumEntries <=
                  file_size (theDisk freshLog) (bfile cur))
    by (vm_compute; discriminate).
  split; [exact Hcur|]. split; [exact Hfrom|]. split; [exact Hsize|].
  destruct (zeroOut_clears l cur (theDisk freshLog) 0 Hcur Hfrom Hsize)
    as (d' & Hz & _).
  exists d'. exact Hz.
Defined.

(** ** The first empty slot *)

Lemma entryLog_getEntry_lastFile (d : Disk) (l : entryLog) (ef : entryFile)
    (n : Z) :
  lastFile l = Ret ef -> n < maxNumEntries ->
  entryLog_getEntry d l n = entryFile_getEntry d ef n.
Proof.
  intros Hlf Hn. unfold entryLog_getEntry, entryFile_getEntry.
  destruct (Z.geb_spec n maxNumEntries); [lia|].
  cbv zeta. rewrite Hlf. reflexivity.
Qed.

Lemma firstEmpty_loop_spec (d : Disk) (l : entryLog) (n : nat) (i0 i : Z) :
  firstEmpty_loop d l n i0 = Ret (i, None) ->
  i0 + Z.of_nat n = maxNumEntries ->
  i0 <= i <= maxNumEntries /\
  (i < maxNumEntries ->
   exists e, entryLog_getEntry d l i = Ret (Some e, None) /\ Index e = 0) /\
  (forall k, i0 <= k < i ->
   exists e, entryLog_getEntry d l k = Ret (Some e, None) /\ Index e <> 0).
Proof.
  revert i0. induction n as [|n IH]; intros i0.
  - cbn. intros [= <-] Hi0. split; [lia|]. split; intros; lia.
  - cbn [firstEmpty_loop].
    destruct (entryLog_getEntry d l i0) as [[[e|] [er|]]|] eqn:Hget; run_bind;
      try discriminate.
    destruct (Z.eqb_spec (Index e) 0) as [Hz|Hnz].
    + intros [= <-] Hi0. split; [lia|]. split; [|intros; lia].
      intros _. now exists e.
    + intros Hloop Hi0.
      destruct (IH _ Hloop ltac:(lia)) as (Hr & Hat & Hbelow).
      split; [lia|]. split; [exact Hat|].
      intros k Hk. destruct (Z.eq_dec k i0) as [->|Hne].
      * now exists e.
      * apply Hbelow. lia.
Qed.

(** X6. When [firstEmpty] returns a slot number, that number lies between
    0 and [maxNumEntries], the slot there (if below [maxNumEntries]) holds
    index 0, and every slot before it holds a non-zero index. *)
Theorem firstEmpty_spec (d : Disk) (l : entryLog) (i : Z)
    (Hfe : firstEmpty d l = Ret (i, None)) :
  0 <= i <= maxNumEntries /\
  (i < maxNumEntries ->
   exists e, entryLog_getEntry d l i = Ret (Some e, None) /\ Index e = 0) /\
  (forall k, 0 <= k < i ->
   exists e, entryLog_getEntry d l k = Ret (Some e, None) /\ Index e <> 0).
Proof.
  apply (firstEmpty_loop_spec d l (Z.to_nat maxNumEntries) 0 i Hfe).
  unfold maxNumEntries. lia.
Qed.

(** The theorem at the log holding one entry: slot 0 is taken, slot 1 is
    the first empty one. *)
Lemma firstEmpty_spec_witness :
  firstEmpty (theDisk logOne) (theLog logOne) = Ret (1, None) /\
  0 <= 1 <= maxNumEntries.
Proof.
  assert (H : firstEmpty (theDisk logOne) (theLog logOne) = Ret (1, None))
    by (vm_compute; reflexivity).
  split; [exact H|].
  exact (proj1 (firstEmpty_spec (theDisk logOne) (theLog logOne) 1 H)).
Defined.

(** The search finds a slot on every log whose last file is mapped over
    the index region. *)
Lemma firstEmpty_loop_total (d : Disk) (l : entryLog) (ef : entryFile)
    (h : nat) (n : nat) (i0 : Z) :
  lastFile l = Ret ef -> mmap ef = Some h ->
  entrySize * maxNumEntries <= file_size d h ->
  0 <= i0 -> i0 + Z.of_nat n = maxNumEntries ->
  exists i, firstEmpty_loop d l n i0 = Ret (i, None).
Proof.
  intros Hlf Hm Hsize. revert i0. induction n as [|n IH]; intros i0 Hi0 Hsum.
  - eexists. reflexivity.
  - cbn [firstEmpty_loop].
    rewrite (entryLog_getEntry_lastFile d l ef) by (assumption || lia).
    destruct (entryFile_getEntry_inside d ef h i0 Hm) as (e & -> & _);
      [unfold maxNumEntries in *; lia
      |unfold entrySize, maxNumEntries in *; lia|].
    run_bind.
    destruct (Index e =? 0); [eexists; reflexivity|].
    apply IH; lia.
Qed.

(** X7. After [zeroOut(from)] on the current file, [firstEmpty] finds its
    slot at [from] or before it. *)
Theorem firstEmpty_after_zeroOut (l : entryLog) (cur : Buffer) (ef : entryFile)
    (d d' : Disk) (from : Z)
    (Hcur : current l = Some cur)
    (Hlf : lastFile l = Ret ef) (Hm : mmap ef = Some (bfile cur))
    (Hfrom : 0 <= from < maxNumEntries)
    (Hsize : entrySize * maxNumEntries <= file_size d (bfile cur))
    (Hz : zeroOut l from d = Ret (None, d')) :
  exists i, firstEmpty d' l = Ret (i, None) /\ 0 <= i <= from.
Proof.
  rewrite (zeroOut_fill l cur d from Hcur Hfrom Hsize) in Hz.
  injection Hz as <-.
  destruct (firstEmpty_loop_total
              (disk_fill d (bfile cur) (from * entrySize)
                 (entrySize * maxNumEntries - from * entrySize))
              l ef (bfile cur) (Z.to_nat maxNumEntries) 0 Hlf Hm)
    as [i Hi];
    try (rewrite ?file_size_disk_fill; unfold maxNumEntries in *; lia).
  exists i. split; [exact Hi|].
  destruct (firstEmpty_loop_spec _ l (Z.to_nat maxNumEntries) 0 i Hi)
    as (Hr & _ & Hbelow); [unfold maxNumEntries; lia|].
  split; [lia|].
  destruct (Z.le_gt_cases i from) as [|Hgt]; [assumption|].
  destruct (Hbelow from ltac:(lia)) as (e & Hget & Hnz).
  rewrite (entryLog_getEntry_lastFile _ l ef) in Hget by (assumption || lia).
  rewrite (getEntry_after_fill d ef (bfile cur) from from Hm) in Hget
    by (assumption || lia).
  injection Hget as <-. now cbn in Hnz.
Qed.

(** The theorem at the fresh log, cleared from slot 3. *)
Lemma firstEmpty_after_zeroOut_witness :
  let l := theLog freshLog in
  let cur := {| bfile := 0; boff := entryFileOffset |} in
  let ef := {| firstIndex := 0; path := "1.ent"; mmap := Some 0%nat |} in
  exists d' i,
    zeroOut l 3 (theDisk freshLog) = Ret (None, d') /\
    firstEmpty d' l = Ret (i, None) /\ 0 <= i <= 3.
Proof.
  intros l cur ef.
  assert (Hcur : current l = Some cur) by (vm_compute; reflexivity).
  assert (Hlf : lastFile l = Ret ef) by (vm_compute; reflexivity).
  assert (Hm : mmap ef = Some (bfile cur)) by reflexivity.
  assert (Hfrom : 0 <= 3 < maxNumEntries) by (unfold maxNumEntries; lia).
  assert (Hsize : entrySize * maxNumEntries <=
                  file_size (theDisk freshLog) (bfile cur))
    by (vm_compute; discriminate).
  pose proof (zeroOut_fill l cur (theDisk freshLog) 3 Hcur Hfrom Hsize) as Hz.
  destruct (firstEmpty_after_zeroOut l cur ef (theDisk freshLog) _ 3
              Hcur Hlf Hm Hfrom Hsize Hz) as (i & Hi & Hr).
  eexists _, i. split; [exact Hz|]. split; [exact Hi|exact Hr].
Defined.

(** ** Opening an empty directory *)

Lemma openEntryLog_on_empty (d : Disk) (dirName : string) :
  getEntryFiles d dirName = Ret ([], None) ->
  lookup_name d (Join dirName "1.ent") = None ->
  let h := length (mapped d) in
  openEntryLog dirName d =
    Ret (Some {| files := [{| firstIndex := 0; path := "1.ent";
                              mmap := Some h |}];
                 currentFid := 1;
                 current := Some {| bfile := h; boff := entryFileOffset |};
                 entryIndex := 0; lastIndex := 0; dir := dirName |},
         None,
         disk_fill
           {| mapped := mapped d ++
                        [{| fbytes := fun _ : Z => 0;
                            fsize := entryFileMaxSize |}];
              names := names d ++ [(Join dirName "1.ent", h)] |}
           h 0 (entrySize * maxNumEntries - 0)).
Proof.
  intros Hscan Hnew h. unfold openEntryLog. rewrite Hscan. run_bind. cbv zeta.
  change (len_files _ =? 0) with true. cbv iota. run_bind.
  change (Sprintf_d 1 +:+ ".ent") with "1.ent".
  unfold NewMmapFile. rewrite Hnew. fold h.
  change (negb (Z.of_nat (length (@nil entryFile)) =? 0)) with false.
  cbv iota. run_bind. cbn [files app entryIndex].
  unfold zeroOut. cbn [current].
  change (0 >=? maxNumEntries) with false. cbv iota.
  unfold Buffer_First. cbn [bfile].
  assert (Hsz : file_size
            {| mapped := mapped d ++
                         [{| fbytes := fun _ : Z => 0;
                             fsize := entryFileMaxSize |}];
               names := names d ++ [(Join dirName "1.ent", h)] |} h =
          entryFileMaxSize).
  { unfold file_size. cbn [mapped]. unfold h.
    now rewrite list_lookup_middle. }
  rewrite Hsz.
  change (entryFileMaxSize <? entrySize * maxNumEntries) with false.
  cbv iota zeta.
  change (int64 (0 * entrySize)) with 0.
  change ((entrySize * maxNumEntries - 0 <? 0) || (0 <? 0)) with false.
  cbv iota. run_bind. reflexivity.
Qed.

Lemma byte_at_fresh_file (d : Disk) (nm : list (string * nat)) (off n i : Z) :
  byte_at
    (disk_fill
       {| mapped := mapped d ++
                    [{| fbytes := fun _ : Z => 0; fsize := entryFileMaxSize |}];
          names := nm |}
       (length (mapped d)) off n) (length (mapped d)) i = 0.
Proof.
  unfold byte_at, disk_fill. cbn [mapped].
  rewrite list_lookup_alter_eq.
  rewrite list_lookup_middle by reflexivity.
  cbn [fmap option_fmap option_map fbytes]. now destruct (_ && _).
Qed.

(** X8. On a directory in which the scan finds no entry file,
    [openEntryLog] creates the file "1.ent" there, mapped to the maximum
    size and all zero, and returns a log with that one file (first index
    0), the cursor at the start of the payload area, no entry and last
    index 0; the files already on the disk keep their bytes. *)
Theorem openEntryLog_fresh (d : Disk) (dirName : string)
    (Hscan : getEntryFiles d dirName = Ret ([], None))
    (Hnew : lookup_name d (Join dirName "1.ent") = None) :
  let h := length (mapped d) in
  exists d',
    openEntryLog dirName d =
      Ret (Some {| files := [{| firstIndex := 0; path := "1.ent";
                                mmap := Some h |}];
                   currentFid := 1;
                   current := Some {| bfile := h; boff := entryFileOffset |};
                   entryIndex := 0; lastIndex := 0; dir := dirName |},
           None, d') /\
    names d' = names d ++ [(Join dirName "1.ent", h)] /\
    file_size d' h = entryFileMaxSize /\
    (forall i, byte_at d' h i = 0) /\
    (forall h' i, h' <> h -> byte_at d' h' i = byte_at d h' i).
Proof.
  intros h. eexists.
  split; [exact (openEntryLog_on_empty d dirName Hscan Hnew)|].
  split; [reflexivity|]. split; [|split].
  - rewrite file_size_disk_fill. unfold file_size. cbn [mapped]. unfold h.
    now rewrite list_lookup_middle.
  - intros i. apply byte_at_fresh_file.
  - intros h' i Hne. rewrite byte_at_disk_fill_out by auto.
    unfold byte_at. cbn [mapped].
    destruct (decide (h' < length (mapped d))%nat).
    + now rewrite lookup_app_l by lia.
    + rewrite (proj2 (lookup_ge_None (mapped d) h')) by lia.
      rewrite lookup_app_r by lia.
      destruct (h' - length (mapped d))%nat as [|k] eqn:Hk; [unfold h in Hne; lia|].
      reflexivity.
Qed.

(** The theorem at the empty disk and the directory "wal". *)
Lemma openEntryLog_fresh_witness :
  getEntryFiles emptyDisk walDir = Ret ([], None) /\
  lookup_name emptyDisk (Join walDir "1.ent") = None /\
  exists d', opened walDir emptyDisk =
             Some ({| files := [{| firstIndex := 0; path := "1.ent";
                                   mmap := Some 0%nat |}];
                      currentFid := 1;
                      current := Some {| bfile := 0; boff := entryFileOffset |};
                      entryIndex := 0; lastIndex := 0; dir := walDir |}, d').
Proof.
  assert (Hscan : getEntryFiles emptyDisk walDir = Ret ([], None))
    by (vm_compute; reflexivity).
  assert (Hnew : lookup_name emptyDisk (Join walDir "1.ent") = None)
    by (vm_compute; reflexivity).
  split; [exact Hscan|]. split; [exact Hnew|].
  destruct (openEntryLog_fresh emptyDisk walDir Hscan Hnew) as (d' & Ho & _).
  exists d'. unfold opened. rewrite Ho. reflexivity.
Defined.

(** ** The directory scan *)

Lemma insert_sorted_perm (f : entryFile) (fs : list entryFile) :
  insert_sorted f fs ≡ₚ f :: fs.
Proof.
  induction fs as [|g fs IH]; [reflexivity|].
  cbn [insert_sorted]. destruct (firstIndex f <? firstIndex g); [reflexivity|].
  rewrite IH. apply Permutation_swap.
Qed.

Lemma insert_sorted_sorted (f : entryFile) (fs : list entryFile) :
  StronglySorted firstIndex_le fs ->
  StronglySorted firstIndex_le (insert_sorted f fs).
Proof.
  induction fs as [|g fs IH]; intros Hs.
  - repeat constructor.
  - cbn [insert_sorted]. apply StronglySorted_inv in Hs as [Hs Hg].
    destruct (Z.ltb_spec (firstIndex f) (firstIndex g)).
    + constructor; [now constructor|].
      constructor; [unfold firstIndex_le; lia|].
      eapply Forall_impl; [exact Hg|]. unfold firstIndex_le. intros; lia.
    + constructor; [now apply IH|].
      rewrite insert_sorted_perm. constructor; [unfold firstIndex_le; lia|].
      exact Hg.
Qed.

Lemma sort_files_perm (fs : list entryFile) : sort_files fs ≡ₚ fs.
Proof.
  induction fs as [|f fs IH]; [reflexivity|].
  cbn. rewrite insert_sorted_perm. now rewrite IH.
Qed.

Lemma sort_files_sorted (fs : list entryFile) :
  StronglySorted firstIndex_le (sort_files fs).
Proof.
  induction fs as [|f fs IH]; [constructor|].
  cbn. now apply insert_sorted_sorted.
Qed.

Lemma getEntryFile_scanned (d : Disk) (p : string) (f : entryFile) :
  getEntryFile d p = Ret (Some f, None) -> path f = p /\ scanned_from d f.
Proof.
  unfold getEntryFile, scanned_from.
  destruct (lookup_name d p) as [h|] eqn:Hh; [|discriminate].
  destruct (entryFromBytes _) as [[e|] [er|]] eqn:He; try discriminate.
  intros [= <-]. cbn. split; [reflexivity|]. now exists h, e.
Qed.

Lemma getEntryFiles_loop_spec (d : Disk) (paths : list string)
    (acc fs : list entryFile) :
  getEntryFiles_loop d paths acc = Ret (fs, None) ->
  exists fs0,
    Forall2 (fun p f => path f = p /\ scanned_from d f) paths fs0 /\
    fs = sort_files (acc ++ fs0).
Proof.
  revert acc. induction paths as [|p paths IH]; intros acc.
  - cbn. intros [= <-]. exists []. split; [constructor|].
    now rewrite app_nil_r.
  - cbn [getEntryFiles_loop].
    destruct (getEntryFile d p) as [[[f|] [er|]]|] eqn:Hp; run_bind;
      try discriminate.
    intros Hloop. destruct (IH _ Hloop) as (fs0 & Hall & ->).
    exists (f :: fs0). split.
    + constructor; [now apply getEntryFile_scanned|exact Hall].
    + now rewrite <- app_assoc.
Qed.

(** X9. When the directory scan succeeds, the files it returns are in
    ascending order of first index; there is one for each path below the
    directory that ends in ".ent", each mapped to the file of its path and
    carrying the index found in slot 0 of that file as first index. *)
Theorem getEntryFiles_sorted (d : Disk) (dirName : string)
    (fs : list entryFile)
    (Hscan : getEntryFiles d dirName = Ret (fs, None)) :
  StronglySorted firstIndex_le fs /\
  Forall (fun f => HasSuffix (path f) ".ent" = true /\ scanned_from d f) fs /\
  path <$> fs ≡ₚ
    filter (fun p => String.prefix (dirName +:+ "/") p &&
                     HasSuffix p ".ent" = true) (fst <$> names d).
Proof.
  unfold getEntryFiles, WalkPathFunc in Hscan. cbv zeta in Hscan.
  apply getEntryFiles_loop_spec in Hscan. destruct Hscan as (fs0 & Hall & ->).
  cbn [app] in *.
  assert (Hpaths : path <$> fs0 =
            filter (fun p => String.prefix (dirName +:+ "/") p &&
                             HasSuffix p ".ent" = true) (fst <$> names d)).
  { match type of Hall with
    | Forall2 _ ?ps _ =>
        replace (filter _ (fst <$> names d)) with ps
    end.
    - clear -Hall. induction Hall as [|p f ps fs [Hp _] _ IH]; [reflexivity|].
      cbn. now rewrite Hp, IH.
    - apply list_filter_iff. intros p. cbn.
      destruct (String.prefix _ p); cbn; [|tauto].
      destruct (HasSuffix p ".ent"); tauto. }
  split; [apply sort_files_sorted|]. split.
  - rewrite sort_files_perm.
    assert (Hsuf : Forall (fun p => HasSuffix p ".ent" = true) (path <$> fs0)).
    { rewrite Hpaths. apply Forall_forall. intros p Hin.
      apply list_elem_of_filter in Hin.
      destruct Hin as [Hp _].
      apply andb_prop in Hp. tauto. }
    clear Hpaths. induction Hall as [|p f ps fs' [Hp Hsc] _ IH];
      [constructor|].
    cbn in Hsuf. apply Forall_cons in Hsuf as [Hs Hsuf].
    constructor; [split; assumption|]. now apply IH.
  - now rewrite sort_files_perm, Hpaths.
Qed.

(** The theorem at the directory of the log holding one entry. *)
Lemma getEntryFiles_sorted_witness :
  exists fs,
    getEntryFiles (theDisk logOne) walDir = Ret (fs, None) /\
    StronglySorted firstIndex_le fs.
Proof.
  exists [{| firstIndex := 1; path := "wal/1.ent"; mmap := Some 0%nat |}].
  assert (H : getEntryFiles (theDisk logOne) walDir =
              Ret ([{| firstIndex := 1; path := "wal/1.ent";
                       mmap := Some 0%nat |}], None))
    by (vm_compute; reflexivity).
  split; [exact H|].
  exact (proj1 (getEntryFiles_sorted (theDisk logOne) walDir _ H)).
Defined.

(** ** Appends and the disk *)

Lemma names_NewMmapFile (sz maxSz off : Z) (p : string) (d d' : Disk)
    (b : Buffer) :
  NewMmapFile sz maxSz off p d = (b, d') ->
  names d `prefix_of` names d' /\
  (forall h, (h < length (mapped d))%nat -> file_size d' h = file_size d h).
Proof.
  unfold NewMmapFile. destruct (lookup_name d p).
  - intros [= _ <-]. split; [reflexivity|auto].
  - intros [= _ <-]. cbn [names]. split; [now apply prefix_app_r|].
    intros h Hh. unfold file_size. cbn [mapped].
    now rewrite lookup_app_l by assumption.
Qed.

Lemma length_mapped_NewMmapFile (sz maxSz off : Z) (p : string) (d d' : Disk)
    (b : Buffer) :
  NewMmapFile sz maxSz off p d = (b, d') ->
  (length (mapped d) <= length (mapped d'))%nat.
Proof.
  unfold NewMmapFile. destruct (lookup_name d p); intros [= _ <-];
    cbn [mapped]; [lia|]. rewrite length_app. lia.
Qed.

Lemma zeroOut_disk (l : entryLog) (from : Z) (d d' : Disk)
    (err : option error) :
  zeroOut l from d = Ret (err, d') ->
  names d' = names d /\ length (mapped d') = length (mapped d) /\
  (forall h, file_size d' h = file_size d h).
Proof.
  unfold zeroOut. destruct (from >=? maxNumEntries).
  - intros [= _ <-]. auto.
  - destruct (current l) as [cur|]; [|intros [= _ <-]; auto].
    destruct (Buffer_First d cur _); [intros [= _ <-]; auto|].
    cbv zeta. destruct (_ || _); [discriminate|].
    intros [= _ <-]. split; [reflexivity|]. split.
    + unfold disk_fill. cbn [mapped]. now rewrite length_alter.
    + intros h. apply file_size_disk_fill.
Qed.

Lemma length_mapped_disk_write (d : Disk) (h : nat) (off : Z) (bs : list Z) :
  length (mapped (disk_write d h off bs)) = length (mapped d).
Proof. unfold disk_write. cbn [mapped]. now rewrite length_alter. Qed.

(** What one turn of the append loop leaves of the disk. *)
Lemma AddEntries_step_disk (l l' : entryLog) (re : raftEntry) (d d' : Disk)
    (err : option error) :
  AddEntries_step l re d = Ret (l', err, d') ->
  names d `prefix_of` names d' /\
  (length (mapped d) <= length (mapped d'))%nat /\
  (forall h, (h < length (mapped d))%nat -> file_size d' h = file_size d h).
Proof.
  unfold AddEntries_step.
  assert (Hpre : exists l1 err1 d1,
    (if entryIndex l >=? maxNumEntries then rotate l (reIndex re) d
     else Ret (l, None, d)) = Ret (l1, err1, d1) /\
    names d `prefix_of` names d1 /\
    (length (mapped d) <= length (mapped d1))%nat /\
    (forall h, (h < length (mapped d))%nat -> file_size d1 h = file_size d h)
    \/ (if entryIndex l >=? maxNumEntries then rotate l (reIndex re) d
        else Ret (l, None, d)) = Panicked).
  { destruct (entryIndex l >=? maxNumEntries).
    - unfold rotate.
      destruct (NewMmapFile _ _ _ _ d) as [b d0] eqn:Hnew.
      destruct (names_NewMmapFile _ _ _ _ _ _ _ Hnew) as [Hn Hs].
      pose proof (length_mapped_NewMmapFile _ _ _ _ _ _ _ Hnew) as Hl.
      destruct (zeroOut _ _ d0) as [[err0 d2]|] eqn:Hz; run_bind.
      + destruct (zeroOut_disk _ _ _ _ _ Hz) as (Hn2 & Hl2 & Hs2).
        eexists _, err0, d2. left. split; [reflexivity|].
        rewrite Hn2, Hl2. split; [assumption|]. split; [assumption|].
        intros h Hh. now rewrite Hs2, Hs.
      + exists l, None, d. now right.
    - exists l, None, d. left. split; [reflexivity|].
      split; [reflexivity|]. split; [lia|auto]. }
  destruct Hpre as (l1 & err1 & d1 & [(-> & Hn & Hl & Hs)| ->]);
    run_bind; [|discriminate].
  destruct err1 as [er|]; [intros [= _ _ <-]; auto|].
  destruct (current l1) as [cur|]; [|discriminate].
  destruct (_ >? 0).
  - destruct (Buffer_SliceAllocateOffset _ _ _) as [[off cur']|];
      run_bind; [|discriminate].
    destruct (Buffer_ReadAt _ _ _ _) as [dst [er|]]; intros [= _ _ <-];
      (split; [exact Hn|split; [now rewrite ?length_mapped_disk_write|]]);
      intros h Hh; rewrite ?file_size_disk_write; now apply Hs.
  - run_bind.
    destruct (Buffer_ReadAt _ _ _ _) as [dst [er|]]; intros [= _ _ <-];
      (split; [exact Hn|split; [now rewrite ?length_mapped_disk_write|]]);
      intros h Hh; rewrite ?file_size_disk_write; now apply Hs.
Qed.

Lemma AddEntries_disk (es : list raftEntry) (l l' : entryLog) (d d' : Disk)
    (err : option error) :
  entryLog_AddEntries l es d = Ret (l', err, d') ->
  names d `prefix_of` names d' /\
  (length (mapped d) <= length (mapped d'))%nat /\
  (forall h, (h < length (mapped d))%nat -> file_size d' h = file_size d h).
Proof.
  revert l d. induction es as [|re es IH]; intros l d.
  - cbn. intros [= _ _ <-]. split; [reflexivity|]. split; [lia|auto].
  - cbn [entryLog_AddEntries].
    destruct (AddEntries_step l re d) as [[[l1 err1] d1]|] eqn:Hstep;
      run_bind; [|discriminate].
    destruct (AddEntries_step_disk _ _ _ _ _ _ Hstep) as (Hn & Hl & Hs).
    destruct err1 as [er|]; [intros [= _ _ <-]; auto|].
    intros Hrest. destruct (IH _ _ Hrest) as (Hn' & Hl' & Hs').
    split; [now transitivity (names d1)|]. split; [lia|].
    intros h Hh. rewrite Hs' by lia. now apply Hs.
Qed.

Lemma AddEntries_last (es : list raftEntry) (re : raftEntry)
    (l l' : entryLog) (d d' : Disk) :
  entryLog_AddEntries l (es ++ [re]) d = Ret (l', None, d') ->
  lastIndex l' = reIndex re /\ dir l' = dir l.
Proof.
  revert l d. induction es as [|re0 es IH]; intros l d.
  - cbn [app entryLog_AddEntries].
    destruct (AddEntries_step l re d) as [[[l1 [er|]] d1]|] eqn:Hstep;
      run_bind; try discriminate.
    intros [= <- _]. apply AddEntries_step_spec in Hstep. tauto.
  - cbn [app entryLog_AddEntries].
    destruct (AddEntries_step l re0 d) as [[[l1 [er|]] d1]|] eqn:Hstep;
      run_bind; try discriminate.
    intros Hrest. destruct (IH _ _ Hrest) as [Hl Hd].
    apply AddEntries_step_spec in Hstep. destruct Hstep as (_ & _ & Hd1).
    split; [assumption|congruence].
Qed.

(** X11. A successful append of a non-empty run of entries leaves the
    last index at the index of the last entry given, whatever the indices
    were; it keeps the directory and the list of files as a prefix, counts
    one more entry for each one given, and removes, renames or resizes no
    file on disk. *)
Theorem AddEntries_effects (es : list raftEntry) (re : raftEntry)
    (l l' : entryLog) (d d' : Disk)
    (Hfiles : files l <> []) (Hidx : entryIndex l <= maxNumEntries)
    (Hadd : entryLog_AddEntries l (es ++ [re]) d = Ret (l', None, d')) :
  lastIndex l' = reIndex re /\ dir l' = dir l /\
  files l `prefix_of` files l' /\
  numEntries l' = numEntries l + Z.of_nat (length es) + 1 /\
  names d `prefix_of` names d' /\
  (forall h, (h < length (mapped d))%nat -> file_size d' h = file_size d h).
Proof.
  destruct (AddEntries_last _ _ _ _ _ _ Hadd) as [Hl Hd].
  destruct (AddEntries_only_adds _ _ _ _ _ Hadd Hfiles Hidx) as (Hp & _ & Hn).
  destruct (AddEntries_disk _ _ _ _ _ _ Hadd) as (Hnm & _ & Hs).
  rewrite length_app in Hn. cbn [length] in Hn.
  repeat split; try assumption. lia.
Qed.

(** A run that reached its end went through the append it names. *)
Lemma added_ran (st : option logState) (es : list raftEntry) :
  ran (added st es) = true ->
  entryLog_AddEntries (theLog st) es (theDisk st) =
    Ret (theLog (added st es), None, theDisk (added st es)).
Proof.
  destruct st as [[l d]|]; cbn; [|discriminate].
  destruct (entryLog_AddEntries l es d) as [[[l' [er|]] d']|]; cbn;
    try discriminate.
  reflexivity.
Qed.

(** The theorem at the two entries appended to the fresh log. *)
Lemma AddEntries_effects_witness :
  files (theLog freshLog) <> [] /\
  entryIndex (theLog freshLog) <= maxNumEntries /\
  entryLog_AddEntries (theLog freshLog)
    ([normalEntry 1 1 [97]] ++ [normalEntry 2 1 [98; 98]])
    (theDisk freshLog) = Ret (theLog logAB, None, theDisk logAB) /\
  lastIndex (theLog logAB) = 2.
Proof.
  assert (Hfiles : files (theLog freshLog) <> []) by (vm_compute; discriminate).
  assert (Hidx : entryIndex (theLog freshLog) <= maxNumEntries)
    by (vm_compute; discriminate).
  assert (Hran : ran logAB = true) by (vm_compute; reflexivity).
  pose proof (added_ran freshLog _ Hran) as Hadd.
  split; [exact Hfiles|]. split; [exact Hidx|]. split; [exact Hadd|].
  exact (proj1 (AddEntries_effects [normalEntry 1 1 [97]]
                  (normalEntry 2 1 [98; 98]) _ _ _ _ Hfiles Hidx Hadd)).
Defined.

(** ** The first slot of a file *)

Lemma length_Bytes (e : entry) : length (Bytes (Some e)) = 32%nat.
Proof. reflexivity. Qed.

Lemma disk_read_nil (d : Disk) (h : nat) (off : Z) : disk_read d h off 0 = [].
Proof. reflexivity. Qed.

(** X12. An entry appended to a log whose current file is empty is read
    back from slot 0 with its term, index and type, the payload offset
    pointing at the cursor where the payload (if any) was placed, and the
    payload bytes are found there; the cursor has moved past them. *)
Theorem AddEntries_first_slot (l : entryLog) (cur : Buffer) (ef : entryFile)
    (re : raftEntry) (d : Disk)
    (Hcur : current l = Some cur) (Hslot : entryIndex l = 0)
    (Hlf : lastFile l = Ret ef) (Hm : mmap ef = Some (bfile cur))
    (Hterm : is_u64 (reTerm re)) (Hindex : is_u64 (reIndex re))
    (Htype : is_int32 (reType re))
    (Hoff : entrySize <= boff cur < 2 ^ 63)
    (Hfit : boff cur + Z.of_nat (length (data_bytes d (reData re))) <=
            file_size d (bfile cur)) :
  let bs := data_bytes d (reData re) in
  exists l' d',
    AddEntries_step l re d = Ret (l', None, d') /\
    entryLog_getEntry d' l' 0 =
      Ret (Some {| Term := reTerm re; Index := reIndex re;
                   DataOffset := match bs with [] => 0 | _ => boff cur end;
                   Type_ := reType re |}, None) /\
    disk_read d' (bfile cur) (boff cur) (Z.of_nat (length bs)) = bs /\
    current l' =
      Some {| bfile := bfile cur; boff := boff cur + Z.of_nat (length bs) |} /\
    entryIndex l' = 1.
Proof.
  cbv zeta. unfold entrySize in *.
  assert (Hread : forall l' d' e,
            files l' = files l -> wf_entry e ->
            file_size d' (bfile cur) = file_size d (bfile cur) ->
            disk_read d' (bfile cur) 0 32 = Bytes (Some e) ->
            entryLog_getEntry d' l' 0 = Ret (Some e, None)).
  { intros l' d' e Hf Hwf Hsz Hrd.
    assert (Hlf' : lastFile l' = Ret ef).
    { unfold lastFile, files_at, len_files in *. now rewrite Hf. }
    rewrite (entryLog_getEntry_lastFile d' l' ef) by
      (assumption || (unfold maxNumEntries; lia)).
    destruct (entryFile_getEntry_inside d' ef (bfile cur) 0 Hm)
      as (e' & Hget & Hdec); [lia|unfold entrySize; lia|].
    rewrite Hget. unfold entrySize in Hdec. change (0 * 32) with 0 in Hdec.
    rewrite Hrd, entryFromBytes_Bytes in Hdec by assumption.
    now injection Hdec as <-. }
  unfold AddEntries_step.
  rewrite Hslot. change (0 >=? maxNumEntries) with false. run_bind.
  rewrite Hcur. cbn [entryIndex files currentFid current lastIndex dir].
  rewrite Hslot. unfold entrySize.
  set (bs := data_bytes d (reData re)) in *. clearbody bs.
  destruct bs as [|b0 bs'].
  - change (Z.of_nat (@length Z []) >? 0) with false. run_bind.
    unfold Buffer_ReadAt.
    destruct (Z.ltb_spec (file_size d (bfile cur)) (0 + 32)); [lia|].
    cbn [Z.ltb Z.compare orb].
    eexists _, _. split; [reflexivity|]. split; [|split; [|split]].
    + apply Hread; [reflexivity| |apply file_size_disk_write|].
      * unfold wf_entry, is_u64, is_int32 in *.
        cbn [Term Index DataOffset Type_]. lia.
      * apply (disk_read_write_same d (bfile cur) 0 (Bytes (Some _))). lia.
    + reflexivity.
    + cbn [current]. f_equal. destruct cur; cbn. f_equal. lia.
    + reflexivity.
  - set (bs0 := b0 :: bs') in *.
    assert (Hpos : (Z.of_nat (length bs0) >? 0) = true)
      by (apply Z.gtb_lt; cbn [bs0 length]; lia).
    rewrite Hpos. unfold Buffer_SliceAllocateOffset.
    destruct (Z.ltb_spec (file_size d (bfile cur))
                (boff cur + Z.of_nat (length bs0))); [lia|].
    run_bind. unfold Buffer_ReadAt. cbn [bfile].
    rewrite file_size_disk_write.
    destruct (Z.ltb_spec (file_size d (bfile cur)) (0 + 32)); [lia|].
    cbn [Z.ltb Z.compare orb].
    assert (Hu : u64 (boff cur) = boff cur)
      by (unfold u64; apply Z.mod_small; lia).
    rewrite Hu.
    eexists _, _. split; [reflexivity|]. split; [|split; [|split]].
    + apply Hread; [reflexivity| | |].
      * unfold wf_entry, is_u64, is_int32 in *.
        cbn [Term Index DataOffset Type_]. lia.
      * now rewrite !file_size_disk_write.
      * apply (disk_read_write_same _ (bfile cur) 0 (Bytes (Some _))).
        rewrite file_size_disk_write. lia.
    + rewrite disk_read_write_other by (rewrite length_Bytes; lia).
      apply disk_read_write_same. lia.
    + reflexivity.
    + reflexivity.
Qed.

(** The theorem at the first entry appended to the fresh log. *)
Lemma AddEntries_first_slot_witness :
  let l := theLog freshLog in
  let cur := {| bfile := 0; boff := entryFileOffset |} in
  exists l' d',
    AddEntries_step l (normalEntry 1 1 [97]) (theDisk freshLog) =
      Ret (l', None, d') /\
    entryLog_getEntry d' l' 0 =
      Ret (Some {| Term := 1; Index := 1; DataOffset := entryFileOffset;
                   Type_ := 0 |}, None) /\
    disk_read d' 0 entryFileOffset 1 = [97].
Proof.
  intros l cur.
  assert (Hcur : current l = Some cur) by (vm_compute; reflexivity).
  assert (Hslot : entryIndex l = 0) by (vm_compute; reflexivity).
  assert (Hlf : lastFile l =
                Ret {| firstIndex := 0; path := "1.ent"; mmap := Some 0%nat |})
    by (vm_compute; reflexivity).
  assert (Hterm : is_u64 1) by (unfold is_u64; lia).
  assert (Htype : is_int32 0) by (unfold is_int32; lia).
  assert (Hoff : entrySize <= boff cur < 2 ^ 63) by (vm_compute; split; [discriminate|reflexivity]).
  assert (Hfit : boff cur + Z.of_nat (length (data_bytes (theDisk freshLog)
                   (reData (normalEntry 1 1 [97])))) <=
                 file_size (theDisk freshLog) (bfile cur))
    by (vm_compute; discriminate).
  destruct (AddEntries_first_slot l cur _ (normalEntry 1 1 [97])
              (theDisk freshLog) Hcur Hslot Hlf eq_refl Hterm Hterm Htype
              Hoff Hfit) as (l' & d' & Hstep & Hget & Hrd & _).
  exists l', d'. split; [exact Hstep|]. split; [exact Hget|exact Hrd].
Defined.

(** X13. A successful append to a log whose current file is full rotates
    first: the file list grows by a file that carries the index of the
    entry as first index, the decimal of that index as path and no
    mapping. The slots of that last file cannot be read afterwards:
    [getEntry] and [firstEmpty] panic. *)
Theorem rotation_hides_tail (l l' : entryLog) (re : raftEntry) (d d' : Disk)
    (Hfull : maxNumEntries <= entryIndex l)
    (Hstep : AddEntries_step l re d = Ret (l', None, d')) :
  lastFile l' =
    Ret {| firstIndex := reIndex re;
           path := Join (dir l) (Sprintf_d (reIndex re)); mmap := None |} /\
  entryIndex l' = 1 /\
  (forall n, n < maxNumEntries -> entryLog_getEntry d' l' n = Panicked) /\
  firstEmpty d' l' = Panicked.
Proof.
  apply AddEntries_step_spec in Hstep. destruct Hstep as (Hcase & _ & _).
  destruct (Z.geb_spec (entryIndex l) maxNumEntries); [|lia].
  destruct Hcase as [Hf Hi].
  assert (Hlf : lastFile l' =
                Ret {| firstIndex := reIndex re;
                       path := Join (dir l) (Sprintf_d (reIndex re));
                       mmap := None |}).
  { unfold lastFile, files_at, len_files. rewrite Hf, length_app.
    cbn [length].
    destruct (Z.ltb_spec (Z.of_nat (length (files l) + 1) - 1) 0); [lia|].
    replace (Z.to_nat (Z.of_nat (length (files l) + 1) - 1))
      with (length (files l)) by lia.
    now rewrite list_lookup_middle. }
  assert (Hget : forall n, n < maxNumEntries ->
                   entryLog_getEntry d' l' n = Panicked).
  { intros n Hn.
    rewrite (entryLog_getEntry_lastFile d' l' _ n Hlf Hn).
    now apply entryFile_getEntry_nil. }
  split; [exact Hlf|]. split; [exact Hi|]. split; [exact Hget|].
  unfold firstEmpty.
  replace (Z.to_nat maxNumEntries) with (S (Z.to_nat (maxNumEntries - 1)))
    by (unfold maxNumEntries; lia).
  cbn [firstEmpty_loop]. rewrite Hget by (unfold maxNumEntries; lia).
  reflexivity.
Qed.

(** The theorem at a full log over one file, given the entry of index
    30001. *)
Lemma rotation_hides_tail_witness :
  let l := {| files := [{| firstIndex := 0; path := "1.ent";
                           mmap := Some 0%nat |}];
              currentFid := 1;
              current := Some {| bfile := 0; boff := entryFileOffset |};
              entryIndex := maxNumEntries; lastIndex := 30000;
              dir := walDir |} in
  exists l' d',
    AddEntries_step l (normalEntry 30001 1 []) (theDisk freshLog) =
      Ret (l', None, d') /\
    lastFile l' =
      Ret {| firstIndex := 30001; path := "wal/30001"; mmap := None |} /\
    firstEmpty d' l' = Panicked.
Proof.
  intros l.
  assert (Hfull : maxNumEntries <= entryIndex l) by (cbn; lia).
  assert (Hok : match AddEntries_step l (normalEntry 30001 1 [])
                        (theDisk freshLog) with
                | Ret (_, None, _) => true
                | _ => false
                end = true) by (vm_compute; reflexivity).
  destruct (AddEntries_step l (normalEntry 30001 1 []) (theDisk freshLog))
    as [[[l' [er|]] d']|] eqn:Hstep; try discriminate Hok.
  destruct (rotation_hides_tail l l' _ _ d' Hfull Hstep)
    as (Hlf & _ & _ & Hfe).
  exists l', d'. split; [reflexivity|]. split; [|exact Hfe].
  rewrite Hlf. vm_compute. reflexivity.
Defined.

(** ** Looking up a term *)

Lemma Search_partition (f : Z -> bool) (n i : Z) :
  0 <= i <= n -> n < 2 ^ 63 ->
  (forall k, 0 <= k < i -> f k = false) ->
  (forall k, i <= k < n -> f k = true) ->
  Search n f = i.
Proof.
  intros Hi Hn Hlo Hhi.
  destruct (Search_spec f n ltac:(lia)) as (Hr & Hb & Ha).
  destruct (Z.lt_trichotomy (Search n f) i) as [Hlt|[Heq|Hgt]];
    [|assumption|].
  - specialize (Ha ltac:(lia)). rewrite Hlo in Ha by lia. discriminate.
  - specialize (Hb ltac:(lia)). rewrite Hhi in Hb by lia. discriminate.
Qed.

Lemma files_at_lookup (l : entryLog) (i : nat) (f : entryFile) :
  files l !! i = Some f -> files_at l (Z.of_nat i) = Ret f.
Proof.
  intros Hf. unfold files_at.
  destruct (Z.ltb_spec (Z.of_nat i) 0); [lia|].
  now rewrite Nat2Z.id, Hf.
Qed.

Lemma files_at_negative (l : entryLog) (i : Z) :
  i < 0 -> files_at l i = Panicked.
Proof.
  intros Hi. unfold files_at. destruct (Z.ltb_spec i 0); [reflexivity|lia].
Qed.

Lemma firstIndex_ge_lookup (l : entryLog) (idx k : Z) (g : entryFile) :
  0 <= k -> files l !! Z.to_nat k = Some g ->
  firstIndex_ge l idx k = (firstIndex g >=? idx).
Proof. intros Hk Hg. unfold firstIndex_ge. now rewrite Hg. Qed.

(** The binary search of [Term] over ascending files ends at the first
    file whose first index is not below [idx]. *)
Lemma Search_files (l : entryLog) (idx : Z) (i : nat) :
  len_files l < 2 ^ 63 -> (i <= length (files l))%nat ->
  (forall k g, (k < i)%nat -> files l !! k = Some g -> firstIndex g < idx) ->
  (forall k g, (i <= k)%nat -> files l !! k = Some g -> idx <= firstIndex g) ->
  Search (len_files l) (firstIndex_ge l idx) = Z.of_nat i.
Proof.
  intros Hlen Hi Hlo Hhi. unfold len_files in *.
  apply Search_partition; try lia.
  - intros k Hk.
    destruct (lookup_lt_is_Some_2 (files l) (Z.to_nat k) ltac:(lia))
      as [g Hg].
    rewrite (firstIndex_ge_lookup l idx k g) by (lia || assumption).
    specialize (Hlo (Z.to_nat k) g ltac:(lia) Hg).
    destruct (Z.geb_spec (firstIndex g) idx); [lia|reflexivity].
  - intros k Hk.
    destruct (lookup_lt_is_Some_2 (files l) (Z.to_nat k) ltac:(lia))
      as [g Hg].
    rewrite (firstIndex_ge_lookup l idx k g) by (lia || assumption).
    specialize (Hhi (Z.to_nat k) g ltac:(lia) Hg).
    destruct (Z.geb_spec (firstIndex g) idx); [reflexivity|lia].
Qed.

Lemma Forall_lookup_files (P : entryFile -> Prop) (l : entryLog) (k : nat)
    (g : entryFile) :
  Forall P (files l) -> files l !! k = Some g -> P g.
Proof. intros Hall Hg. rewrite Forall_lookup in Hall. eauto. Qed.

(** X14. [Term] panics for every index that is above the first index of
    every file of the log, and for every index that is below the first
    index of every file: the position the binary search returns, or the
    one before it, is used to index the file list without a check. *)
Theorem Term_outside_panics (d : Disk) (l : entryLog) (idx : Z)
    (Hlen : len_files l < 2 ^ 63)
    (Hout : Forall (fun g => firstIndex g < idx) (files l) \/
            Forall (fun g => idx < firstIndex g) (files l)) :
  entryLog_Term d l idx = Panicked.
Proof.
  unfold entryLog_Term. cbv zeta. destruct Hout as [Habove|Hbelow].
  - rewrite (Search_files l idx (length (files l))); try lia.
    + fold (len_files l). now rewrite files_at_len.
    + intros k g _ Hg.
      exact (Forall_lookup_files _ l k g Habove Hg).
    + intros k g Hk Hg. apply lookup_lt_Some in Hg. lia.
  - rewrite (Search_files l idx 0); try lia.
    + destruct (files_at l (Z.of_nat 0)) as [f|] eqn:Hf; run_bind;
        [|reflexivity].
      assert (Hlt : idx < firstIndex f).
      { unfold files_at in Hf.
        destruct (Z.of_nat 0 <? 0); [discriminate|].
        destruct (files l !! Z.to_nat (Z.of_nat 0)) as [f0|] eqn:Hf0;
          [|discriminate].
        injection Hf as <-.
        exact (Forall_lookup_files _ l _ f0 Hbelow Hf0). }
      destruct (Z.eqb_spec (firstIndex f) idx); [lia|].
      now rewrite files_at_negative by lia.
    + intros k g _ Hg.
      pose proof (Forall_lookup_files _ l k g Hbelow Hg) as H. cbn in H. lia.
Qed.

(** The theorem at index 5 of the log holding one entry, whose only file
    has first index 0. *)
Lemma Term_outside_panics_witness :
  entryLog_Term (theDisk logOne) (theLog logOne) 5 = Panicked.
Proof.
  assert (Hlen : len_files (theLog logOne) < 2 ^ 63)
    by (vm_compute; reflexivity).
  assert (Hout : Forall (fun g => firstIndex g < 5) (files (theLog logOne)) \/
                 Forall (fun g => 5 < firstIndex g) (files (theLog logOne))).
  { left. vm_compute. repeat constructor. }
  exact (Term_outside_panics (theDisk logOne) (theLog logOne) 5 Hlen Hout).
Defined.

Lemma reads_term_of_slot_getEntry (d : Disk) (f : entryFile) (n : Z)
    (swallow : bool) :
  0 <= n < 2 ^ 57 ->
  reads_term_of_slot d f n
    ('(e, err) ← entryFile_getEntry d f n;
     match e, err with
     | _, Some er => Ret (0, if swallow then None else Some er)
     | Some e, None => Ret (Term e, None)
     | None, None => Panicked
     end).
Proof.
  intros Hn. unfold reads_term_of_slot.
  destruct (mmap f) as [h|] eqn:Hm.
  - destruct (Z.leb_spec (n * entrySize + entrySize) (file_size d h)).
    + destruct (entryFile_getEntry_inside d f h n Hm Hn)
        as (e & -> & Hdec); [assumption|].
      exists e. split; [assumption|reflexivity].
    + now rewrite (entryFile_getEntry_outside d f h n Hm Hn) by assumption.
  - now rewrite entryFile_getEntry_nil.
Qed.

(** X15. Over files in ascending order of first index, [Term] of the
    first index of a file reads slot 0 of that file: it returns the term
    found there and no error when the file is mapped, and panics when the
    file has no mapping. *)
Theorem Term_at_first_index (d : Disk) (l : entryLog) (i : nat)
    (f : entryFile)
    (Hlen : len_files l < 2 ^ 63) (Hasc : files_ascending l)
    (Hf : files l !! i = Some f) :
  reads_term_of_slot d f 0 (entryLog_Term d l (firstIndex f)).
Proof.
  unfold entryLog_Term. cbv zeta.
  rewrite (Search_files l (firstIndex f) i); try lia.
  - rewrite (files_at_lookup l i f Hf). run_bind.
    rewrite Z.eqb_refl.
    apply (reads_term_of_slot_getEntry d f 0 false). lia.
  - apply lookup_lt_Some in Hf. lia.
  - intros k g Hk Hg. exact (Hasc k i g f Hk Hg Hf).
  - intros k g Hk Hg. destruct (decide (k = i)) as [->|Hne].
    + rewrite Hf in Hg. injection Hg as <-. lia.
    + pose proof (Hasc i k f g ltac:(lia) Hf Hg). lia.
Qed.

(** The theorem at the file of the log of one entry as a directory scan
    reads it: the term of index 1 is 1. *)
Lemma Term_at_first_index_witness :
  let l := fst logScanned in
  let f := {| firstIndex := 1; path := "wal/1.ent"; mmap := Some 0%nat |} in
  len_files l < 2 ^ 63 /\ files_ascending l /\
  reads_term_of_slot (snd logScanned) f 0
    (entryLog_Term (snd logScanned) l 1).
Proof.
  intros l f.
  assert (Hlen : len_files l < 2 ^ 63) by (vm_compute; reflexivity).
  assert (Hasc : files_ascending l).
  { intros i j f0 g Hij Hi Hj. apply lookup_lt_Some in Hj. cbn in Hj. lia. }
  assert (Hf : files l !! 0%nat = Some f) by reflexivity.
  split; [exact Hlen|]. split; [exact Hasc|].
  exact (Term_at_first_index (snd logScanned) l 0 f Hlen Hasc Hf).
Defined.

(** X16. Over files in ascending order of first index, [Term] of an
    index strictly between the first indices of two neighbouring files
    reads the slot of the earlier file at the distance of the index from
    that file's first index, and panics when that file has no mapping or
    the slot lies beyond it. *)
Theorem Term_between_files (d : Disk) (l : entryLog) (i : nat)
    (f g : entryFile) (idx : Z)
    (Hlen : len_files l < 2 ^ 63) (Hasc : files_ascending l)
    (Hf : files l !! i = Some f) (Hg : files l !! S i = Some g)
    (Hidx : firstIndex f < idx < firstIndex g)
    (Hdist : idx - firstIndex f < 2 ^ 57) :
  reads_term_of_slot d f (idx - firstIndex f) (entryLog_Term d l idx).
Proof.
  unfold entryLog_Term. cbv zeta.
  rewrite (Search_files l idx (S i)); try lia.
  - rewrite (files_at_lookup l (S i) g Hg). run_bind.
    destruct (Z.eqb_spec (firstIndex g) idx); [lia|].
    replace (Z.of_nat (S i) - 1) with (Z.of_nat i) by lia.
    rewrite (files_at_lookup l i f Hf). run_bind.
    assert (Hu : u64 (idx - firstIndex f) = idx - firstIndex f)
      by (unfold u64; apply Z.mod_small; lia).
    rewrite Hu, int64_small by lia.
    apply (reads_term_of_slot_getEntry d f _ true). lia.
  - apply lookup_lt_Some in Hg. lia.
  - intros k h Hk Hh. destruct (decide (k = i)) as [->|Hne].
    + rewrite Hf in Hh. injection Hh as <-. lia.
    + pose proof (Hasc k i h f ltac:(lia) Hh Hf). lia.
  - intros k h Hk Hh. destruct (decide (k = S i)) as [->|Hne].
    + rewrite Hg in Hh. injection Hh as <-. lia.
    + pose proof (Hasc (S i) k g h ltac:(lia) Hg Hh). lia.
Qed.

(** The theorem at index 2 of a log of two files with first indices 1
    and 30001 over the disk of the log of one entry. *)
Lemma Term_between_files_witness :
  let f := {| firstIndex := 1; path := "wal/1.ent"; mmap := Some 0%nat |} in
  let g := {| firstIndex := 30001; path := "wal/30001"; mmap := None |} in
  let l := {| files := [f; g]; currentFid := 1;
              current := Some {| bfile := 0; boff := entryFileOffset |};
              entryIndex := 1; lastIndex := 30001; dir := walDir |} in
  reads_term_of_slot (theDisk logOne) f (2 - firstIndex f)
    (entryLog_Term (theDisk logOne) l 2).
Proof.
  intros f g l.
  assert (Hlen : len_files l < 2 ^ 63) by (vm_compute; reflexivity).
  assert (Hasc : files_ascending l).
  { intros i j f0 g0 Hij Hi Hj.
    destruct i as [|[|i]]; destruct j as [|[|j]]; try lia;
      cbn in Hi, Hj; try discriminate.
    injection Hi as <-. injection Hj as <-. cbn. lia. }
  assert (Hf : files l !! 0%nat = Some f) by reflexivity.
  assert (Hg : files l !! 1%nat = Some g) by reflexivity.
  assert (Hidx : firstIndex f < 2 < firstIndex g) by (cbn; lia).
  assert (Hdist : 2 - firstIndex f < 2 ^ 57) by (cbn; lia).
  exact (Term_between_files (theDisk logOne) l 0 f g 2 Hlen Hasc Hf Hg
           Hidx Hdist).
Defined.

(** ** The records of the meta page *)

Lemma Buffer_Slice_write_before (d : Disk) (b : Buffer) (woff : Z)
    (bs : list Z) (off : Z) :
  woff + Z.of_nat (length bs) <= off ->
  Buffer_Slice (disk_write d (bfile b) woff bs) b off = Buffer_Slice d b off.
Proof.
  intros Hb. unfold Buffer_Slice. rewrite !file_size_disk_write.
  destruct (_ || _); [reflexivity|]. cbv zeta.
  rewrite (disk_read_write_other d (bfile b) (bfile b) woff off 4) by lia.
  destruct (_ <? _); [reflexivity|].
  now rewrite disk_read_write_other by lia.
Qed.

Lemma le32_range (n : Z) : Forall is_byte (le32 n).
Proof.
  unfold le32. repeat constructor; rewrite byte_of_spec;
    unfold is_byte; apply Z.mod_pos_bound; lia.
Qed.

Lemma unle32_bound (b : list Z) :
  Forall is_byte b -> 0 <= unle32 b < 2 ^ 32.
Proof.
  intros Hb. unfold unle32.
  pose proof (nth_is_byte b 0 Hb). pose proof (nth_is_byte b 1 Hb).
  pose proof (nth_is_byte b 2 Hb). pose proof (nth_is_byte b 3 Hb).
  unfold is_byte in *. lia.
Qed.

Lemma Buffer_Slice_write_after (d : Disk) (b : Buffer) (woff : Z)
    (bs : list Z) (off : Z) :
  off + 4 + unle32 (disk_read d (bfile b) off 4) <= woff ->
  0 <= unle32 (disk_read d (bfile b) off 4) ->
  Buffer_Slice (disk_write d (bfile b) woff bs) b off = Buffer_Slice d b off.
Proof.
  intros Hb Hn. unfold Buffer_Slice. rewrite !file_size_disk_write.
  destruct (_ || _); [reflexivity|]. cbv zeta.
  rewrite (disk_read_write_other d (bfile b) (bfile b) woff off 4) by lia.
  destruct (_ <? _); [reflexivity|].
  now rewrite disk_read_write_other by lia.
Qed.

Lemma RaftId_write_after (m : metaFile) (d : Disk) (woff : Z) (bs : list Z) :
  8 <= woff ->
  metaFile_RaftId m (disk_write d (bfile (buf m)) woff bs) =
  metaFile_RaftId m d.
Proof.
  intros Hw. unfold metaFile_RaftId, Buffer_ReadAt, raftIdOffset.
  rewrite file_size_disk_write. destruct (_ || _); [reflexivity|].
  now rewrite disk_read_write_other by lia.
Qed.

Lemma WriteSliceAt_disk (d d' : Disk) (b : Buffer) (bs : list Z) (off : Z)
    (err : option error) :
  Buffer_WriteSliceAt d b bs off = (err, d') ->
  (err <> None /\ d' = d) \/
  (err = None /\ 0 <= off /\
   off + 4 + Z.of_nat (length bs) <= file_size d (bfile b) /\
   d' = disk_write (disk_write d (bfile b) (off + 4) bs) (bfile b) off
          (le32 (Z.of_nat (length bs)))).
Proof.
  unfold Buffer_WriteSliceAt.
  destruct (Z.ltb_spec off 0); [intros [= <- <-]; now left|].
  destruct (Z.ltb_spec (file_size d (bfile b))
              (off + 4 + Z.of_nat (length bs))); [intros [= <- <-]; now left|].
  cbn [orb]. intros [= <- <-]. right. repeat split; (lia || reflexivity).
Qed.

Lemma RaftId_after_StoreRaftId (m : metaFile) (id0 : Z) (d d' : Disk) :
  is_u64 id0 -> metaFile_StoreRaftId m id0 d = (None, d') ->
  metaFile_RaftId m d' = (id0, None).
Proof.
  intros Hid. unfold metaFile_StoreRaftId, Buffer_WriteAt, raftIdOffset.
  rewrite length_PutUint64. change (0 + Z.of_nat 8) with 8.
  change (0 <? 0) with false. cbn [orb].
  destruct (Z.ltb_spec (file_size d (bfile (buf m))) 8) as [Hs|Hs];
    [discriminate|].
  intros [= <-].
  unfold metaFile_RaftId, Buffer_ReadAt, raftIdOffset.
  rewrite file_size_disk_write.
  destruct (Z.ltb_spec (file_size d (bfile (buf m))) (0 + 8)); [lia|].
  change (0 <? 0) with false. cbn [orb].
  change 8 with (Z.of_nat (length (PutUint64 id0))).
  rewrite (disk_read_write_same d (bfile (buf m)) 0 (PutUint64 id0))
    by lia.
  rewrite <- (app_nil_r (PutUint64 id0)).
  now rewrite Uint64_PutUint64.
Qed.

(** X17. [StoreRaftId] fails, leaving the page as it is, exactly when the
    mapping is shorter than eight bytes; otherwise [RaftId] reads back the
    identifier just stored, and the hard state and the snapshot read from
    the page are what they were. *)
Theorem StoreRaftId_RaftId (m : metaFile) (id0 : Z) (d : Disk)
    (Hid : is_u64 id0) :
  if file_size d (bfile (buf m)) <? 8
  then exists er, metaFile_StoreRaftId m id0 d = (Some er, d)
  else exists d',
         metaFile_StoreRaftId m id0 d = (None, d') /\
         metaFile_RaftId m d' = (id0, None) /\
         metaFile_HardState m d' = metaFile_HardState m d /\
         metaFile_Snapshot m d' = metaFile_Snapshot m d.
Proof.
  destruct (metaFile_StoreRaftId m id0 d) as [err d'] eqn:Hst.
  pose proof Hst as Hst'.
  unfold metaFile_StoreRaftId, Buffer_WriteAt, raftIdOffset in Hst'.
  rewrite length_PutUint64 in Hst'. change (0 + Z.of_nat 8) with 8 in Hst'.
  change (0 <? 0) with false in Hst'. cbn [orb] in Hst'.
  destruct (file_size d (bfile (buf m)) <? 8).
  - injection Hst' as <- <-. eexists. reflexivity.
  - injection Hst' as <- Hd'. exists d'. split; [reflexivity|].
    split; [now apply (RaftId_after_StoreRaftId m id0 d)|].
    rewrite <- Hd'. split.
    + unfold metaFile_HardState, hardStateOffset.
      now rewrite Buffer_Slice_write_before by (rewrite length_PutUint64; lia).
    + unfold metaFile_Snapshot, snapshotOffset.
      now rewrite Buffer_Slice_write_before by (rewrite length_PutUint64; lia).
Qed.

(** The theorem at the meta page of the store opened by [Init], given
    raft id 9. *)
Lemma StoreRaftId_RaftId_witness :
  let m := {| buf := {| bfile := 0; boff := 0 |} |} in
  is_u64 9 /\
  exists d',
    metaFile_StoreRaftId m 9 (storeDisk initStore) = (None, d') /\
    metaFile_RaftId m d' = (9, None).
Proof.
  intros m.
  assert (Hid : is_u64 9) by (unfold is_u64; lia).
  split; [exact Hid|].
  pose proof (StoreRaftId_RaftId m 9 (storeDisk initStore) Hid) as H.
  assert (Hs : (file_size (storeDisk initStore) (bfile (buf m)) <? 8) = false)
    by (vm_compute; reflexivity).
  rewrite Hs in H. destruct H as (d' & Hst & Hrd & _).
  exists d'. split; [exact Hst|exact Hrd].
Defined.

(** X18. Whatever [StoreHardState] does, the snapshot and the raft id
    read from the page are what they were before. *)
Theorem StoreHardState_keeps_others (m : metaFile) (hs : option HardState)
    (d d' : Disk) (err : option error)
    (Hst : metaFile_StoreHardState m hs d = (err, d')) :
  metaFile_Snapshot m d' = metaFile_Snapshot m d /\
  metaFile_RaftId m d' = metaFile_RaftId m d.
Proof.
  unfold metaFile_StoreHardState in Hst.
  destruct hs as [hs|]; [|injection Hst as _ <-; auto].
  destruct (IsEmptyHardState hs); [injection Hst as _ <-; auto|].
  apply WriteSliceAt_disk in Hst.
  destruct Hst as [[_ ->]|(_ & _ & _ & ->)]; [auto|].
  rewrite length_HardState_Marshal. unfold hardStateOffset. split.
  - unfold metaFile_Snapshot, snapshotOffset.
    rewrite Buffer_Slice_write_before by (cbn [length le32]; lia).
    now rewrite Buffer_Slice_write_before
      by (rewrite length_HardState_Marshal; lia).
  - rewrite RaftId_write_after by lia. now rewrite RaftId_write_after by lia.
Qed.

(** The theorem at the meta page of the store opened by [Init]. *)
Lemma StoreHardState_keeps_others_witness :
  let m := {| buf := {| bfile := 0; boff := 0 |} |} in
  let hs := {| hsTerm := 5; hsVote := 7; hsCommit := 0 |} in
  exists d',
    metaFile_StoreHardState m (Some hs) (storeDisk initStore) = (None, d') /\
    metaFile_RaftId m d' = metaFile_RaftId m (storeDisk initStore).
Proof.
  intros m hs.
  destruct (metaFile_StoreHardState m (Some hs) (storeDisk initStore))
    as [err d'] eqn:Hst.
  assert (Herr : err = None).
  { revert Hst. unfold metaFile_StoreHardState, Buffer_WriteSliceAt.
    replace (file_size (storeDisk initStore) (bfile (buf m)))
      with metaFileSize by (vm_compute; reflexivity).
    cbv beta iota delta [IsEmptyHardState hsTerm hsVote hsCommit hs andb Z.eqb].
    rewrite length_HardState_Marshal. change (_ || _) with false. cbv iota.
    now intros [= <- _]. }
  subst err. exists d'. split; [reflexivity|].
  exact (proj2 (StoreHardState_keeps_others m (Some hs) _ d' None Hst)).
Defined.

Lemma take_u64s_concat (cs : list Z) (rest : list Z) :
  Forall is_u64 cs ->
  take_u64s (length cs) (concat (PutUint64 <$> cs) ++ rest) = cs.
Proof.
  induction 1 as [|c cs Hc _ IH]; [reflexivity|].
  rewrite fmap_cons. cbn [length take_u64s concat].
  rewrite <- app_assoc, Uint64_PutUint64 by assumption.
  now rewrite drop_PutUint64, IH.
Qed.

Lemma length_concat_PutUint64 (cs : list Z) :
  length (concat (PutUint64 <$> cs)) = (8 * length cs)%nat.
Proof.
  induction cs as [|c cs IH]; [reflexivity|].
  rewrite fmap_cons. cbn [concat length].
  rewrite length_app, IH, length_PutUint64. lia.
Qed.

Lemma length_Snapshot_Marshal (s : Snapshot) :
  length (Snapshot_Marshal s) =
    (24 + 8 * length (snapConfState s) + length (snapData s))%nat.
Proof.
  unfold Snapshot_Marshal.
  rewrite !length_app, !length_PutUint64, length_concat_PutUint64. lia.
Qed.

Lemma Snapshot_Unmarshal_Marshal (s : Snapshot) :
  wf_Snapshot s -> Z.of_nat (length (snapConfState s)) < 2 ^ 64 ->
  Snapshot_Unmarshal (Snapshot_Marshal s) = Some s.
Proof.
  intros (Hi & Ht & Hcs) Hlen. unfold Snapshot_Unmarshal.
  rewrite length_Snapshot_Marshal.
  destruct (Z.ltb_spec (Z.of_nat (24 + 8 * length (snapConfState s) +
                                  length (snapData s))) 24); [lia|].
  cbv zeta.
  assert (Hn : Uint64 (drop 16 (Snapshot_Marshal s)) =
               Z.of_nat (length (snapConfState s))).
  { unfold Snapshot_Marshal.
    change (drop 16 ?l) with (drop 8 (drop 8 l)).
    rewrite !drop_PutUint64. apply Uint64_PutUint64. unfold is_u64. lia. }
  rewrite Hn.
  destruct (Z.ltb_spec (Z.of_nat (24 + 8 * length (snapConfState s) +
                                  length (snapData s)))
              (24 + 8 * Z.of_nat (length (snapConfState s)))); [lia|].
  destruct s as [dt cs idx tm]. cbn [snapData snapConfState snapIndex snapTerm] in *.
  unfold Snapshot_Marshal. cbn [snapData snapConfState snapIndex snapTerm].
  f_equal. f_equal.
  - replace (Z.to_nat (24 + 8 * Z.of_nat (length cs)))
      with (8 + (8 + (8 + length (concat (PutUint64 <$> cs)))))%nat
      by (rewrite length_concat_PutUint64; lia).
    rewrite <- !drop_drop, !drop_PutUint64.
    now rewrite drop_app_length.
  - change (drop 24 ?l) with (drop 8 (drop 8 (drop 8 l))).
    rewrite !drop_PutUint64, Nat2Z.id.
    now apply take_u64s_concat.
  - now apply Uint64_PutUint64.
  - rewrite drop_PutUint64. now apply Uint64_PutUint64.
Qed.

(** X19. A non-empty snapshot stored in a meta page of 4096 bytes is read
    back by [Snapshot] as it was given, and the raft id read from the page
    is what it was; a snapshot whose serialization is longer than the
    3068 bytes left after the snapshot offset is refused, and the page
    stays as it is. *)
Theorem StoreSnapshot_Snapshot (m : metaFile) (s : Snapshot) (d : Disk)
    (Hsize : file_size d (bfile (buf m)) = metaFileSize)
    (Hne : IsEmptySnap s = false) (Hwf : wf_Snapshot s) :
  if Z.of_nat (length (Snapshot_Marshal s)) <=? metaFileSize - snapshotOffset - 4
  then exists d',
         metaFile_StoreSnapshot m (Some s) d = (None, d') /\
         metaFile_Snapshot m d' = (s, None) /\
         metaFile_RaftId m d' = metaFile_RaftId m d /\
         file_size d' (bfile (buf m)) = metaFileSize
  else exists er, metaFile_StoreSnapshot m (Some s) d = (Some er, d).
Proof.
  unfold metaFile_StoreSnapshot. rewrite Hne.
  unfold metaFileSize, snapshotOffset in *.
  destruct (Z.leb_spec (Z.of_nat (length (Snapshot_Marshal s)))
              (4096 - 1024 - 4)) as [Hfit|Hbig].
  - destruct (Buffer_WriteSliceAt d (buf m) (Snapshot_Marshal s) 1024)
      as [err d'] eqn:Hw.
    pose proof Hw as Hw'. unfold Buffer_WriteSliceAt in Hw'.
    rewrite Hsize in Hw'.
    destruct (Z.ltb_spec 4096 (1024 + 4 + Z.of_nat (length (Snapshot_Marshal s))));
      [lia|].
    change (1024 <? 0) with false in Hw'. cbn [orb] in Hw'.
    injection Hw' as <- Hd'.
    exists d'. split; [reflexivity|]. split; [|split].
    + unfold metaFile_Snapshot, snapshotOffset.
      rewrite (Slice_WriteSliceAt d d' (buf m) (Snapshot_Marshal s) 1024);
        [|lia|exact Hw].
      pose proof (length_Snapshot_Marshal s) as Hl.
      destruct (Z.eqb_spec (Z.of_nat (length (Snapshot_Marshal s))) 0); [lia|].
      rewrite Snapshot_Unmarshal_Marshal; [reflexivity|assumption|lia].
    + rewrite <- Hd'.
      rewrite RaftId_write_after by lia. now rewrite RaftId_write_after by lia.
    + rewrite <- Hd'. now rewrite !file_size_disk_write.
  - unfold Buffer_WriteSliceAt. rewrite Hsize.
    destruct (Z.ltb_spec 4096 (1024 + 4 + Z.of_nat (length (Snapshot_Marshal s))));
      [|lia].
    rewrite orb_true_r. eexists. reflexivity.
Qed.

(** The theorem at the meta page of the store opened by [Init]. *)
Lemma StoreSnapshot_Snapshot_witness :
  let m := {| buf := {| bfile := 0; boff := 0 |} |} in
  let s := {| snapData := [1; 2; 3]; snapConfState := [7; 8]; snapIndex := 4;
              snapTerm := 2 |} in
  exists d',
    metaFile_StoreSnapshot m (Some s) (storeDisk initStore) = (None, d') /\
    metaFile_Snapshot m d' = (s, None).
Proof.
  intros m s.
  assert (Hsize : file_size (storeDisk initStore) (bfile (buf m)) = metaFileSize)
    by (vm_compute; reflexivity).
  assert (Hne : IsEmptySnap s = false) by reflexivity.
  assert (Hwf : wf_Snapshot s).
  { unfold wf_Snapshot, is_u64. cbn. repeat constructor; lia. }
  pose proof (StoreSnapshot_Snapshot m s (storeDisk initStore) Hsize Hne Hwf)
    as H.
  assert (Hfit : (Z.of_nat (length (Snapshot_Marshal s)) <=?
                  metaFileSize - snapshotOffset - 4) = true)
    by (vm_compute; reflexivity).
  rewrite Hfit in H. destruct H as (d' & Hst & Hrd & _).
  exists d'. split; [exact Hst|exact Hrd].
Defined.

(** ** The store after [Init] and after [Save] *)

(** X20. A store returned by [Init] carries the directory, the raft id
    and the group given, an empty cache and no key-value store; the raft
    id is on the meta page whether it was there before or stored by this
    call. Since the key-value store is never assigned, [Save] and the
    key-value reader behind [Entries] panic on it. *)
Theorem Init_store (dirName : string) (id0 gid0 : Z) (d d' : Disk)
    (w : DiskStorage)
    (Hid : is_u64 id0)
    (Hinit : Init dirName id0 gid0 d = Ret (w, d')) :
  db w = None /\ wdir w = dirName /\ wid w = id0 /\ wgid w = gid0 /\
  cache w = ∅ /\
  (exists m, meta w = Some m /\ metaFile_RaftId m d' = (id0, None)) /\
  (exists l, entries w = Some l) /\
  (forall h es snap d2, Save w h es snap d2 = Panicked) /\
  (forall lo hi maxSize, DiskStorage_allEntries w lo hi maxSize = Panicked).
Proof.
  unfold Init in Hinit.
  destruct (newMetaFile dirName d) as [m d1].
  destruct (openEntryLog dirName d1) as [[[[l|] [er|]] d2]|];
    run_bind; try discriminate.
  revert Hinit. run_bind.
  destruct (metaFile_RaftId m d2) as [prev err] eqn:Hprev.
  set (d3 := (if bool_decide (err ≠ None) || negb (prev =? id0) || (prev =? 0)
              then match metaFile_StoreRaftId m id0 d2 with
                   | (Some _, _) => Panicked
                   | (None, d) => Ret d
                   end
              else Ret d2) : outcome Disk).
  assert (Hd3 : forall d0, d3 = Ret d0 -> metaFile_RaftId m d0 = (id0, None)).
  { intros d0. unfold d3.
    destruct (bool_decide (err ≠ None) || negb (prev =? id0) || (prev =? 0))
      eqn:Hcond.
    - destruct (metaFile_StoreRaftId m id0 d2) as [[e|] d4] eqn:Hst;
        [discriminate|].
      intros [= <-]. now apply (RaftId_after_StoreRaftId m id0 d2).
    - intros [= <-].
      apply orb_false_iff in Hcond as [Hcond _].
      apply orb_false_iff in Hcond as [Herr Hprev'].
      apply bool_decide_eq_false in Herr.
      apply negb_false_iff, Z.eqb_eq in Hprev'.
      destruct err; [exfalso; apply Herr; discriminate|].
      now rewrite Hprev, Hprev'. }
  destruct d3 as [d0|]; run_bind; [|discriminate].
  specialize (Hd3 d0 eq_refl).
  destruct (metaFile_Snapshot m d0) as [snap [e|]]; [discriminate|].
  assert (Hgoal : forall w0,
            db w0 = None -> wdir w0 = dirName -> wid w0 = id0 ->
            wgid w0 = gid0 -> cache w0 = ∅ -> meta w0 = Some m ->
            entries w0 = Some l -> Ret (w0, d0) = Ret (w, d') ->
            db w = None /\ wdir w = dirName /\ wid w = id0 /\ wgid w = gid0 /\
            cache w = ∅ /\
            (exists m, meta w = Some m /\ metaFile_RaftId m d' = (id0, None)) /\
            (exists l, entries w = Some l) /\
            (forall h es snap d2, Save w h es snap d2 = Panicked) /\
            (forall lo hi maxSize,
               DiskStorage_allEntries w lo hi maxSize = Panicked)).
  { intros w0 H1 H2 H3 H4 H5 H6 H7 [= <- <-].
    repeat (split; [assumption|]).
    split; [exists m; auto|]. split; [exists l; auto|].
    split; intros; [unfold Save|unfold DiskStorage_allEntries];
      now rewrite H1. }
  destruct (negb (IsEmptySnap snap)).
  - apply Hgoal; reflexivity.
  - destruct (DiskStorage_FirstIndex d0 _) as [[first [e|]]|]; run_bind;
      try discriminate.
    apply Hgoal; reflexivity.
Qed.

(** The theorem at the store opened on the empty directory. *)
Lemma Init_store_witness :
  is_u64 7 /\
  Init walDir 7 1 emptyDisk = Ret (theStore initStore, storeDisk initStore) /\
  db (theStore initStore) = None /\
  Save (theStore initStore) None [] None (storeDisk initStore) = Panicked.
Proof.
  assert (Hid : is_u64 7) by (unfold is_u64; lia).
  assert (Hinit : Init walDir 7 1 emptyDisk =
                  Ret (theStore initStore, storeDisk initStore)).
  { assert (Hran : ran initStore = true) by (vm_compute; reflexivity).
    revert Hran. unfold initStore.
    destruct (Init walDir 7 1 emptyDisk) as [[w d]|]; [reflexivity|discriminate]. }
  destruct (Init_store walDir 7 1 emptyDisk _ _ Hid Hinit)
    as (Hdb & _ & _ & _ & _ & _ & _ & Hsave & _).
  split; [exact Hid|]. split; [exact Hinit|]. split; [exact Hdb|].
  apply Hsave.
Defined.

Lemma store_AddEntries_fields (w w' : DiskStorage) (es : list raftEntry)
    (d d' : Disk) (err : option error) :
  store_AddEntries w es d = Ret (w', err, d') ->
  db w' = db w /\ meta w' = meta w /\ cache w' = cache w /\
  wid w' = wid w /\ wgid w' = wgid w.
Proof.
  unfold store_AddEntries. destruct (entries w) as [l|].
  - destruct (entryLog_AddEntries l es d) as [[[l' e] d1]|]; run_bind;
      [|discriminate].
    intros [= <- _ _]. cbn. auto.
  - destruct es; [|discriminate]. intros [= <- _ _]. auto.
Qed.

Lemma setSnapshot_fields (w w' : DiskStorage) (batch batch' : WriteBatch)
    (snap : option Snapshot) (d d' : Disk) :
  setSnapshot w batch snap d = Ret (w', batch', None, d') ->
  db w' = db w /\ meta w' = meta w /\ wid w' = wid w /\ wgid w' = wgid w /\
  entries w' = entries w /\
  batch' = match snap with
           | Some s => if IsEmptySnap s then batch
                       else batch ++ [(snapIndex s, snapshotEntry s)]
           | None => batch
           end.
Proof.
  unfold setSnapshot. destruct snap as [s|]; [|intros [= <- <- _]; auto 10].
  destruct (IsEmptySnap s); [intros [= <- <- _]; auto 10|].
  destruct (meta w) as [m|] eqn:Hm; [|discriminate].
  destruct (metaFile_StoreSnapshot m (Some s) d) as [[er|] d1]; [discriminate|].
  cbn [reIndex].
  destruct (cache w !! lastKey) as [[s0|le]|]; [discriminate| |].
  - destruct (le <? snapIndex s); run_bind; intros [= <- <- _]; cbn;
      rewrite ?Hm; auto 10.
  - run_bind. intros [= <- <- _]. cbn. rewrite ?Hm. auto 10.
Qed.

Lemma batch_Flush_applied (ts : Z) (t t' : DB) (b : WriteBatch) :
  batch_Flush ts t b = Some t' -> t' = batch_apply t b.
Proof.
  unfold batch_Flush. destruct b as [|kv b]; [now intros [= <-]|].
  destruct (ts =? 0); [discriminate|now intros [= <-]].
Qed.

(** A [Save] that returns without error went through its four steps. *)
Lemma Save_returned (w w' : DiskStorage) (h : option HardState)
    (es : list raftEntry) (snap : option Snapshot) (d d' : Disk) :
  Save w h es snap d = Ret (w', None, d') ->
  exists t w1 d1 d2 w2 batch,
    db w = Some t /\
    store_AddEntries w es d = Ret (w1, None, d1) /\
    store_StoreHardState w1 h d1 = Ret (None, d2) /\
    setSnapshot w1 [] snap d2 = Ret (w2, batch, None, d') /\
    batch_Flush (commitTs w2) t batch = Some (batch_apply t batch) /\
    w' = set_db w2 (batch_apply t batch).
Proof.
  unfold Save. destruct (db w) as [t|]; [|discriminate].
  cbv zeta.
  destruct (store_AddEntries w es d) as [[[w1 [er|]] d1]|] eqn:Hadd;
    run_bind; try discriminate.
  destruct (store_StoreHardState w1 h d1) as [[[er|] d2]|] eqn:Hst;
    run_bind; try discriminate.
  destruct (setSnapshot w1 [] snap d2) as [[[[w2 batch] [er|]] d3]|]
    eqn:Hsnap; try discriminate.
  destruct (batch_Flush (commitTs w2) t batch) as [t'|] eqn:Hfl;
    [|discriminate].
  intros [= <- <-].
  pose proof (batch_Flush_applied _ _ _ _ Hfl) as ->.
  exists t, w1, d1, d2, w2, batch. auto 10.
Qed.

(** X21. [Save] writes none of the entries it is given to the key-value
    store: when it succeeds, the key-value store is the one from before,
    with the entry kept for a non-empty snapshot set at the snapshot
    index and nothing else; the identifiers and the meta file of the
    store are unchanged. *)
Theorem Save_key_value_store (w w' : DiskStorage) (h : option HardState)
    (es : list raftEntry) (snap : option Snapshot) (d d' : Disk) (t : DB)
    (Hdb : db w = Some t)
    (Hsave : Save w h es snap d = Ret (w', None, d')) :
  db w' = Some (match snap with
                | Some s => if IsEmptySnap s then t
                            else db_set t (snapIndex s) (snapshotEntry s)
                | None => t
                end) /\
  meta w' = meta w /\ wid w' = wid w /\ wgid w' = wgid w.
Proof.
  destruct (Save_returned _ _ _ _ _ _ _ Hsave)
    as (t0 & w1 & d1 & d2 & w2 & batch & Hdb0 & Hadd & _ & Hsnap & _ & ->).
  rewrite Hdb in Hdb0. injection Hdb0 as <-.
  apply store_AddEntries_fields in Hadd.
  destruct Hadd as (_ & Hm1 & _ & Hi1 & Hg1).
  apply setSnapshot_fields in Hsnap.
  destruct Hsnap as (_ & Hm2 & Hi2 & Hg2 & _ & ->).
  cbn [db meta wid wgid set_db].
  split; [|repeat split; congruence].
  destruct snap as [s|]; [|reflexivity].
  destruct (IsEmptySnap s); reflexivity.
Qed.

(** The theorem at the save of entries 1 to 5 into a store with an empty
    key-value store. *)
Lemma Save_key_value_store_witness :
  exists w' d',
    Save (theStore (withDB initStore)) None
      ((fun i => normalEntry i 1 []) <$> seqZ 1 5) None
      (storeDisk (withDB initStore)) = Ret (w', None, d') /\
    db w' = Some [].
Proof.
  assert (Hdb : db (theStore (withDB initStore)) = Some [])
    by (vm_compute; reflexivity).
  assert (Hok : match Save (theStore (withDB initStore)) None
                        ((fun i => normalEntry i 1 []) <$> seqZ 1 5) None
                        (storeDisk (withDB initStore)) with
                | Done (Ret (_, None, _)) => true
                | _ => false
                end = true) by (vm_compute; reflexivity).
  destruct (Save (theStore (withDB initStore)) None
              ((fun i => normalEntry i 1 []) <$> seqZ 1 5) None
              (storeDisk (withDB initStore)))
    as [[[[w' [er|]] d']|]|] eqn:Hsave; try discriminate Hok.
  exists w', d'. split; [reflexivity|].
  exact (proj1 (Save_key_value_store _ w' None _ None _ d' [] Hdb Hsave)).
Defined.

Lemma WriteSliceAt_length (d d' : Disk) (b : Buffer) (bs : list Z) (off : Z) :
  Z.of_nat (length bs) < 2 ^ 32 ->
  Buffer_WriteSliceAt d b bs off = (None, d') ->
  unle32 (disk_read d' (bfile b) off 4) = Z.of_nat (length bs).
Proof.
  intros Hlen Hw. apply WriteSliceAt_disk in Hw.
  destruct Hw as [[Herr _]|(_ & Hoff & Hfit & ->)].
  - now contradiction Herr.
  - rewrite (disk_read_write_same _ (bfile b) off (le32 _)).
    + apply unle32_le32. lia.
    + rewrite file_size_disk_write. lia.
Qed.

Lemma store_StoreHardState_written (w : DiskStorage) (hs : HardState)
    (d d' : Disk) :
  IsEmptyHardState hs = false ->
  store_StoreHardState w (Some hs) d = Ret (None, d') ->
  exists m, meta w = Some m /\
    Buffer_WriteSliceAt d (buf m) (HardState_Marshal hs) hardStateOffset =
      (None, d').
Proof.
  intros Hne. unfold store_StoreHardState, metaFile_StoreHardState.
  rewrite Hne. destruct (meta w) as [m|]; [|discriminate].
  intros [= Hw]. now exists m.
Qed.

Lemma HardState_after_write (m : metaFile) (hs : HardState) (d d' : Disk) :
  wf_HardState hs ->
  Buffer_WriteSliceAt d (buf m) (HardState_Marshal hs) hardStateOffset =
    (None, d') ->
  metaFile_HardState m d' = (hs, None).
Proof.
  intros (Ht & Hv & Hc) Hw. unfold metaFile_HardState.
  rewrite (Slice_WriteSliceAt d d' (buf m) (HardState_Marshal hs)
             hardStateOffset); [| |exact Hw].
  - rewrite length_HardState_Marshal. change (_ =? _) with false. cbv iota.
    now rewrite HardState_Unmarshal_Marshal.
  - rewrite length_HardState_Marshal. reflexivity.
Qed.

Lemma setSnapshot_HardState (w w' : DiskStorage) (batch batch' : WriteBatch)
    (snap : option Snapshot) (d d' : Disk) (m : metaFile) :
  meta w = Some m ->
  unle32 (disk_read d (bfile (buf m)) hardStateOffset 4) = 24 ->
  setSnapshot w batch snap d = Ret (w', batch', None, d') ->
  metaFile_HardState m d' = metaFile_HardState m d.
Proof.
  intros Hm Hlen. unfold setSnapshot.
  destruct snap as [s|]; [|now intros [= _ _ <-]].
  destruct (IsEmptySnap s); [now intros [= _ _ <-]|].
  rewrite Hm.
  destruct (metaFile_StoreSnapshot m (Some s) d) as [[er|] d1] eqn:Hst;
    [discriminate|].
  assert (Hhs : metaFile_HardState m d1 = metaFile_HardState m d).
  { unfold metaFile_StoreSnapshot in Hst.
    destruct (IsEmptySnap s); [now injection Hst as <-|].
    apply WriteSliceAt_disk in Hst.
    destruct Hst as [[_ ->]|(_ & _ & _ & ->)]; [reflexivity|].
    unfold metaFile_HardState, hardStateOffset, snapshotOffset in *.
    rewrite Buffer_Slice_write_after.
    - rewrite Buffer_Slice_write_after; [reflexivity|lia|lia].
    - rewrite disk_read_write_other by lia. lia.
    - rewrite disk_read_write_other by lia. lia. }
  cbn [reIndex].
  destruct (cache w !! lastKey) as [[s0|le]|]; [discriminate| |].
  - destruct (le <? snapIndex s); run_bind; now intros [= _ _ <-].
  - run_bind. now intros [= _ _ <-].
Qed.

(** X22. After a successful [Save] of a non-empty hard state and a
    non-empty snapshot, [InitialState] returns that hard state and the
    configuration state of that snapshot, and [Snapshot] returns the
    snapshot: the snapshot record written after the hard state does not
    reach the hard state record. *)
Theorem Save_InitialState (w w' : DiskStorage) (hs : HardState)
    (es : list raftEntry) (s : Snapshot) (d d' : Disk)
    (Hhs : IsEmptyHardState hs = false) (Hwf : wf_HardState hs)
    (Hs : IsEmptySnap s = false)
    (Hsave : Save w (Some hs) es (Some s) d = Ret (w', None, d')) :
  InitialState d' w' = Ret (hs, snapConfState s, None) /\
  DiskStorage_HardState d' w' = (hs, None) /\
  DiskStorage_Snapshot d' w' = Ret (s, None).
Proof.
  destruct (Save_returned _ _ _ _ _ _ _ Hsave)
    as (t & w1 & d1 & d2 & w2 & batch & _ & _ & Hst & Hsnap & _ & ->).
  destruct (store_StoreHardState_written w1 hs d1 d2 Hhs Hst) as (m & Hm & Hw).
  pose proof (HardState_after_write m hs d1 d2 Hwf Hw) as Hread.
  assert (Hlt : Z.of_nat (length (HardState_Marshal hs)) < 2 ^ 32)
    by (rewrite length_HardState_Marshal; reflexivity).
  pose proof (WriteSliceAt_length d1 d2 (buf m) _ _ Hlt Hw) as Hlen.
  rewrite length_HardState_Marshal in Hlen.
  pose proof (setSnapshot_HardState w1 w2 [] batch (Some s) d2 d' m Hm Hlen
                Hsnap) as Hkeep.
  pose proof (Snapshot_after_setSnapshot w1 w2 [] batch s d2 d' Hs Hsnap)
    as Hsn.
  destruct (setSnapshot_fields _ _ _ _ _ _ _ Hsnap) as (_ & Hm2 & _).
  assert (Hsn' : DiskStorage_Snapshot d' (set_db w2 (batch_apply t batch)) =
                 Ret (s, None)) by exact Hsn.
  assert (Hmeta : meta (set_db w2 (batch_apply t batch)) = Some m)
    by (cbn [meta set_db]; congruence).
  split; [|split].
  - unfold InitialState. rewrite Hmeta, Hkeep, Hread, Hsn'. reflexivity.
  - unfold DiskStorage_HardState. now rewrite Hmeta, Hkeep, Hread.
  - exact Hsn'.
Qed.

(** The theorem at the save, at commit timestamp 1, of entry 1, hard
    state (1, 0, 1) and a snapshot at index 1. *)
Lemma Save_InitialState_witness :
  let hs := {| hsTerm := 1; hsVote := 0; hsCommit := 1 |} in
  let st := atCommitTs (withDB initStore) 1 in
  exists w' d',
    Save (theStore st) (Some hs) [normalEntry 1 1 []] (Some snap1)
      (storeDisk st) = Ret (w', None, d') /\
    InitialState d' w' = Ret (hs, [7], None).
Proof.
  intros hs st.
  assert (Hhs : IsEmptyHardState hs = false) by reflexivity.
  assert (Hwf : wf_HardState hs) by (unfold wf_HardState, is_u64; cbn; lia).
  assert (Hs : IsEmptySnap snap1 = false) by reflexivity.
  assert (Hok : match Save (theStore st) (Some hs) [normalEntry 1 1 []]
                        (Some snap1) (storeDisk st) with
                | Done (Ret (_, None, _)) => true
                | _ => false
                end = true) by (vm_compute; reflexivity).
  destruct (Save (theStore st) (Some hs) [normalEntry 1 1 []] (Some snap1)
              (storeDisk st))
    as [[[[w' [er|]] d']|]|] eqn:Hsave; try discriminate Hok.
  exists w', d'. split; [reflexivity|].
  exact (proj1 (Save_InitialState _ w' hs _ snap1 _ d' Hhs Hwf Hs Hsave)).
Defined.

(** ** The key-value store: lookups, sets and deletes *)

Lemma db_sorted_cons (k : Z) (v : raftEntry) (t : DB) :
  db_sorted ((k, v) :: t) <->
  db_sorted t /\ Forall (fun kv => k < fst kv) t.
Proof.
  revert k v. induction t as [|[k' v'] t IH]; intros k v.
  - cbn. split; [intros _; split; [exact I|constructor]|auto].
  - change (db_sorted ((k, v) :: (k', v') :: t))
      with (k < k' /\ db_sorted ((k', v') :: t)).
    split.
    + intros [Hlt Hs]. split; [assumption|].
      constructor; [assumption|].
      apply IH in Hs as [_ Hall].
      eapply Forall_impl; [exact Hall|]. cbn. intros; lia.
    + intros [Hs Hall]. split; [|assumption].
      now apply Forall_inv in Hall.
Qed.

Lemma db_get_None (t : DB) (k : Z) :
  db_get t k = None <-> k ∉ (fst <$> t).
Proof.
  induction t as [|[k' v] t IH]; cbn [db_get].
  - split; [intros _; apply not_elem_of_nil|reflexivity].
  - rewrite fmap_cons, not_elem_of_cons. cbn [fst].
    destruct (Z.eqb_spec k' k) as [Heq|Hne].
    + split; [discriminate|intros [H _]; congruence].
    + rewrite IH. split; [intros H; split; [congruence|assumption]|tauto].
Qed.

Lemma db_get_db_delete (t : DB) (k k' : Z) :
  db_get (db_delete t k) k' = if k' =? k then None else db_get t k'.
Proof.
  induction t as [|[k0 v] t IH]; cbn [db_delete db_get].
  - now destruct (k' =? k).
  - destruct (Z.eqb_spec k0 k) as [Heq|Hne].
    + rewrite IH. destruct (Z.eqb_spec k' k) as [Heq'|Hne']; [reflexivity|].
      destruct (Z.eqb_spec k0 k'); [congruence|reflexivity].
    + cbn [db_get]. rewrite IH.
      destruct (Z.eqb_spec k0 k') as [Heq'|Hne']; [|reflexivity].
      destruct (Z.eqb_spec k' k); [congruence|reflexivity].
Qed.

Lemma db_get_db_set (t : DB) (k k' : Z) (v : raftEntry) :
  db_get (db_set t k v) k' = if k' =? k then Some v else db_get t k'.
Proof.
  induction t as [|[k0 v0] t IH]; cbn [db_set db_get].
  - rewrite (Z.eqb_sym k k'). now destruct (k' =? k).
  - destruct (Z.ltb_spec k k0).
    + cbn [db_get]. rewrite (Z.eqb_sym k k'). now destruct (k' =? k).
    + destruct (Z.eqb_spec k k0) as [Heq|Hne].
      * cbn [db_get]. rewrite (Z.eqb_sym k k').
        destruct (Z.eqb_spec k' k) as [Heq'|Hne']; [reflexivity|].
        destruct (Z.eqb_spec k0 k'); [congruence|reflexivity].
      * cbn [db_get]. rewrite IH.
        destruct (Z.eqb_spec k0 k') as [Heq'|Hne']; [|reflexivity].
        destruct (Z.eqb_spec k' k); [congruence|reflexivity].
Qed.

Lemma db_get_deletes (ks : list Z) (t : DB) (k : Z) :
  db_get (ops_Flush t (OpDelete <$> ks)) k =
    if bool_decide (k ∈ ks) then None else db_get t k.
Proof.
  revert t. induction ks as [|k0 ks IH]; intros t.
  - cbn. rewrite bool_decide_eq_false_2; [reflexivity|apply not_elem_of_nil].
  - rewrite fmap_cons. cbn [ops_Flush foldl apply_op].
    fold (ops_Flush (db_delete t k0) (OpDelete <$> ks)).
    rewrite IH, db_get_db_delete.
    destruct (Z.eqb_spec k k0) as [Heq|Hne].
    + rewrite (bool_decide_eq_true_2 (k ∈ k0 :: ks)) by (rewrite Heq; left).
      now destruct (bool_decide _).
    + destruct (decide (k ∈ ks)) as [Hin|Hnin].
      * rewrite !bool_decide_eq_true_2; [reflexivity|now right|assumption].
      * rewrite !bool_decide_eq_false_2; [reflexivity| |assumption].
        rewrite not_elem_of_cons. tauto.
Qed.

Lemma db_seek_keys (t : DB) (from k : Z) :
  db_sorted t ->
  k ∈ (fst <$> db_seek t from) <-> from <= k /\ k ∈ (fst <$> t).
Proof.
  induction t as [|[k0 v] t IH]; intros Hs.
  - cbn. split; [intros H; now apply elem_of_nil in H|
                 intros [_ H]; now apply elem_of_nil in H].
  - apply db_sorted_cons in Hs as [Hs Hall]. cbn [db_seek].
    destruct (Z.ltb_spec k0 from) as [Hlt|Hge].
    + rewrite IH by assumption. rewrite fmap_cons, elem_of_cons. cbn [fst].
      split; [tauto|]. intros [Hk [Heq|Hin]]; [lia|tauto].
    + split; [|tauto]. intros Hin. split; [|assumption].
      rewrite fmap_cons, elem_of_cons in Hin. cbn [fst] in Hin.
      destruct Hin as [Heq|Hin]; [lia|].
      apply list_elem_of_fmap in Hin as ([k1 v1] & Heq & Hin).
      rewrite Forall_forall in Hall. specialize (Hall _ Hin). cbn in *. lia.
Qed.

Lemma deleteFrom_ops (w : DiskStorage) (batch : list batchOp) (from : Z)
    (t : DB) :
  db w = Some t ->
  deleteFrom w batch from =
    Ret (batch ++ (OpDelete <$> (fst <$> db_seek t from)), None).
Proof.
  intros Hdb. unfold deleteFrom, deleteKeys. rewrite Hdb.
  destruct (fst <$> db_seek t from) as [|k ks]; [|reflexivity].
  cbn. now rewrite app_nil_r.
Qed.

(** X23. [deleteFrom(batch, from)] on a key-value store with ascending
    keys never fails, and once the batch is flushed every key at or above
    [from] is gone while every key below [from] holds what it held. *)
Theorem deleteFrom_flush (w : DiskStorage) (from : Z) (t : DB)
    (Hdb : db w = Some t) (Hsorted : db_sorted t) :
  exists ops,
    deleteFrom w [] from = Ret (ops, None) /\
    forall k, db_get (ops_Flush t ops) k =
                if k <? from then db_get t k else None.
Proof.
  eexists. split; [exact (deleteFrom_ops w [] from t Hdb)|].
  intros k. cbn [app]. rewrite db_get_deletes.
  destruct (Z.ltb_spec k from) as [Hlt|Hge].
  - rewrite bool_decide_eq_false_2; [reflexivity|].
    rewrite db_seek_keys by assumption. lia.
  - destruct (decide (k ∈ (fst <$> db_seek t from))) as [Hin|Hnin].
    + now rewrite bool_decide_eq_true_2.
    + rewrite bool_decide_eq_false_2 by assumption.
      apply db_get_None. rewrite db_seek_keys in Hnin by assumption. tauto.
Qed.

(** The theorem at a store of three entries, deleted from index 2 on. *)
Lemma deleteFrom_flush_witness :
  let t := [(1, normalEntry 1 1 []); (2, normalEntry 2 1 []);
            (3, normalEntry 3 1 [])] in
  let w := set_db emptyStore t in
  db_sorted t /\
  exists ops,
    deleteFrom w [] 2 = Ret (ops, None) /\
    db_get (ops_Flush t ops) 1 = Some (normalEntry 1 1 []) /\
    db_get (ops_Flush t ops) 3 = None.
Proof.
  intros t w.
  assert (Hs : db_sorted t) by (cbn; lia).
  split; [exact Hs|].
  destruct (deleteFrom_flush w 2 t eq_refl Hs) as (ops & Hdel & Hget).
  exists ops. split; [exact Hdel|]. split.
  - exact (Hget 1).
  - exact (Hget 3).
Defined.

Lemma filter_none {A : Type} (P : A -> Prop) `{!forall x, Decision (P x)}
    (l : list A) :
  Forall (fun x => ~ P x) l -> filter P l = [].
Proof.
  induction 1 as [|x l Hx _ IH]; [reflexivity|].
  now rewrite filter_cons_False.
Qed.

Lemma db_seek_sorted (t : DB) (from : Z) :
  db_sorted t -> db_sorted (db_seek t from).
Proof.
  induction t as [|[k0 v] t IH]; intros Hs; [exact I|].
  cbn [db_seek]. destruct (k0 <? from); [|assumption].
  apply IH. now apply db_sorted_cons in Hs.
Qed.

Lemma deleteRange_loop_rest (items : DB) (until : Z) (keys : list Z) :
  db_sorted items ->
  deleteRange_loop items until false keys =
    (keys ++ filter (fun k => k < until) (fst <$> items), None).
Proof.
  revert keys. induction items as [|[k0 v] items IH]; intros keys Hs.
  - cbn. now rewrite app_nil_r.
  - apply db_sorted_cons in Hs as [Hs Hall].
    cbn [deleteRange_loop andb]. rewrite fmap_cons. cbn [fst].
    destruct (Z.geb_spec k0 until) as [Hge|Hlt].
    + rewrite filter_cons_False by lia.
      replace (filter (fun k => k < until) (fst <$> items)) with (@nil Z).
      * now rewrite app_nil_r.
      * symmetry. apply filter_none.
        rewrite Forall_fmap. eapply Forall_impl; [exact Hall|].
        cbn. intros; lia.
    + rewrite filter_cons_True by lia.
      rewrite IH by assumption. now rewrite <- app_assoc.
Qed.

(** X24. [deleteRange(batch, from, until)] on a key-value store with
    ascending keys: when no key lies at or above [from] nothing is
    deleted; when the first such key is not below [until] the result is
    the Compacted error and an untouched batch; otherwise, once the batch
    is flushed, exactly the keys in [from, until) are gone. *)
Theorem deleteRange_flush (w : DiskStorage) (from until : Z) (t : DB)
    (Hdb : db w = Some t) (Hsorted : db_sorted t) :
  match db_seek t from with
  | [] => deleteRange w [] from until = Ret ([], None)
  | (k0, _) :: _ =>
      if until <=? k0
      then deleteRange w [] from until = Ret ([], Some ErrCompacted)
      else exists ops,
             deleteRange w [] from until = Ret (ops, None) /\
             forall k, db_get (ops_Flush t ops) k =
                         if (from <=? k) && (k <? until) then None
                         else db_get t k
  end.
Proof.
  unfold deleteRange. rewrite Hdb.
  pose proof (fun k => db_seek_keys t from k Hsorted) as Hkeys.
  pose proof (db_seek_sorted t from Hsorted) as Hss.
  destruct (db_seek t from) as [|[k0 v] items] eqn:Hseek; [reflexivity|].
  cbn [deleteRange_loop andb].
  destruct (Z.leb_spec until k0) as [Hle|Hgt]; [reflexivity|].
  destruct (Z.geb_spec k0 until); [lia|].
  apply db_sorted_cons in Hss as [Hss Hall].
  rewrite deleteRange_loop_rest by assumption. cbn [app].
  eexists. split; [reflexivity|].
  intros k. unfold deleteKeys. cbn [length]. cbn [app].
  replace (Z.of_nat (S (length (filter (fun k1 => k1 < until)
                                  (fst <$> items)))) =? 0) with false
    by (symmetry; apply Z.eqb_neq; lia).
  rewrite db_get_deletes.
  assert (Hin : k ∈ k0 :: filter (fun k1 => k1 < until) (fst <$> items) <->
                (from <= k /\ k ∈ (fst <$> t)) /\ k < until).
  { rewrite <- Hkeys, fmap_cons, !elem_of_cons, list_elem_of_filter.
    cbn [fst]. split; [intros [Heq|[H1 H2]]|intros [[Heq|H1] H2]];
      (tauto || (subst; tauto) || (split; [tauto|lia])). }
  destruct (decide (k ∈ k0 :: filter (fun k1 => k1 < until) (fst <$> items)))
    as [Hk|Hk].
  - rewrite bool_decide_eq_true_2 by assumption.
    apply Hin in Hk as [[H1 _] H2].
    destruct (Z.leb_spec from k); [|lia].
    destruct (Z.ltb_spec k until); [reflexivity|lia].
  - rewrite bool_decide_eq_false_2 by assumption.
    destruct (Z.leb_spec from k); [|reflexivity].
    destruct (Z.ltb_spec k until); [|reflexivity]. cbn [andb].
    apply db_get_None. intros Hkt. apply Hk, Hin. tauto.
Qed.

(** The theorem at a store of three entries: the range from 1 to 3 is
    deleted, the range from 2 to 2 is answered with Compacted. *)
Lemma deleteRange_flush_witness :
  let t := [(1, normalEntry 1 1 []); (2, normalEntry 2 1 []);
            (3, normalEntry 3 1 [])] in
  let w := set_db emptyStore t in
  db_sorted t /\
  deleteRange w [] 2 2 = Ret ([], Some ErrCompacted) /\
  exists ops,
    deleteRange w [] 1 3 = Ret (ops, None) /\
    db_get (ops_Flush t ops) 2 = None /\
    db_get (ops_Flush t ops) 3 = Some (normalEntry 3 1 []).
Proof.
  intros t w.
  assert (Hs : db_sorted t) by (cbn; lia).
  split; [exact Hs|]. split.
  - exact (deleteRange_flush w 2 2 t eq_refl Hs).
  - destruct (deleteRange_flush w 1 3 t eq_refl Hs) as (ops & Hdel & Hget).
    exists ops. split; [exact Hdel|]. split.
    + exact (Hget 2).
    + exact (Hget 3).
Defined.

Lemma elem_of_db_delete (t : DB) (k : Z) (kv : Z * raftEntry) :
  kv ∈ db_delete t k -> kv ∈ t /\ fst kv <> k.
Proof.
  induction t as [|[k0 v] t IH]; cbn [db_delete].
  - intros H. now apply elem_of_nil in H.
  - destruct (Z.eqb_spec k0 k) as [Heq|Hne].
    + intros H. apply IH in H as [H1 H2]. split; [now right|assumption].
    + rewrite !elem_of_cons. intros [Heq|H].
      * subst kv. split; [now left|assumption].
      * apply IH in H as [H1 H2]. split; [now right|assumption].
Qed.

Lemma ops_Flush_delete_all (ks : list Z) (t : DB) :
  (forall kv, kv ∈ t -> fst kv ∈ ks) ->
  ops_Flush t (OpDelete <$> ks) = [].
Proof.
  revert t. induction ks as [|k ks IH]; intros t Hall.
  - destruct t as [|kv t]; [reflexivity|].
    specialize (Hall kv ltac:(left)). now apply elem_of_nil in Hall.
  - rewrite fmap_cons. cbn [ops_Flush foldl apply_op].
    apply IH. intros kv Hin. apply elem_of_db_delete in Hin as [Hin Hne].
    specialize (Hall kv Hin). apply elem_of_cons in Hall as [Heq|Hin'];
      [contradiction|assumption].
Qed.

Lemma elem_of_db_set (t : DB) (k : Z) (v : raftEntry) (kv : Z * raftEntry) :
  kv ∈ db_set t k v -> kv = (k, v) \/ kv ∈ t.
Proof.
  induction t as [|[k0 v0] t IH]; cbn [db_set].
  - rewrite list_elem_of_singleton. tauto.
  - destruct (k <? k0); [rewrite elem_of_cons; tauto|].
    destruct (k =? k0).
    + rewrite !elem_of_cons. tauto.
    + rewrite !elem_of_cons. intros [H|H]; [tauto|].
      apply IH in H. tauto.
Qed.

Lemma db_set_sorted (t : DB) (k : Z) (v : raftEntry) :
  db_sorted t -> db_sorted (db_set t k v).
Proof.
  induction t as [|[k0 v0] t IH]; intros Hs; [exact I|].
  pose proof Hs as Hs'. apply db_sorted_cons in Hs' as [Hst Hall].
  cbn [db_set]. destruct (Z.ltb_spec k k0) as [Hlt|Hge].
  - apply db_sorted_cons. split; [assumption|].
    constructor; [assumption|].
    eapply Forall_impl; [exact Hall|]. cbn. intros; lia.
  - destruct (Z.eqb_spec k k0) as [Heq|Hne].
    + apply db_sorted_cons. split; [assumption|]. now rewrite Heq.
    + apply db_sorted_cons. split; [now apply IH|].
      apply Forall_forall. intros kv Hin.
      apply elem_of_db_set in Hin as [Heq|Hin].
      * subst kv. cbn. lia.
      * rewrite Forall_forall in Hall. now apply Hall.
Qed.

Lemma db_set_keyed (t : DB) (k : Z) (v : raftEntry) :
  db_keyed t -> reIndex v = k -> db_keyed (db_set t k v).
Proof.
  unfold db_keyed. intros Hk Hv. apply Forall_forall. intros kv Hin.
  apply elem_of_db_set in Hin as [Heq|Hin].
  - now subst kv.
  - rewrite Forall_forall in Hk. now apply Hk.
Qed.

Lemma ops_Flush_sets (es : list raftEntry) (t : DB) :
  db_sorted t -> db_keyed t ->
  let t' := ops_Flush t ((fun e => OpSet (reIndex e) e) <$> es) in
  db_sorted t' /\ db_keyed t' /\
  forall k, db_get t' k =
              match last (filter (fun e => reIndex e = k) es) with
              | Some e => Some e
              | None => db_get t k
              end.
Proof.
  cbv zeta. induction es as [|e es IH] using rev_ind; intros Hs Hk.
  - cbn. auto.
  - destruct (IH Hs Hk) as (Hs' & Hk' & Hget).
    rewrite fmap_app. unfold ops_Flush in *. rewrite foldl_app.
    cbn [fmap list_fmap foldl apply_op].
    split; [now apply db_set_sorted|].
    split; [now apply db_set_keyed|].
    intros k. rewrite db_get_db_set, filter_app.
    destruct (Z.eqb_spec k (reIndex e)) as [Heq|Hne].
    + rewrite (filter_cons_True _ e []) by congruence.
      now rewrite filter_nil, last_snoc.
    + rewrite (filter_cons_False _ e []) by congruence.
      rewrite filter_nil, app_nil_r. apply Hget.
Qed.

Lemma ops_Commit_nil (ts : Z) (t : DB) (b : list batchOp) :
  b = [] -> ops_Commit ts t b = Some (ops_Flush t b).
Proof. now intros ->. Qed.

Lemma ops_Commit_at (ts : Z) (t : DB) (b : list batchOp) :
  ts <> 0 -> ops_Commit ts t b = Some (ops_Flush t b).
Proof.
  intros Hts. unfold ops_Commit. destruct b as [|op b]; [reflexivity|].
  destruct (Z.eqb_spec ts 0); [contradiction|reflexivity].
Qed.

Lemma ops_Commit_blocked (t : DB) (b : list batchOp) :
  b <> [] -> ops_Commit 0 t b = None.
Proof. destruct b; [contradiction|reflexivity]. Qed.

(** X25. [reset(es)] on a store with a key-value store deletes every key
    and sets the entries given, in one batch flushed at the store's commit
    timestamp. At timestamp 0, which is what [Init] leaves, the call does
    not return as soon as there is a key to delete or an entry to set. At
    any other timestamp, or with nothing to write, it returns no error,
    leaves an empty cache, and the store then holds, under each index, the
    last of the entries given with that index and nothing else, with its
    keys in ascending order. *)
Theorem reset_replaces (w : DiskStorage) (es : list raftEntry) (t : DB)
    (Hdb : db w = Some t)
    (Hkeys : Forall (fun kv => 0 <= fst kv) t) :
  (commitTs w = 0 -> t <> [] \/ es <> [] -> reset w es = Blocked) /\
  (commitTs w <> 0 \/ (t = [] /\ es = []) ->
   exists w' t',
     reset w es = Ret (w', None) /\
     cache w' = ∅ /\ db w' = Some t' /\
     db_sorted t' /\ db_keyed t' /\
     forall k, db_get t' k = last (filter (fun e => reIndex e = k) es)).
Proof.
  assert (Hseek : db_seek t 0 = t).
  { destruct t as [|[k0 v] t']; [reflexivity|].
    apply Forall_inv in Hkeys. cbn in *.
    destruct (Z.ltb_spec k0 0); [lia|reflexivity]. }
  assert (Hreset : reset w es =
            match ops_Commit (commitTs w) t
                    ((OpDelete <$> (fst <$> t)) ++
                     ((fun e => OpSet (reIndex e) e) <$> es)) with
            | Some t' => Done (Ret (set_db (set_cache w ∅) t', None))
            | None => Blocked
            end).
  { unfold reset. cbv zeta. cbn [db set_cache]. rewrite Hdb.
    rewrite (deleteFrom_ops _ [] 0 t) by (cbn [db set_cache]; assumption).
    cbn [app]. rewrite Hseek. reflexivity. }
  rewrite Hreset. split.
  - intros Hts Hwrite. rewrite Hts, ops_Commit_blocked; [reflexivity|].
    destruct Hwrite as [Ht|Hes].
    + destruct t; [contradiction|discriminate].
    + destruct es; [contradiction|]. now destruct (OpDelete <$> (fst <$> t)).
  - intros Hcase.
    assert (Hc : ops_Commit (commitTs w) t
                   ((OpDelete <$> (fst <$> t)) ++
                    ((fun e => OpSet (reIndex e) e) <$> es)) =
                 Some (ops_Flush t
                         ((OpDelete <$> (fst <$> t)) ++
                          ((fun e => OpSet (reIndex e) e) <$> es)))).
    { destruct Hcase as [Hts|[-> ->]];
        [now apply ops_Commit_at|now apply ops_Commit_nil]. }
    rewrite Hc. unfold ops_Flush. rewrite foldl_app.
    fold (ops_Flush t (OpDelete <$> (fst <$> t))).
    rewrite ops_Flush_delete_all
      by (intros kv Hin; apply list_elem_of_fmap; now exists kv).
    destruct (ops_Flush_sets es [] I (Forall_nil_2 _)) as (Hs & Hk & Hget).
    unfold ops_Flush in Hs, Hk, Hget.
    eexists _, _. split; [reflexivity|]. cbn [cache db set_db set_cache].
    split; [reflexivity|]. split; [reflexivity|].
    split; [exact Hs|]. split; [exact Hk|].
    intros k. rewrite (Hget k).
    now destruct (last (filter (fun e => reIndex e = k) es)).
Qed.

(** The theorem at a store of two entries, reset to one entry of index 0:
    at commit timestamp 1 the store then holds that entry alone, at
    commit timestamp 0 the call does not return. *)
Lemma reset_replaces_witness :
  let t := [(1, normalEntry 1 1 []); (2, normalEntry 2 1 [])] in
  let w0 := set_db emptyStore t in
  let w1 := set_commitTs w0 1 in
  reset w0 [normalEntry 0 0 []] = Blocked /\
  exists w' t',
    reset w1 [normalEntry 0 0 []] = Ret (w', None) /\
    db w' = Some t' /\
    db_get t' 0 = Some (normalEntry 0 0 []) /\ db_get t' 1 = None.
Proof.
  intros t w0 w1.
  assert (Hkeys : Forall (fun kv : Z * raftEntry => 0 <= fst kv) t)
    by (repeat constructor; cbn; lia).
  split.
  - apply (proj1 (reset_replaces w0 [normalEntry 0 0 []] t eq_refl Hkeys));
      [reflexivity|left; discriminate].
  - destruct (proj2 (reset_replaces w1 [normalEntry 0 0 []] t eq_refl Hkeys))
      as (w' & t' & Hr & _ & Hdb' & _ & _ & Hget); [left; discriminate|].
    exists w', t'. split; [exact Hr|]. split; [exact Hdb'|]. split.
    + exact (Hget 0).
    + exact (Hget 1).
Defined.

(** ** Reading a range from the key-value store *)

Lemma take_prefix_filter {A : Type} (P : A -> Prop)
    `{!forall x, Decision (P x)} (n : nat) (l : list A) :
  Forall P (take n l) -> take n l `prefix_of` filter P l.
Proof.
  intros Hall. rewrite <- (take_drop n l) at 2. rewrite filter_app.
  apply prefix_app_r.
  replace (filter P (take n l)) with (take n l); [reflexivity|].
  clear -Hall. induction Hall as [|x l' Hx _ IH]; [reflexivity|].
  now rewrite filter_cons_True, <- IH.
Qed.

Lemma DiskStorage_allEntries_loop_take (items : DB)
    (lo hi maxSize size lastIdx : Z) (first : bool) (es : list raftEntry) :
  db_sorted items -> db_keyed items ->
  Forall (fun kv => lo <= fst kv /\ lastIdx < fst kv) items ->
  exists n,
    DiskStorage_allEntries_loop items lo hi maxSize size lastIdx first es =
      Ret (es ++ (snd <$> take n items)) /\
    Forall (fun kv => fst kv < hi) (take n items) /\
    (first = true ->
     match items with
     | [] => True
     | kv :: _ => fst kv < hi -> (0 < n)%nat
     end).
Proof.
  revert size lastIdx first es.
  induction items as [|[k e] items IH];
    intros size lastIdx first es Hs Hk Hall.
  - exists 0%nat. cbn. rewrite app_nil_r. auto.
  - apply db_sorted_cons in Hs as [Hs Hgt].
    pose proof (Forall_inv Hk) as Hke. cbn in Hke.
    apply Forall_inv_tail in Hk.
    pose proof (Forall_inv Hall) as [Hlo Hlast]. cbn in Hlo, Hlast.
    cbn [DiskStorage_allEntries_loop]. rewrite Hke.
    destruct (Z.gtb_spec k lastIdx); [|lia].
    destruct (Z.geb_spec k lo); [|lia]. cbn [andb AssertTrue]. run_bind.
    destruct (Z.geb_spec k hi) as [Hhi|Hhi].
    + exists 0%nat. cbn. rewrite app_nil_r.
      split; [reflexivity|]. split; [constructor|]. intros _ ?. lia.
    + destruct ((u64 (size + raftEntry_Size e) >? maxSize) && negb first)
        eqn:Hcut.
      * exists 0%nat. cbn. rewrite app_nil_r.
        split; [reflexivity|]. split; [constructor|].
        intros ->. now rewrite andb_false_r in Hcut.
      * destruct (IH (u64 (size + raftEntry_Size e)) k false (es ++ [e])
                    Hs Hk) as (n & Hloop & Hlt & _).
        { eapply Forall_impl; [exact Hgt|]. cbn.
          apply Forall_inv_tail in Hall. intros kv Hkv. lia. }
        exists (S n). cbn [take fmap list_fmap snd].
        split; [|split].
        -- rewrite Hloop, <- app_assoc. reflexivity.
        -- constructor; [cbn; lia|assumption].
        -- intros _ _. lia.
Qed.

(** X26. On a key-value store whose keys ascend and whose entries are
    stored under their own index, [allEntries(lo, hi, maxSize)] for a
    positive [lo] and a range of other than one index returns, without
    error, a run of the stored entries in key order from the first key at
    or above [lo] on, all of them with an index in [lo, hi); the run is
    empty only when no key lies in [lo, hi). *)
Theorem DiskStorage_allEntries_range (w : DiskStorage) (lo hi maxSize : Z)
    (t : DB)
    (Hdb : db w = Some t) (Hsorted : db_sorted t) (Hkeyed : db_keyed t)
    (Hlo : 0 < lo) (Hmany : u64 (hi - lo) <> 1) :
  exists es,
    DiskStorage_allEntries w lo hi maxSize = Ret (es, None) /\
    es `prefix_of`
      (snd <$> filter (fun kv => fst kv < hi) (db_seek t lo)) /\
    Forall (fun e => lo <= reIndex e < hi) es /\
    (es = [] -> forall k, lo <= k < hi -> db_get t k = None).
Proof.
  unfold DiskStorage_allEntries. rewrite Hdb.
  destruct (Z.eqb_spec (u64 (hi - lo)) 1) as [Heq1|Hne1]; [contradiction|].
  pose proof (db_seek_sorted t lo Hsorted) as Hss.
  assert (Hsk : db_keyed (db_seek t lo)).
  { clear -Hkeyed. induction t as [|[k0 v] t IH]; [constructor|].
    cbn [db_seek]. destruct (k0 <? lo); [|assumption].
    apply IH. now apply Forall_inv_tail in Hkeyed. }
  assert (Hge : Forall (fun kv => lo <= fst kv) (db_seek t lo)).
  { apply Forall_forall. intros [k v] Hin.
    assert (Hk : k ∈ (fst <$> db_seek t lo))
      by (apply list_elem_of_fmap; now exists (k, v)).
    apply db_seek_keys in Hk; [cbn; lia|assumption]. }
  destruct (DiskStorage_allEntries_loop_take (db_seek t lo) lo hi maxSize
              0 0 true [] Hss Hsk) as (n & Hloop & Hlt & Hfirst).
  { eapply Forall_impl; [exact Hge|]. cbn. intros; lia. }
  rewrite Hloop. run_bind. cbn [app].
  exists (snd <$> take n (db_seek t lo)).
  split; [reflexivity|]. split; [|split].
  - destruct (take_prefix_filter (fun kv => fst kv < hi) n (db_seek t lo) Hlt)
      as [rest Hrest].
    exists (snd <$> rest). rewrite <- fmap_app. f_equal. exact Hrest.
  - rewrite Forall_fmap. apply Forall_forall. intros [k v] Hin. cbn.
    assert (Hin' : (k, v) ∈ db_seek t lo).
    { rewrite <- (take_drop n (db_seek t lo)). apply elem_of_app. now left. }
    unfold db_keyed in Hsk. rewrite Forall_forall in Hlt, Hge, Hsk.
    specialize (Hlt _ Hin). specialize (Hge _ Hin').
    specialize (Hsk _ Hin'). cbn in *. lia.
  - intros Hnil k Hk. apply db_get_None. intros Hin.
    assert (Hin' : k ∈ (fst <$> db_seek t lo))
      by (apply db_seek_keys; [assumption|split; [lia|assumption]]).
    specialize (Hfirst eq_refl).
    destruct (db_seek t lo) as [|[k0 v0] items] eqn:Hseek.
    + now apply elem_of_nil in Hin'.
    + apply db_sorted_cons in Hss as [_ Hall].
      assert (Hk0 : k0 <= k).
      { rewrite fmap_cons, elem_of_cons in Hin'. cbn [fst] in Hin'.
        destruct Hin' as [Heq|Hin']; [lia|].
        apply list_elem_of_fmap in Hin' as ([k1 v1] & Heq & Hin').
        rewrite Forall_forall in Hall. specialize (Hall _ Hin').
        cbn in *. lia. }
      cbn [fst] in Hfirst. specialize (Hfirst ltac:(lia)).
      destruct n; [lia|]. discriminate Hnil.
Qed.

(** The theorem at a store of three entries, read from 2 to 9. *)
Lemma DiskStorage_allEntries_range_witness :
  let t := [(1, normalEntry 1 1 []); (2, normalEntry 2 1 []);
            (3, normalEntry 3 1 [])] in
  let w := set_db emptyStore t in
  exists es,
    DiskStorage_allEntries w 2 9 1024 = Ret (es, None) /\
    Forall (fun e => 2 <= reIndex e < 9) es.
Proof.
  intros t w.
  assert (Hs : db_sorted t) by (cbn; lia).
  assert (Hk : db_keyed t) by (repeat constructor).
  assert (Hlo : 0 < 2) by lia.
  assert (Hmany : u64 (9 - 2) <> 1) by (vm_compute; discriminate).
  destruct (DiskStorage_allEntries_range w 2 9 1024 t eq_refl Hs Hk Hlo Hmany)
    as (es & Hrd & _ & Hall & _).
  exists es. split; [exact Hrd|exact Hall].
Defined.

(** ** Opening a directory a second time *)

Lemma append_cons (c : ascii) (a b : string) :
  String c a +:+ b = String c (a +:+ b).
Proof. reflexivity. Qed.

Lemma length_append (a b : string) :
  String.length (a +:+ b) = (String.length a + String.length b)%nat.
Proof.
  induction a as [|c a IH]; [reflexivity|].
  rewrite append_cons. cbn [String.length]. now rewrite IH.
Qed.

Lemma substring_append_r (a b : string) (k m : nat) :
  String.substring (String.length a + k) m (a +:+ b) = String.substring k m b.
Proof.
  induction a as [|c a IH]; [reflexivity|].
  rewrite append_cons. cbn [String.length String.substring Nat.add]. exact IH.
Qed.

Lemma append_assoc (a b c : string) : (a +:+ b) +:+ c = a +:+ (b +:+ c).
Proof.
  induction a as [|x a IH]; [reflexivity|].
  rewrite !append_cons. now rewrite IH.
Qed.

Lemma prefix_append (a b : string) : String.prefix a (a +:+ b) = true.
Proof.
  induction a as [|c a IH]; [now destruct b|].
  rewrite append_cons. cbn [String.prefix].
  destruct (ascii_dec c c); [exact IH|contradiction].
Qed.

Lemma HasSuffix_append (a b : string) : HasSuffix (a +:+ b) b = true.
Proof.
  unfold HasSuffix. cbv zeta. rewrite length_append.
  rewrite bool_decide_eq_true_2 by lia. cbn [andb].
  replace (String.length a + String.length b - String.length b)%nat
    with (String.length a + 0)%nat by lia.
  rewrite substring_append_r.
  replace (String.substring 0 (String.length b) b) with b.
  - apply String.eqb_refl.
  - clear. induction b as [|c b IH]; [reflexivity|].
    cbn [String.length String.substring]. now rewrite <- IH.
Qed.

Lemma Join_nonempty (a b : string) :
  a <> EmptyString -> b <> EmptyString -> Join a b = a +:+ "/" +:+ b.
Proof.
  intros Ha Hb. unfold Join.
  destruct (String.eqb_spec a EmptyString); [contradiction|].
  destruct (String.eqb_spec b EmptyString); [contradiction|reflexivity].
Qed.

Lemma getEntryFiles_none (d : Disk) (dirName : string) :
  getEntryFiles d dirName = Ret ([], None) ->
  WalkPathFunc d dirName
    (fun p isDir =>
       if isDir then false else if HasSuffix p ".ent" then true else false) =
  [].
Proof.
  unfold getEntryFiles. cbv zeta. intros Hscan.
  apply getEntryFiles_loop_spec in Hscan.
  destruct Hscan as (fs0 & Hall & Hsort). cbn [app] in Hsort.
  assert (Hfs0 : fs0 = []).
  { apply Permutation_nil_r. rewrite <- (sort_files_perm fs0). now rewrite <- Hsort. }
  subst fs0. now inversion Hall.
Qed.

Lemma lookup_name_new (d : Disk) (p : string) (h : nat) (m : list MmapFile) :
  lookup_name d p = None ->
  lookup_name {| mapped := m; names := names d ++ [(p, h)] |} p = Some h.
Proof.
  unfold lookup_name. cbn [names].
  destruct (list_find (fun q => fst q = p) (names d)) as [[i [q h0]]|] eqn:Hf;
    [discriminate|].
  intros _. rewrite list_find_app_r by assumption.
  cbn. destruct (decide (p = p)); [reflexivity|contradiction].
Qed.

(** X27. A directory (with a non-empty name) in which [openEntryLog] has
    created the first entry file cannot be opened again: the scan now
    finds that file, with first index 0, and [openEntryLog] returns an
    error for the directory and no log. *)
Theorem openEntryLog_twice_fails (d d' : Disk) (dirName : string)
    (l : entryLog)
    (Hdir : dirName <> EmptyString)
    (Hscan : getEntryFiles d dirName = Ret ([], None))
    (Hnew : lookup_name d (Join dirName "1.ent") = None)
    (Hopen : openEntryLog dirName d = Ret (Some l, None, d')) :
  getEntryFiles d' dirName =
    Ret ([{| firstIndex := 0; path := Join dirName "1.ent";
             mmap := Some (length (mapped d)) |}], None) /\
  exists er, openEntryLog dirName d' = Ret (None, Some er, d').
Proof.
  rewrite (openEntryLog_on_empty d dirName Hscan Hnew) in Hopen.
  injection Hopen as _ Hd'.
  assert (Hrescan : getEntryFiles d' dirName =
            Ret ([{| firstIndex := 0; path := Join dirName "1.ent";
                     mmap := Some (length (mapped d)) |}], None)).
  { pose proof (getEntryFiles_none d dirName Hscan) as Hnone.
    unfold getEntryFiles, WalkPathFunc in *. cbv zeta.
    rewrite <- Hd'. cbn [names disk_fill].
    rewrite fmap_app, filter_app, Hnone. cbn [app fmap list_fmap fst].
    assert (Hp : Join dirName "1.ent" = (dirName +:+ "/") +:+ "1.ent").
    { rewrite Join_nonempty by (assumption || discriminate).
      now rewrite append_assoc. }
    rewrite filter_cons_True.
    2:{ rewrite Hp at 1. rewrite prefix_append. cbn [andb].
        replace (Join dirName "1.ent") with ((dirName +:+ "/1") +:+ ".ent")
          by (rewrite Hp, !append_assoc; reflexivity).
        now rewrite HasSuffix_append. }
    rewrite filter_nil. cbn [getEntryFiles_loop].
    unfold getEntryFile.
    fold (disk_fill
            {| mapped := mapped d ++
                         [{| fbytes := fun _ : Z => 0;
                             fsize := entryFileMaxSize |}];
               names := names d ++
                        [(Join dirName "1.ent", length (mapped d))] |}
            (length (mapped d)) 0 (entrySize * maxNumEntries - 0)).
    assert (Hl : lookup_name
              (disk_fill
                 {| mapped := mapped d ++
                              [{| fbytes := fun _ : Z => 0;
                                  fsize := entryFileMaxSize |}];
                    names := names d ++
                             [(Join dirName "1.ent", length (mapped d))] |}
                 (length (mapped d)) 0 (entrySize * maxNumEntries - 0))
              (Join dirName "1.ent") = Some (length (mapped d))).
    { exact (lookup_name_new d _ _ _ Hnew). }
    rewrite Hl.
    rewrite disk_read_zero by (intros i _; apply byte_at_fresh_file).
    reflexivity. }
  split; [exact Hrescan|].
  eexists. apply (openEntryLog_existing_fails d' dirName _ Hrescan).
  discriminate.
Qed.

(** The theorem at the empty disk and the directory "wal". *)
Lemma openEntryLog_twice_fails_witness :
  exists er,
    openEntryLog walDir (theDisk freshLog) =
      Ret (None, Some er, theDisk freshLog).
Proof.
  assert (Hdir : walDir <> EmptyString) by discriminate.
  assert (Hscan : getEntryFiles emptyDisk walDir = Ret ([], None))
    by (vm_compute; reflexivity).
  assert (Hnew : lookup_name emptyDisk (Join walDir "1.ent") = None)
    by (vm_compute; reflexivity).
  assert (Hopen : openEntryLog walDir emptyDisk =
                  Ret (Some (theLog freshLog), None, theDisk freshLog)).
  { assert (Hran : ran freshLog = true) by (vm_compute; reflexivity).
    revert Hran. unfold freshLog, opened.
    destruct (openEntryLog walDir emptyDisk) as [[[[l|] [er|]] d]|];
      intros Hran; (reflexivity || discriminate Hran). }
  exact (proj2 (openEntryLog_twice_fails emptyDisk _ walDir _ Hdir Hscan Hnew
                  Hopen)).
Defined.

(** ** Errors of the term lookup *)

(** X28. [Term] returns no error, whatever the log, the disk and the
    index: its slot reads cannot fail without a panic, and the error of
    the second read is dropped. The same holds for the store's [Term],
    which hands the call on. *)
Theorem Term_returns_no_error (d : Disk) (l : entryLog) (w : DiskStorage)
    (idx v : Z) (er : error) :
  entryLog_Term d l idx <> Ret (v, Some er) /\
  DiskStorage_Term d w idx <> Ret (v, Some er).
Proof.
  assert (Hlog : forall l0, entryLog_Term d l0 idx <> Ret (v, Some er)).
  { intros l0. unfold entryLog_Term. cbv zeta.
    destruct (files_at l0 (Search (len_files l0) (firstIndex_ge l0 idx)))
      as [f|]; run_bind; [|discriminate].
    destruct (firstIndex f =? idx).
    - destruct (entryFile_getEntry d f 0) as [[[e|] [er0|]]|] eqn:Hget;
        run_bind; try discriminate.
      + now apply entryFile_getEntry_no_error in Hget.
      + now apply entryFile_getEntry_no_error in Hget.
    - destruct (files_at l0 _) as [ef|]; run_bind; [|discriminate].
      destruct (entryFile_getEntry d ef _) as [[[e|] [er0|]]|];
        run_bind; discriminate. }
  split; [apply Hlog|].
  unfold DiskStorage_Term. destruct (entries w); [apply Hlog|discriminate].
Qed.

(** ** Counting and the last index after [Save] *)

(** X29. After a successful [Save] on a store whose entry log has a file,
    [NumEntries] has grown by the number of entries given, and
    [LastIndex] is the index of the last entry given (the previous last
    index when none was given), whatever the other indices were. *)
Theorem Save_counts (w w' : DiskStorage) (h : option HardState)
    (es : list raftEntry) (snap : option Snapshot) (d d' : Disk)
    (l : entryLog)
    (Hl : entries w = Some l) (Hfiles : files l <> [])
    (Hidx : entryIndex l <= maxNumEntries)
    (Hsave : Save w h es snap d = Ret (w', None, d')) :
  DiskStorage_NumEntries w' =
    Ret (numEntries l + Z.of_nat (length es), None) /\
  DiskStorage_LastIndex w' =
    Ret (match last es with Some e => reIndex e | None => lastIndex l end,
         None).
Proof.
  destruct (Save_returned _ _ _ _ _ _ _ Hsave)
    as (t & w1 & d1 & d2 & w2 & batch & _ & Hadd & _ & Hsnap & _ & ->).
  unfold store_AddEntries in Hadd. rewrite Hl in Hadd.
  destruct (entryLog_AddEntries l es d) as [[[l1 [er|]] d0]|] eqn:Hlog;
    revert Hadd; run_bind; try discriminate.
  intros [= <- <-].
  apply setSnapshot_fields in Hsnap.
  destruct Hsnap as (_ & _ & _ & _ & He & _).
  unfold DiskStorage_NumEntries, DiskStorage_LastIndex, entryLog_LastIndex.
  cbn [entries set_db]. rewrite He. cbn [entries set_entries].
  destruct (AddEntries_only_adds _ _ _ _ _ Hlog Hfiles Hidx) as (_ & _ & Hn).
  rewrite Hn. split; [reflexivity|]. f_equal. f_equal.
  destruct es as [|e es'] using rev_ind.
  - cbn in Hlog. now injection Hlog as <- _.
  - rewrite last_snoc. now apply AddEntries_last in Hlog.
Qed.

(** The theorem at the save of entries 1 to 5 into the store opened on
    the empty directory. *)
Lemma Save_counts_witness :
  exists w' d',
    Save (theStore (withDB initStore)) None
      ((fun i => normalEntry i 1 []) <$> seqZ 1 5) None
      (storeDisk (withDB initStore)) = Ret (w', None, d') /\
    DiskStorage_NumEntries w' = Ret (5, None) /\
    DiskStorage_LastIndex w' = Ret (5, None).
Proof.
  assert (Hl : entries (theStore (withDB initStore)) =
               Some (storeLog (withDB initStore)))
    by (vm_compute; reflexivity).
  assert (Hfiles : files (storeLog (withDB initStore)) <> [])
    by (vm_compute; discriminate).
  assert (Hidx : entryIndex (storeLog (withDB initStore)) <= maxNumEntries)
    by (vm_compute; discriminate).
  assert (Hok : match Save (theStore (withDB initStore)) None
                        ((fun i => normalEntry i 1 []) <$> seqZ 1 5) None
                        (storeDisk (withDB initStore)) with
                | Done (Ret (_, None, _)) => true
                | _ => false
                end = true) by (vm_compute; reflexivity).
  destruct (Save (theStore (withDB initStore)) None
              ((fun i => normalEntry i 1 []) <$> seqZ 1 5) None
              (storeDisk (withDB initStore)))
    as [[[[w' [er|]] d']|]|] eqn:Hsave; try discriminate Hok.
  exists w', d'. split; [reflexivity|].
  exact (Save_counts _ w' None _ None _ d' _ Hl Hfiles Hidx Hsave).
Defined.

(** ** The append of the key-value layout *)

Lemma db_get_sets (es : list raftEntry) (t : DB) (k : Z) :
  db_get (ops_Flush t ((fun e => OpSet (reIndex e) e) <$> es)) k =
    match last (filter (fun e => reIndex e = k) es) with
    | Some e => Some e
    | None => db_get t k
    end.
Proof.
  induction es as [|e es IH] using rev_ind; [reflexivity|].
  rewrite fmap_app. unfold ops_Flush in *. rewrite foldl_app.
  cbn [fmap list_fmap foldl apply_op].
  rewrite db_get_db_set, filter_app.
  destruct (Z.eqb_spec k (reIndex e)) as [Heq|Hne].
  - rewrite (filter_cons_True _ e []) by congruence.
    now rewrite filter_nil, last_snoc.
  - rewrite (filter_cons_False _ e []) by congruence.
    rewrite filter_nil, app_nil_r. apply IH.
Qed.

(** X30. [addEntries] on entries that start at or after the first index
    and end with their highest index: every entry is set under its index,
    the cached last index becomes the index of the last entry, and, when
    that index is below the last index of the entry log, every key above
    it is deleted, so that once the batch is flushed nothing is stored
    beyond the last entry given. *)
Theorem addEntries_truncates (d : Disk) (w : DiskStorage)
    (e0 le : raftEntry) (rest : list raftEntry) (first : Z) (t : DB)
    (l : entryLog)
    (Hdb : db w = Some t) (Hsorted : db_sorted t)
    (Hl : entries w = Some l)
    (Hlast : last (e0 :: rest) = Some le)
    (Hfirst : DiskStorage_FirstIndex d w = Ret (first, None))
    (Hlow : 0 <= first <= reIndex e0)
    (Hfit : reIndex e0 + Z.of_nat (length (e0 :: rest)) < 2 ^ 64)
    (Hasc : Forall (fun e => reIndex e <= reIndex le) (e0 :: rest))
    (Hle : 0 <= reIndex le) (Hli : lastIndex l < 2 ^ 64) :
  exists w' ops,
    addEntries d w [] (e0 :: rest) = Ret (w', ops, None) /\
    cache w' !! lastKey = Some (CUint64 (reIndex le)) /\
    forall k,
      db_get (ops_Flush t ops) k =
        if (reIndex le <? lastIndex l) && (reIndex le <? k) then None
        else match last (filter (fun e => reIndex e = k) (e0 :: rest)) with
             | Some e => Some e
             | None => db_get t k
             end.
Proof.
  unfold addEntries. rewrite Hfirst. run_bind. cbv zeta.
  set (ents := e0 :: rest) in *.
  assert (Hu : u64 (u64 (reIndex e0 + Z.of_nat (length ents)) - 1) =
               reIndex e0 + Z.of_nat (length ents) - 1).
  { assert (Hlen : 1 <= Z.of_nat (length ents))
      by (unfold ents; cbn [length]; lia).
    unfold u64. rewrite (Z.mod_small (reIndex e0 + _)) by lia.
    apply Z.mod_small. lia. }
  rewrite Hu.
  destruct (Z.ltb_spec (reIndex e0 + Z.of_nat (length ents) - 1) first);
    [unfold ents in *; cbn [length] in *; lia|].
  destruct (Z.gtb_spec first (reIndex e0)); [lia|]. run_bind.
  rewrite Hl, Hlast. unfold entryLog_LastIndex. cbn [app].
  destruct (Z.ltb_spec (reIndex le) (lastIndex l)) as [Hbehind|Hahead].
  - rewrite (deleteFrom_ops _ _ _ t) by (cbn [db set_cache]; assumption).
    run_bind.
    eexists _, _. split; [reflexivity|].
    split; [cbn [cache set_cache]; now rewrite lookup_insert_eq|].
    intros k. unfold ops_Flush. rewrite foldl_app.
    fold (ops_Flush t ((fun e => OpSet (reIndex e) e) <$> ents)).
    fold (ops_Flush (ops_Flush t ((fun e => OpSet (reIndex e) e) <$> ents))
            (OpDelete <$> (fst <$> db_seek t (u64 (reIndex le + 1))))).
    rewrite db_get_deletes, db_get_sets. cbn [andb].
    assert (Hu1 : u64 (reIndex le + 1) = reIndex le + 1)
      by (unfold u64; apply Z.mod_small; lia).
    rewrite Hu1.
    destruct (Z.ltb_spec (reIndex le) k) as [Hk|Hk].
    + destruct (decide (k ∈ (fst <$> db_seek t (reIndex le + 1)))) as [Hin|Hnin].
      * now rewrite bool_decide_eq_true_2.
      * rewrite bool_decide_eq_false_2 by assumption.
        rewrite filter_none.
        -- cbn [last]. apply db_get_None. intros Hkt. apply Hnin.
           apply db_seek_keys; [assumption|]. split; [lia|assumption].
        -- eapply Forall_impl; [exact Hasc|]. cbn. intros; lia.
    + rewrite bool_decide_eq_false_2; [reflexivity|].
      rewrite db_seek_keys by assumption. lia.
  - eexists _, _. split; [reflexivity|].
    split; [cbn [cache set_cache]; now rewrite lookup_insert_eq|].
    intros k. cbn [andb]. apply db_get_sets.
Qed.

(** The theorem at a store holding entries 1 to 3 under a log whose last
    index is 3, given one entry of index 2. *)
Lemma addEntries_truncates_witness :
  let t := [(1, normalEntry 1 1 []); (2, normalEntry 2 1 []);
            (3, normalEntry 3 1 [])] in
  let l := {| files := [{| firstIndex := 0; path := "1.ent";
                           mmap := Some 1%nat |}];
              currentFid := 1;
              current := Some {| bfile := 1; boff := entryFileOffset |};
              entryIndex := 3; lastIndex := 3; dir := walDir |} in
  let w := set_db (set_entries (theStore initStore) l) t in
  exists w' ops,
    addEntries (storeDisk initStore) w [] [normalEntry 2 2 []] =
      Ret (w', ops, None) /\
    db_get (ops_Flush t ops) 2 = Some (normalEntry 2 2 []) /\
    db_get (ops_Flush t ops) 3 = None.
Proof.
  intros t l w.
  assert (Hs : db_sorted t) by (cbn; lia).
  assert (Hfirst : DiskStorage_FirstIndex (storeDisk initStore) w =
                   Ret (0, None)) by (vm_compute; reflexivity).
  assert (Hlow : 0 <= 0 <= reIndex (normalEntry 2 2 [])) by (cbn; lia).
  assert (Hfit : reIndex (normalEntry 2 2 []) +
                 Z.of_nat (length [normalEntry 2 2 []]) < 2 ^ 64)
    by (cbn; lia).
  assert (Hasc : Forall (fun e => reIndex e <= reIndex (normalEntry 2 2 []))
                   [normalEntry 2 2 []])
    by (constructor; [cbn; lia|constructor]).
  assert (Hle : 0 <= reIndex (normalEntry 2 2 [])) by (cbn; lia).
  assert (Hli : lastIndex l < 2 ^ 64) by (cbn; lia).
  destruct (addEntries_truncates (storeDisk initStore) w (normalEntry 2 2 [])
              (normalEntry 2 2 []) [] 0 t l eq_refl Hs eq_refl eq_refl Hfirst
              Hlow Hfit Hasc Hle Hli) as (w' & ops & Hadd & _ & Hget).
  exists w', ops. split; [exact Hadd|]. split.
  - exact (Hget 2).
  - exact (Hget 3).
Defined.

(** ** The reader over the entry log *)

(** [allEntriesNew] returns no entry, whatever the entry log holds: the
    entries read from the log are dropped. *)
Lemma allEntriesNew_returns_nothing (d : Disk) (w : DiskStorage)
    (lo hi maxSize : Z) (es : list raftEntry) (err : option error) :
  allEntriesNew d w lo hi maxSize = Ret (es, err) -> es = [].
Proof.
  unfold allEntriesNew. destruct (entries w) as [l|]; [|discriminate].
  destruct (entryLog_allEntries d l lo hi maxSize) as [[ents [er|]]|];
    run_bind; try discriminate; now intros [= <- _].
Qed.
